(** * Table normalisation and record synthesis: a shallow embedding

    The development embeds the cell/row/record pipeline of [main.py]
    (PDF source) and [html_to_table.py] (HTML source) and proves the
    properties of the specification against it.

    Text is modelled the way Python has it: a [str] is a sequence of
    Unicode code points.  Regular expressions are run by a small
    backtracking matcher with the priorities of Python's [re]. *)

From Stdlib Require Import String Ascii.
From Stdlib Require Import List NArith Arith Bool Lia Permutation Sorted.
Import ListNotations.

Set Implicit Arguments.

(* ================================================================== *)
(** * Python strings *)
(* ================================================================== *)

Module PyStr.

(** A character is a Unicode code point. *)
Abbreviation char := N (only parsing).
Abbreviation str := (list N) (only parsing).

Definition char_eqb (a b : char) : bool := N.eqb a b.

Fixpoint str_eqb (a b : str) : bool :=
  match a, b with
  | [], [] => true
  | x :: a', y :: b' => char_eqb x y && str_eqb a' b'
  | _, _ => false
  end.

(** ** Literals

    Literals are written as UTF-8 text and decoded to code points, so
    that the constants below read as they do in the source. *)
Fixpoint utf8_go (need : nat) (acc : N) (bs : list N) : str :=
  match bs with
  | [] => []
  | b :: t =>
      match need with
      | S k =>
          let acc' := (acc * 64 + b mod 64)%N in
          match k with
          | O => acc' :: utf8_go 0 0%N t
          | S _ => utf8_go k acc' t
          end
      | O =>
          if (b <? 128)%N then b :: utf8_go 0 0%N t
          else if (b <? 224)%N then utf8_go 1 (b mod 32)%N t
          else if (b <? 240)%N then utf8_go 2 (b mod 16)%N t
          else utf8_go 3 (b mod 8)%N t
      end
  end.

Definition u (s : string) : str :=
  utf8_go 0 0%N (map (fun b => N.of_nat (Byte.to_nat b)) (list_byte_of_string s)).

(** ** Character classes of the runtime *)

(** [str.isspace] on one character; also [\s] of [re] and the set
    removed by [str.strip()]. *)
Definition is_space (c : char) : bool :=
  (((9 <=? c) && (c <=? 13)) || ((28 <=? c) && (c <=? 32))
   || (c =? 133) || (c =? 160) || (c =? 5760)
   || ((8192 <=? c) && (c <=? 8202))
   || (c =? 8232) || (c =? 8233) || (c =? 8239) || (c =? 8287)
   || (c =? 12288))%N.

(** First code point of every run of ten decimal digits (general
    category Nd, Unicode 14). *)
Definition decimal_runs : list N :=
  [48; 1632; 1776; 1984; 2406; 2534; 2662; 2790; 2918; 3046; 3174; 3302;
   3430; 3558; 3664; 3792; 3872; 4160; 4240; 6112; 6160; 6470; 6608; 6784;
   6800; 6992; 7088; 7232; 7248; 42528; 43216; 43264; 43472; 43504; 43600;
   44016; 65296; 66720; 68912; 69734; 69872; 69942; 70096; 70384; 70736;
   70864; 71248; 71360; 71472; 71904; 72016; 72784; 73040; 73120; 92768;
   92864; 93008; 120782; 120792; 120802; 120812; 120822; 123200; 123632;
   125264; 130032]%N.

(** [\d] of [re] on a [str] pattern: any Unicode decimal digit. *)
Definition is_digit (c : char) : bool :=
  existsb (fun lo => (lo <=? c) && (c <=? lo + 9))%N decimal_runs.

(** ** Methods of [str] *)

Fixpoint is_prefix (p s : str) : bool :=
  match p, s with
  | [], _ => true
  | x :: p', y :: s' => char_eqb x y && is_prefix p' s'
  | _ :: _, [] => false
  end.

(** [sub in s] *)
Fixpoint contains (sub s : str) : bool :=
  is_prefix sub s ||
  match s with
  | [] => false
  | _ :: t => contains sub t
  end.

(** [s.replace(old, new)] for a non-empty [old]: occurrences are taken
    left to right and do not overlap.  [skip] counts the characters of
    the occurrence just replaced that are still to be passed. *)
Fixpoint replace_go (old new : str) (skip : nat) (s : str) : str :=
  match s with
  | [] => []
  | c :: t =>
      match skip with
      | S k => replace_go old new k t
      | O =>
          if is_prefix old s
          then new ++ replace_go old new (length old - 1) t
          else c :: replace_go old new 0 t
      end
  end.

Definition replace (old new s : str) : str := replace_go old new 0 s.

Fixpoint lstrip (s : str) : str :=
  match s with
  | c :: t => if is_space c then lstrip t else s
  | [] => []
  end.

Definition rstrip (s : str) : str := rev (lstrip (rev s)).

(** [s.strip()] *)
Definition strip (s : str) : str := rstrip (lstrip s).

(** [sep.join(parts)] *)
Fixpoint join (sep : str) (parts : list str) : str :=
  match parts with
  | [] => []
  | [p] => p
  | p :: rest => p ++ sep ++ join sep rest
  end.

(** Truthiness of a string. *)
Definition nonempty (s : str) : bool :=
  match s with [] => false | _ :: _ => true end.

(** [c.lower()] restricted to what the program compares it with: the
    only characters whose lower case is an ASCII letter [a] or [n] are
    [a], [A], [n], [N], so on every other character the comparison with
    ["nan"] fails whatever its lower case is. *)
Definition ascii_lower (c : char) : char :=
  if ((65 <=? c) && (c <=? 90))%N then (c + 32)%N else c.

End PyStr.

Import PyStr.

(* ================================================================== *)
(** * Regular expressions *)
(* ================================================================== *)

Module Re.

(** The fragment of [re] syntax the program uses.  Every repetition in
    the program's patterns is over a character class, and no pattern
    has more than one capture group. *)
Inductive regex : Type :=
| Lit (l : str)               (* literal text *)
| Cls (p : char -> bool)      (* one character of a class: \s \d [...] *)
| Cat (r1 r2 : regex)         (* r1 r2 *)
| Alt (r1 r2 : regex)         (* r1|r2, left alternative first *)
| Opt (r : regex)             (* r?  greedy *)
| Rep1 (p : char -> bool)     (* class+  greedy *)
| Rep0 (p : char -> bool)     (* class*  greedy *)
| Bol                         (* ^ *)
| Eol                         (* $ : at the end, or before a final newline *)
| Ahead (r : regex)           (* (?=r) *)
| Grp (r : regex).            (* ( r ), group 1 *)

(** A point of a match: characters consumed so far from the start of
    the subject, the text of group 1 if it has matched, and the
    subject text still ahead. *)
Record mstate : Type := MState {
  m_pos : nat;
  m_grp : option str;
  m_rest : str
}.

(** All ways of matching [class*] from a point, longest first. *)
Fixpoint greedy (p : char -> bool) (pos : nat) (s : str) : list (nat * str) :=
  match s with
  | c :: t => if p c then greedy p (S pos) t ++ [(pos, s)] else [(pos, s)]
  | [] => [(pos, [])]
  end.

Fixpoint drop_prefix (l s : str) : option str :=
  match l, s with
  | [], _ => Some s
  | x :: l', y :: s' => if char_eqb x y then drop_prefix l' s' else None
  | _ :: _, [] => None
  end.

(** The points at which a match of [r] started at [st] can end, in the
    order in which a backtracking matcher tries them. *)
Fixpoint exec (r : regex) (st : mstate) : list mstate :=
  match r with
  | Lit l =>
      match drop_prefix l (m_rest st) with
      | Some rest => [MState (m_pos st + length l) (m_grp st) rest]
      | None => []
      end
  | Cls p =>
      match m_rest st with
      | c :: t => if p c then [MState (S (m_pos st)) (m_grp st) t] else []
      | [] => []
      end
  | Cat r1 r2 => flat_map (exec r2) (exec r1 st)
  | Alt r1 r2 => exec r1 st ++ exec r2 st
  | Opt r' => exec r' st ++ [st]
  | Rep1 p =>
      match m_rest st with
      | c :: t =>
          if p c
          then map (fun e => MState (fst e) (m_grp st) (snd e))
                   (greedy p (S (m_pos st)) t)
          else []
      | [] => []
      end
  | Rep0 p =>
      map (fun e => MState (fst e) (m_grp st) (snd e))
          (greedy p (m_pos st) (m_rest st))
  | Bol => if Nat.eqb (m_pos st) 0 then [st] else []
  | Eol =>
      match m_rest st with
      | [] => [st]
      | [c] => if char_eqb c 10%N then [st] else []
      | _ => []
      end
  | Ahead r' =>
      match exec r' st with
      | [] => []
      | _ :: _ => [st]
      end
  | Grp r' =>
      map (fun e => MState (m_pos e)
                           (Some (firstn (m_pos e - m_pos st) (m_rest st)))
                           (m_rest e))
          (exec r' st)
  end.

(** The match found at a point: the first way that succeeds. *)
Definition match_at (r : regex) (pos : nat) (s : str) : option mstate :=
  hd_error (exec r (MState pos None s)).

(** [re.match(r, s)] as a truth value. *)
Definition re_match (r : regex) (s : str) : bool :=
  match match_at r 0 s with Some _ => true | None => false end.

(** [re.fullmatch(r, s)] as a truth value: some way of matching ends
    at the end of the subject. *)
Definition re_fullmatch (r : regex) (s : str) : bool :=
  existsb (fun e => negb (nonempty (m_rest e))) (exec r (MState 0 None s)).

Fixpoint search_go (r : regex) (pos : nat) (s : str) : bool :=
  match match_at r pos s with
  | Some _ => true
  | None =>
      match s with
      | [] => false
      | _ :: t => search_go r (S pos) t
      end
  end.

(** [re.search(r, s)] as a truth value. *)
Definition re_search (r : regex) (s : str) : bool := search_go r 0 s.

(** [re.sub(r, repl, s)].  [repl] receives group 1 and the whole match.
    Matches are taken left to right without overlap; [skip] counts the
    characters of the last match still to be passed.  An empty match
    is replaced and the scan moves on by one character. *)
Fixpoint sub_go (r : regex) (repl : option str -> str -> str)
         (pos skip : nat) (s : str) : str :=
  match s with
  | [] =>
      match skip with
      | S _ => []
      | O =>
          match match_at r pos [] with
          | Some e => repl (m_grp e) []
          | None => []
          end
      end
  | c :: t =>
      match skip with
      | S k => sub_go r repl (S pos) k t
      | O =>
          match match_at r pos s with
          | Some e =>
              match m_pos e - pos with
              | O => repl (m_grp e) [] ++ c :: sub_go r repl (S pos) 0 t
              | S k => repl (m_grp e) (firstn (S k) s)
                         ++ sub_go r repl (S pos) k t
              end
          | None => c :: sub_go r repl (S pos) 0 t
          end
      end
  end.

Definition re_sub (r : regex) (repl : option str -> str -> str) (s : str) : str :=
  sub_go r repl 0 0 s.

(** A replacement template without group references. *)
Definition tmpl (t : str) : option str -> str -> str := fun _ _ => t.

(** The text of group 1 in a template ([\1]); empty if unmatched. *)
Definition group1 (g : option str) : str :=
  match g with Some x => x | None => [] end.

(** [re.split(r, s)] for a pattern without groups that cannot match the
    empty string (the program splits on [\s+] only).  [cur] is the
    piece being collected. *)
Fixpoint split_go (r : regex) (pos skip : nat) (cur : str) (s : str) : list str :=
  match s with
  | [] => [cur]
  | c :: t =>
      match skip with
      | S k => split_go r (S pos) k cur t
      | O =>
          match match_at r pos s with
          | Some e =>
              match m_pos e - pos with
              | O => split_go r (S pos) 0 (cur ++ [c]) t
              | S k => cur :: split_go r (S pos) k [] t
              end
          | None => split_go r (S pos) 0 (cur ++ [c]) t
          end
      end
  end.

Definition re_split (r : regex) (s : str) : list str := split_go r 0 0 [] s.

End Re.

Import Re.

(* ================================================================== *)
(** * Shared constants and data *)
(* ================================================================== *)

(** The markers of the source documents. *)
Definition GOKEI : str := Eval vm_compute in u "合計量として".
Definition KOKUSAI : str := Eval vm_compute in u "国際単位".
Definition G_WIDE : str := Eval vm_compute in u "ｇ".
Definition G_ASCII : str := Eval vm_compute in u "g".
Definition SPACE : str := Eval vm_compute in u " ".
Definition WIDE_SPACE : str := [12288%N].          (* "　" *)

(** A value written to a sheet cell. *)
Inductive cellval : Type :=
| VInt (n : nat)
| VStr (s : str).

(** A worksheet, as far as the program sees it: its rows of values. *)
Definition worksheet := list (list cellval).

(* ================================================================== *)
(** * main.py: the PDF variant *)
(* ================================================================== *)

Module Main.

(** A data frame of text cells: [ncols] columns and the rows, each of
    [ncols] cells. *)
Record DataFrame : Type := {
  ncols : nat;
  rows : list (list str)
}.

Definition nrows (df : DataFrame) : nat := length (rows df).

(** [df.empty] *)
Definition empty (df : DataFrame) : bool :=
  Nat.eqb (nrows df) 0 || Nat.eqb (ncols df) 0.

(** [df.iat[r, j]], read inside the frame. *)
Definition iat (row : list str) (j : nat) : str := nth j row [].

(** ** Cleaning *)

Definition is_sp_tab_wide (c : char) : bool :=
  (char_eqb c 32 || char_eqb c 9 || char_eqb c 12288)%N.   (* [ \t　] *)
Definition is_sp_tab (c : char) : bool :=
  (char_eqb c 32 || char_eqb c 9)%N.                         (* [ \t] *)
Definition not_rparen (c : char) : bool := negb (char_eqb c 65289%N).  (* [^）] *)
Definition not_comma (c : char) : bool := negb (char_eqb c 44%N).      (* [^,] *)

Definition LPAREN : str := Eval vm_compute in u "（".
Definition RPAREN : str := Eval vm_compute in u "）".
Definition ETHYL : str := Eval vm_compute in u "2－エチル".
Definition COMMA_ETHYL : str := Eval vm_compute in u ",2－エチル".

(** A full-width "（", group 1 = any run of [^）], a full-width "）". *)
Definition RE_PAREN : regex :=
  Cat (Lit LPAREN) (Cat (Grp (Rep0 not_rparen)) (Lit RPAREN)).
(** r"[ \t　]+" *)
Definition RE_SP_TAB_WIDE : regex := Rep1 is_sp_tab_wide.
(** r"(合計量として)\s+" *)
Definition RE_GOKEI_SP : regex := Cat (Grp (Lit GOKEI)) (Rep1 is_space).
(** r"\s+(?=国際単位)" *)
Definition RE_SP_KOKUSAI : regex := Cat (Rep1 is_space) (Ahead (Lit KOKUSAI)).
(** r"(^|[^,])\s2－エチル" *)
Definition RE_ETHYL : regex :=
  Cat (Grp (Alt Bol (Cls not_comma))) (Cat (Cls is_space) (Lit ETHYL)).
(** r"[ \t]+" *)
Definition RE_SP_TAB : regex := Rep1 is_sp_tab.

Definition _rm_spaces_inside_paren (g1 : option str) (m : str) : str :=
  let inner := re_sub RE_SP_TAB_WIDE (tmpl []) (group1 g1) in
  LPAREN ++ inner ++ RPAREN.

(** The six steps of the cell normaliser, one per assignment to [y]. *)
Definition step_wide_space (x : str) : str := replace WIDE_SPACE SPACE x.
Definition step_paren (y : str) : str := re_sub RE_PAREN _rm_spaces_inside_paren y.
Definition step_gokei (y : str) : str := re_sub RE_GOKEI_SP (fun g _ => group1 g) y.
Definition step_kokusai (y : str) : str := re_sub RE_SP_KOKUSAI (tmpl []) y.
Definition step_ethyl (y : str) : str :=
  re_sub RE_ETHYL (fun g _ => group1 g ++ COMMA_ETHYL) y.
Definition step_collapse (y : str) : str := strip (re_sub RE_SP_TAB (tmpl SPACE) y).

Definition _strip_cell (x : str) : str :=
  let y := step_wide_space x in
  let y := step_paren y in
  let y := step_gokei y in
  let y := step_kokusai y in
  let y := step_ethyl y in
  step_collapse y.

Definition clean_df (df : DataFrame) : DataFrame :=
  {| ncols := ncols df; rows := map (map _strip_cell) (rows df) |}.

(** ** Row filter *)

Definition SEIBUNMEI : str := Eval vm_compute in u "成分名".
Definition NAN : str := Eval vm_compute in u "nan".

(** [re.fullmatch(r"\d+", s)] *)
Definition _is_int_string (s : str) : bool := re_fullmatch (Rep1 is_digit) s.

Definition _norm_no_space (s : str) : str :=
  strip (re_sub (Rep1 is_space) (tmpl []) (replace WIDE_SPACE SPACE s)).

(** [c and c.lower() != "nan"] *)
Definition is_nonempty_cell (c : str) : bool :=
  nonempty c && negb (str_eqb (map ascii_lower c) NAN).

(** [digit_only_cnt / len(nonempty) >= DIGIT_ROW_MIN_RATIO] with
    [DIGIT_ROW_MIN_RATIO = 0.8], compared as the exact ratio against
    4/5 (the rounded quotient and the rounded constant compare the same
    way for any row that fits in memory). *)
Definition ratio_at_least_min (cnt len : nat) : bool := 4 * len <=? 5 * cnt.

Definition is_digit_row (row : list str) : bool :=
  let cells := map strip row in
  let nonempty := filter is_nonempty_cell cells in
  let digit_only_cnt := length (filter _is_int_string nonempty) in
  (0 <? length nonempty) && ratio_at_least_min digit_only_cnt (length nonempty).

Definition is_seibunmei (row : list str) : bool :=
  let first_norm := match row with c :: _ => _norm_no_space c | [] => [] end in
  str_eqb first_norm SEIBUNMEI.

(** The rows whose index is kept are those for which
    [not (is_digit_row or is_seibunmei)]. *)
Definition keep_row (row : list str) : bool :=
  negb (is_digit_row row || is_seibunmei row).

Definition drop_unwanted_rows (df : DataFrame) : DataFrame :=
  if empty df then df
  else {| ncols := ncols df; rows := filter keep_row (rows df) |}.

(** ** Token move: left column to right column, one position earlier *)

(** r"^\d+(?:\.\d+)?(?:ｇ|国際単位)$" *)
Definition _TOKEN_IS_AMOUNT : regex :=
  Cat Bol
    (Cat (Rep1 is_digit)
       (Cat (Opt (Cat (Lit [46%N]) (Rep1 is_digit)))
          (Cat (Alt (Lit G_WIDE) (Lit KOKUSAI)) Eol))).

Definition _split_tokens (s : str) : list str :=
  filter nonempty (re_split (Rep1 is_space) (strip s)).

Definition _join_tokens (tokens : list str) : str :=
  join SPACE (filter nonempty tokens).

(** [[i for i, tok in enumerate(c1) if _TOKEN_IS_AMOUNT.match(tok)]] *)
Fixpoint hits_from (i : nat) (c1 : list str) : list nat :=
  match c1 with
  | [] => []
  | tok :: t =>
      if re_match _TOKEN_IS_AMOUNT tok then i :: hits_from (S i) t
      else hits_from (S i) t
  end.

Definition hits (c1 : list str) : list nat := hits_from 0 c1.

(** [l.pop(i)] for [i] in range: the list without its element [i]. *)
Definition pop_at (i : nat) (l : list str) : list str :=
  firstn i l ++ skipn (S i) l.

(** [l.insert(pos, x)]: at [pos], or at the end when [pos] is not
    below the length. *)
Definition insert_at (pos : nat) (x : str) (l : list str) : list str :=
  firstn pos l ++ x :: skipn pos l.

(** One turn of the loop over the hits. *)
Definition move_step (st : list str * list str) (i_hit : nat)
  : list str * list str :=
  let (c1, c2) := st in
  match i_hit with
  | O => st                                   (* insert_pos < 0: continue *)
  | S insert_pos =>
      let moved := nth i_hit c1 [] in
      let c1' := pop_at i_hit c1 in
      let c2' :=
        if length c2 <? insert_pos
        then c2 ++ repeat [] (insert_pos - length c2)
        else c2 in
      (c1', insert_at insert_pos moved c2')
  end.

(** The loop runs over [sorted(hits, reverse=True)]; [hits] is
    increasing, so that is its reversal. *)
Definition move_tokens (c1 c2 : list str) : list str * list str :=
  fold_left move_step (rev (hits c1)) (c1, c2).

Definition move_row (row : list str) : list str :=
  match row with
  | a :: b :: rest =>
      let (c1, c2) := move_tokens (_split_tokens a) (_split_tokens b) in
      _join_tokens c1 :: _join_tokens c2 :: rest
  | _ => row
  end.

Definition move_amount_token_from_col1_to_col2 (df : DataFrame) : DataFrame :=
  if empty df || (ncols df <? 2) then df
  else {| ncols := ncols df; rows := map move_row (rows df) |}.

(** ** Squash of an over-split left column *)

Definition squash_row (row : list str) : list str :=
  match row with
  | a :: b :: rest =>
      let c1 := _split_tokens a in
      let c2 := _split_tokens b in
      if (3 <=? length c1) && Nat.eqb (length c2) 1
      then concat c1 :: b :: rest
      else row
  | _ => row
  end.

Definition squash_left_when_many_tokens_and_right_one (df : DataFrame) : DataFrame :=
  if empty df || (ncols df <? 2) then df
  else {| ncols := ncols df; rows := map squash_row (rows df) |}.

(** ** Records *)

(** One output record: the dict built by [df_to_records]. *)
Record record : Type := {
  seibunn : str;
  条件 : str;
  ryou1 : str;
  ryou2 : str;
  ryou3 : str;
  ryou4 : str;
  tanni : str;
  bikou : str;
  url : str
}.

Definition HAIGOU_FUKA : str := Eval vm_compute in u "配合負荷".
Definition HAIGOU_FUKA2 : str := Eval vm_compute in u "配合不可".

Definition _strip_gokei_and_flag (s : str) : str * bool :=
  if contains GOKEI s then (strip (replace GOKEI [] s), true)
  else (s, false).

Definition _has_kokusai_tanni (values : list str) : bool :=
  existsb (contains KOKUSAI) values.

(** The two alternatives of the pattern: [\s*] "ｇ" [\s*], or
    [\s*] "国際単位" [\s*]. *)
Definition RE_UNITS : regex :=
  Alt (Cat (Rep0 is_space) (Cat (Lit G_WIDE) (Rep0 is_space)))
      (Cat (Rep0 is_space) (Cat (Lit KOKUSAI) (Rep0 is_space))).

Definition _strip_units_for_ryou (s : str) : str :=
  strip (re_sub RE_UNITS (tmpl []) s).

Definition _contains_haigou_fuka (s : str) : bool :=
  contains HAIGOU_FUKA s || contains HAIGOU_FUKA2 s.

(** [c[i] if i < len(c) else ""] *)
Definition tok_at (c : list str) (i : nat) : str := nth i c [].

(** The record appended in the branch [not use_4cols]. *)
Definition record_2col (seibunn cond : str) (equal_len : bool)
           (r1_raw pdf_url : str) : record :=
  let (r1_no_gokei, had_g) := _strip_gokei_and_flag r1_raw in
  let r1 := _strip_units_for_ryou r1_no_gokei in
  let tanni := if _has_kokusai_tanni [r1_raw] then KOKUSAI else G_ASCII in
  let tanni := if _contains_haigou_fuka r1 then [] else tanni in
  {| seibunn := seibunn;
     条件 := if negb equal_len then cond else [];
     ryou1 := r1; ryou2 := []; ryou3 := []; ryou4 := [];
     tanni := tanni;
     bikou := if had_g then GOKEI else [];
     url := pdf_url |}.

(** The scan [for cand in (v2_raw, v3_raw, v4_raw)] for the first value
    with the aggregate marker: the value found and [had_g]. *)
Fixpoint first_gokei (cands : list str) : str * bool :=
  match cands with
  | [] => ([], false)
  | cand :: rest =>
      if contains GOKEI cand then (cand, snd (_strip_gokei_and_flag cand))
      else first_gokei rest
  end.

(** The record appended in the branch [use_4cols]. *)
Definition record_4col (seibunn cond : str) (equal_len : bool)
           (v2_raw v3_raw v4_raw pdf_url : str) : record :=
  let (r1_raw, had_g) := first_gokei [v2_raw; v3_raw; v4_raw] in
  let r1 :=
    if nonempty r1_raw
    then _strip_units_for_ryou (fst (_strip_gokei_and_flag r1_raw))
    else [] in
  let r2 := _strip_units_for_ryou v2_raw in
  let r3 := _strip_units_for_ryou v3_raw in
  let r4 := _strip_units_for_ryou v4_raw in
  let tanni :=
    if _has_kokusai_tanni [r1_raw; v2_raw; v3_raw; v4_raw]
    then KOKUSAI else G_ASCII in
  let tanni := if _contains_haigou_fuka r1 then [] else tanni in
  {| seibunn := seibunn;
     条件 := if negb equal_len then cond else [];
     ryou1 := r1; ryou2 := r2; ryou3 := r3; ryou4 := r4;
     tanni := tanni;
     bikou := if had_g then GOKEI else [];
     url := pdf_url |}.

(** The body of the loop over the rows of [df_to_records]. *)
Definition row_records (ncols : nat) (pdf_url : str) (row : list str)
  : list record :=
  let use_4cols := 4 <=? ncols in
  let c1 := _split_tokens (iat row 0) in
  let c2 := if 2 <=? ncols then _split_tokens (iat row 1) else [] in
  let c3 := if 3 <=? ncols then _split_tokens (iat row 2) else [] in
  let c4 := if 4 <=? ncols then _split_tokens (iat row 3) else [] in
  let equal_len := Nat.eqb (length c1) (length c2) in
  let cond := if negb equal_len && (0 <? length c1) then tok_at c1 0 else [] in
  let c1 := if negb equal_len && (0 <? length c1) then tl c1 else c1 in
  let count := length c1 in
  map (fun i =>
         let seibunn := tok_at c1 i in
         if negb use_4cols
         then record_2col seibunn cond equal_len (tok_at c2 i) pdf_url
         else record_4col seibunn cond equal_len
                (tok_at c2 i) (tok_at c3 i) (tok_at c4 i) pdf_url)
      (seq 0 count).

Definition df_to_records (df : DataFrame) (pdf_url : str) : list record :=
  if empty df then []
  else flat_map (row_records (ncols df) pdf_url) (rows df).

(** ** Table extraction: what happens to the tables the lattice parser
    returns *)

(** A table as the parser returns it: its page and its frame. *)
Record camelot_table : Type := {
  page : nat;
  df : DataFrame
}.

(** An entry of [items]. *)
Record item : Type := {
  it_page : nat;
  it_order : nat;
  it_df : DataFrame
}.

(** [EXCLUDE_PAGES = set()] *)
Definition EXCLUDE_PAGES : list nat := [].

Fixpoint collect_items (order : nat) (tables : list camelot_table) : list item :=
  match tables with
  | [] => []
  | t :: rest =>
      if existsb (Nat.eqb (page t)) EXCLUDE_PAGES
      then collect_items (S order) rest
      else
        let cdf := clean_df (df t) in
        if empty cdf || (nrows cdf <? 2) || (ncols cdf <? 2)
        then collect_items (S order) rest
        else {| it_page := page t; it_order := order; it_df := cdf |}
               :: collect_items (S order) rest
  end.

(** Order of the sort key [(page, order)]. *)
Definition item_leb (a b : item) : bool :=
  (it_page a <? it_page b)
  || (Nat.eqb (it_page a) (it_page b) && (it_order a <=? it_order b)).

Fixpoint insert_item (x : item) (l : list item) : list item :=
  match l with
  | [] => [x]
  | y :: t => if item_leb x y then x :: l else y :: insert_item x t
  end.

Definition sort_items (l : list item) : list item :=
  fold_right insert_item [] l.

(** [tables] is what [camelot.read_pdf] returned, or [None] when it
    raised: the exception is caught and no item is kept. *)
Definition extract_tables_lattice_only (tables : option (list camelot_table))
  : list item :=
  match tables with
  | None => []
  | Some ts => sort_items (collect_items 0 ts)
  end.

(** ** Sheet *)

Definition record_to_row (rec : record) (today_str : str) : list cellval :=
  [ VInt 0; VStr today_str; VInt 0; VStr (seibunn rec); VStr [];
    VStr (ryou1 rec); VStr (条件 rec); VStr (ryou2 rec); VStr (ryou3 rec);
    VStr (ryou4 rec); VStr (tanni rec); VStr (bikou rec); VStr []; VStr [];
    VStr (url rec) ].

(** The rows are written from the first empty row on; with no record
    nothing is written. *)
Definition append_records_to_sheet (ws : worksheet) (today_str : str)
           (records : list record) : worksheet :=
  match records with
  | [] => ws
  | _ :: _ => ws ++ map (fun r => record_to_row r today_str) records
  end.

(** ** Main *)

(** How a run ends: [sys.exit(code)], or a return after the sheet has
    been handed the records. *)
Inductive outcome : Type :=
| SysExit (code : nat)
| Returned (ws : worksheet).

(** Step 2 of [main]: the records of all items, in order. *)
Definition all_records (items : list item) (pdf_url : str) : list record :=
  flat_map
    (fun it =>
       let df := it_df it in
       let df := drop_unwanted_rows df in
       let df := move_amount_token_from_col1_to_col2 df in
       let df := squash_left_when_many_tokens_and_right_one df in
       df_to_records df pdf_url)
    items.

Definition main (tables : option (list camelot_table)) (pdf_url today_str : str)
           (ws : worksheet) : outcome :=
  let items := extract_tables_lattice_only tables in
  match items with
  | [] => SysExit 1
  | _ :: _ =>
      Returned (append_records_to_sheet ws today_str (all_records items pdf_url))
  end.

End Main.

(* ================================================================== *)
(** * html_to_table.py: the HTML variant *)
(* ================================================================== *)

Module HtmlToTable.

(** ** Cell texts of a table row

    [td_p_texts] on the texts the parser hands over: a row is given by
    its [td] elements, a [td] by the [p] elements found in it, and a
    [p] by the strings of its [stripped_strings]. *)
Definition p_text (stripped_strings : list str) : str :=
  strip (replace WIDE_SPACE SPACE (join SPACE stripped_strings)).

Definition td_text (ps : list (list str)) : str :=
  let texts := map p_text ps in
  let texts := filter nonempty texts in
  join SPACE texts.

Definition td_p_texts (tr : list (list (list str))) : list str :=
  map td_text tr.

(** The header row, left out of the output. *)
Definition EXPECTED_HEADER : list str := Eval vm_compute in
  [ u "粘膜に使用されることがない化粧品のうち洗い流すもの";
    u "粘膜に使用されることがない化粧品のうち洗い流さないもの";
    u "粘膜に使用されることがある化粧品" ].

Definition _norm (s : str) : str :=
  let s := replace WIDE_SPACE SPACE s in
  strip (re_sub (Rep1 is_space) (tmpl SPACE) s).

Fixpoint list_str_eqb (a b : list str) : bool :=
  match a, b with
  | [], [] => true
  | x :: a', y :: b' => str_eqb x y && list_str_eqb a' b'
  | _, _ => false
  end.

Definition is_header_row (cells : list str) : bool :=
  list_str_eqb (map _norm cells) (map _norm EXPECTED_HEADER).

(** [build_tables_rows] from the tables found in the page, each given
    by the cell texts of its rows; [None] stands for a page without a
    contents node, for which the function raises. *)
Definition build_tables_rows (tables : option (list (list (list str))))
  : option (list (list (list str))) :=
  match tables with
  | None => None
  | Some ts => Some (map (filter (fun row => negb (is_header_row row))) ts)
  end.

(** ** Row to record *)

(** r"^\d+(?:\.\d+)?$" *)
Definition NUM_RE : regex :=
  Cat Bol (Cat (Rep1 is_digit) (Cat (Opt (Cat (Lit [46%N]) (Rep1 is_digit))) Eol)).

(** [gｇ] *)
Definition is_g (c : char) : bool := (char_eqb c 103 || char_eqb c 65351)%N.

Definition strip_units_and_note (val : str) : str * str * str :=
  let s := _norm val in
  let note : str := [] in
  let (s, note) :=
    if contains GOKEI s then (strip (replace GOKEI [] s), GOKEI)
    else (s, note) in
  let unit : str := [] in
  let (s, unit) :=
    if contains KOKUSAI s then (replace KOKUSAI [] s, KOKUSAI)
    else (s, unit) in
  let (s, unit) :=
    if re_search (Cls is_g) s
    then (re_sub (Cls is_g) (tmpl []) s,
          if negb (nonempty unit) then G_ASCII else unit)
    else (s, unit) in
  let s := _norm s in
  let unit :=
    if re_fullmatch NUM_RE s && negb (nonempty unit) then G_ASCII else unit in
  (s, unit, note).

Definition strip_units_and_note_value_only (val : str) : str :=
  let s := _norm val in
  let s := replace KOKUSAI [] (replace GOKEI [] s) in
  let s := re_sub (Cls is_g) (tmpl []) s in
  _norm s.

(** The dict built by [row_to_record]. *)
Record record : Type := {
  成分名 : str;
  最大配合量1 : str;
  最大配合量2 : str;
  最大配合量3 : str;
  最大配合量4 : str;
  単位 : str;
  備考 : str
}.

Definition has_meaningful_values (rec : record) : bool :=
  existsb (fun v => nonempty (strip v))
    [ 最大配合量1 rec; 最大配合量2 rec; 最大配合量3 rec; 最大配合量4 rec;
      単位 rec; 備考 rec ].

Definition empty_record : record :=
  {| 成分名 := []; 最大配合量1 := []; 最大配合量2 := []; 最大配合量3 := [];
     最大配合量4 := []; 単位 := []; 備考 := [] |}.

Definition row_to_record (row : list str) : record :=
  match row with
  | [] => empty_record
  | [c0] =>
      {| 成分名 := _norm c0; 最大配合量1 := []; 最大配合量2 := [];
         最大配合量3 := []; 最大配合量4 := []; 単位 := []; 備考 := [] |}
  | [c0; c1; c2; c3] =>
      let '(clean2, unit, note) := strip_units_and_note c1 in
      {| 成分名 := _norm c0; 最大配合量1 := []; 最大配合量2 := clean2;
         最大配合量3 := strip_units_and_note_value_only c2;
         最大配合量4 := strip_units_and_note_value_only c3;
         単位 := unit; 備考 := note |}
  | c0 :: c1 :: _ =>
      (* two cells, and every other length as a fallback *)
      let '(clean, unit, note) := strip_units_and_note c1 in
      {| 成分名 := _norm c0; 最大配合量1 := clean; 最大配合量2 := [];
         最大配合量3 := []; 最大配合量4 := []; 単位 := unit; 備考 := note |}
  end.

(** ** Sheet and main *)

Definition record_to_row_for_sheet (rec : record) (date_str url : str)
  : list cellval :=
  [ VInt 0; VStr date_str; VInt 0; VStr (成分名 rec); VStr [];
    VStr (最大配合量1 rec); VStr []; VStr (最大配合量2 rec);
    VStr (最大配合量3 rec); VStr (最大配合量4 rec); VStr (単位 rec);
    VStr (備考 rec); VStr []; VStr []; VStr url ].

Definition append_records_to_sheet (ws : worksheet) (today_str : str)
           (records : list record) (url : str) : worksheet :=
  match records with
  | [] => ws
  | _ :: _ => ws ++ map (fun r => record_to_row_for_sheet r today_str url) records
  end.

(** Step 2 of [main]: the records kept for writing. *)
Definition records_of (tables_rows : list (list (list str))) : list record :=
  flat_map
    (fun table =>
       flat_map
         (fun row =>
            let rec := row_to_record row in
            if nonempty (成分名 rec) && has_meaningful_values rec
            then [rec] else [])
         table)
    tables_rows.

(** How a run ends: the exception of [build_tables_rows], or a return. *)
Inductive outcome : Type :=
| Raised
| Returned (ws : worksheet).

Definition main (tables : option (list (list (list str)))) (url today_str : str)
           (ws : worksheet) : outcome :=
  match build_tables_rows tables with
  | None => Raised
  | Some tables_rows =>
      Returned (append_records_to_sheet ws today_str (records_of tables_rows) url)
  end.

End HtmlToTable.

(* ================================================================== *)
(** * Direct forms used in the proofs *)
(* ================================================================== *)

Module Scan.

Fixpoint take_while (p : char -> bool) (s : str) : str :=
  match s with
  | c :: t => if p c then c :: take_while p t else []
  | [] => []
  end.

Fixpoint drop_while (p : char -> bool) (s : str) : str :=
  match s with
  | c :: t => if p c then drop_while p t else s
  | [] => []
  end.

(** Every maximal run of characters of the class [p] replaced by [t];
    [inrun] tells that the previous character was of the class. *)
Fixpoint squeeze (p : char -> bool) (t : str) (inrun : bool) (s : str) : str :=
  match s with
  | [] => []
  | c :: s' =>
      if p c then (if inrun then squeeze p t true s' else t ++ squeeze p t true s')
      else c :: squeeze p t false s'
  end.

(** The words of a text: its maximal runs of characters outside [p].
    [cur] is the word being read. *)
Fixpoint words_go (p : char -> bool) (cur : str) (s : str) : list str :=
  match s with
  | [] => match cur with [] => [] | _ :: _ => [cur] end
  | c :: t =>
      if p c
      then match cur with [] => words_go p [] t | _ :: _ => cur :: words_go p [] t end
      else words_go p (cur ++ [c]) t
  end.

Definition words (s : str) : list str := words_go is_space [] s.

(** Trailing white space removed, read from the left. *)
Fixpoint rstrip_l (s : str) : str :=
  match s with
  | [] => []
  | c :: t =>
      match rstrip_l t with
      | [] => if is_space c then [] else [c]
      | r => c :: r
      end
  end.

(** The last character of a text, if any, is not white space. *)
Definition ends_clean (s : str) : Prop :=
  forall s' c, s = s' ++ [c] -> is_space c = false.

(** The first character of a text, if any, is not white space. *)
Definition starts_clean (s : str) : Prop :=
  forall c s', s = c :: s' -> is_space c = false.

(** Full-width space to space, character by character. *)
Definition unwiden (c : char) : char :=
  if char_eqb 12288%N c then 32%N else c.

(** No character of [x] occurs in [g]. *)
Definition disjoint (x g : str) : bool :=
  forallb (fun c => negb (existsb (char_eqb c) g)) x.

(** No character of [x] is white space. *)
Definition spaceless (x : str) : bool :=
  forallb (fun c => negb (is_space c)) x.

(** The value of the HTML parser once the aggregate-total marker has
    been taken out: the text in which the unit markers are looked for. *)
Definition without_gokei (val : str) : str :=
  if contains GOKEI (HtmlToTable._norm val)
  then strip (replace GOKEI [] (HtmlToTable._norm val))
  else HtmlToTable._norm val.

(** A token: non-empty and without white space. *)
Definition is_token (t : str) : Prop := t <> [] /\ spaceless t = true.

(** An increasing list of indices, none below [lo]. *)
Fixpoint asc_from (lo : nat) (hs : list nat) : Prop :=
  match hs with
  | [] => True
  | h :: t => lo <= h /\ asc_from (S h) t
  end.

(** A token or the empty padding. *)
Definition token_or_empty (t : str) : Prop := t = [] \/ is_token t.

(** The loop of the token move, lowest hit outermost. *)
Definition move_fold (hs : list nat) (st : list str * list str)
  : list str * list str :=
  fold_right (fun h s => Main.move_step s h) st hs.

(** ** Forms used for the cell normaliser *)

(** A match point moved [k] characters to the right. *)
Definition shift (k : nat) (e : mstate) : mstate :=
  MState (k + m_pos e) (m_grp e) (m_rest e).

(** The pattern has no [^]. *)
Fixpoint bol_free (r : regex) : bool :=
  match r with
  | Bol => false
  | Cat r1 r2 | Alt r1 r2 => bol_free r1 && bol_free r2
  | Opt r' | Ahead r' | Grp r' => bol_free r'
  | _ => true
  end.

(** The test [f] fails at every position of the text. *)
Fixpoint nowhere (f : str -> bool) (s : str) : bool :=
  negb (f s) && match s with [] => true | _ :: t => nowhere f t end.

(** The text starts with the aggregate-total marker and white space. *)
Definition starts_gokei_sp (s : str) : bool :=
  match drop_prefix GOKEI s with
  | Some (w :: _) => is_space w
  | _ => false
  end.

(** The text starts with a white-space character right before the
    international-unit marker. *)
Definition sp_then_kokusai (s : str) : bool :=
  match s with
  | w :: t => is_space w && is_prefix KOKUSAI t
  | [] => false
  end.

(** The text starts with a run of white space that reaches the
    international-unit marker. *)
Definition sp_run_kokusai (s : str) : bool :=
  match s with
  | w :: _ => is_space w && is_prefix KOKUSAI (drop_while is_space s)
  | [] => false
  end.

(** No space, tab or full-width space stands between a full-width "（"
    and the first "）" after it.  [open] tells that a "（" has been seen
    since the last "）", [pend] that a space has been seen since. *)
Fixpoint paren_clean (open pend : bool) (s : str) : bool :=
  match s with
  | [] => true
  | c :: t =>
      if char_eqb c 65289%N then negb pend && paren_clean false false t
      else if char_eqb c 65288%N then paren_clean true pend t
      else if Main.is_sp_tab_wide c then paren_clean open (pend || open) t
      else paren_clean open pend t
  end.

(** What may follow a deleted white-space character in the output:
    nothing, a space, or the first character of the international-unit
    marker. *)
Definition ok_next (y : str) : bool :=
  match y with
  | [] => true
  | h :: _ => char_eqb h 32%N || char_eqb h 22269%N
  end.

Definition ok_any (y : str) : bool := true.

(** [edit ok y y']: the text [y'] comes from [y] by deleting
    white-space characters (each followed in [y'] by a text accepted
    by [ok]), by writing a comma for a white-space character, and by
    writing a space for a space or a tab. *)
Inductive edit (ok : str -> bool) : str -> str -> Prop :=
| edit_nil : edit ok [] []
| edit_keep (c : char) (y y' : str) :
    edit ok y y' -> edit ok (c :: y) (c :: y')
| edit_del (w : char) (y y' : str) :
    is_space w = true -> ok y' = true -> edit ok y y' -> edit ok (w :: y) y'
| edit_comma (w : char) (y y' : str) :
    is_space w = true -> edit ok y y' -> edit ok (w :: y) (44%N :: y')
| edit_space (w : char) (y y' : str) :
    Main.is_sp_tab w = true -> edit ok y y' -> edit ok (w :: y) (32%N :: y').

(** No tab and no two spaces in a row; [prev] tells that the previous
    character was a space. *)
Fixpoint squeezed (prev : bool) (s : str) : bool :=
  match s with
  | [] => true
  | c :: t =>
      if Main.is_sp_tab c
      then char_eqb c 32%N && negb prev && squeezed true t
      else squeezed false t
  end.

(** The text starts with a white-space character right before the
    fragment "2－エチル". *)
Definition sp_ethyl (s : str) : bool :=
  match s with
  | w :: t => is_space w && is_prefix Main.ETHYL t
  | [] => false
  end.

(** A character that is neither a comma, nor a space, nor the first
    character of the international-unit marker: it can only have been
    kept by an edit. *)
Definition plain (x : char) : bool :=
  negb (char_eqb x 44%N) && negb (char_eqb x 32%N) && negb (char_eqb x 22269%N).

(** Not the first character of the aggregate-total marker. *)
Definition not_gokei_head (x : char) : bool := negb (char_eqb x 21512%N).

(** The replacement of the fix-up before "2－エチル". *)
Definition repl_ethyl : option str -> str -> str :=
  fun g _ => group1 g ++ Main.COMMA_ETHYL.

(** A character that the cell normaliser can neither delete nor write:
    not white space and not a comma. *)
Definition visible (c : char) : bool := negb (is_space c) && negb (char_eqb c 44%N).

(** Every white-space character is a space, and no two stand in a
    row; [prev] tells that the previous character was a space. *)
Fixpoint single_spaced (prev : bool) (s : str) : bool :=
  match s with
  | [] => true
  | c :: t =>
      if is_space c
      then char_eqb c 32%N && negb prev && single_spaced true t
      else single_spaced false t
  end.

(** A text that is not empty and neither starts nor ends with white
    space, nor holds a full-width space. *)
Definition trimmed (t : str) : Prop :=
  t <> [] /\ starts_clean t /\ ends_clean t /\ ~ In 12288%N t.

End Scan.

Import Scan.

(* ================================================================== *)
(** * The properties, in the words of the specification *)
(* ================================================================== *)

Module Spec.

(** A record is retainable when its name is non-empty and at least one
    of the four amounts, the unit and the note is non-empty. *)
Definition retainable (name a1 a2 a3 a4 unit note : str) : bool :=
  nonempty name
  && (nonempty a1 || nonempty a2 || nonempty a3 || nonempty a4
      || nonempty unit || nonempty note).

Definition retainable_pdf (r : Main.record) : bool :=
  retainable (Main.seibunn r) (Main.ryou1 r) (Main.ryou2 r) (Main.ryou3 r)
             (Main.ryou4 r) (Main.tanni r) (Main.bikou r).

Definition retainable_html (r : HtmlToTable.record) : bool :=
  retainable (HtmlToTable.成分名 r) (HtmlToTable.最大配合量1 r)
             (HtmlToTable.最大配合量2 r) (HtmlToTable.最大配合量3 r)
             (HtmlToTable.最大配合量4 r) (HtmlToTable.単位 r)
             (HtmlToTable.備考 r).

(** One or more decimal digits. *)
Definition digits (d : str) : Prop := d <> [] /\ forallb is_digit d = true.

(** The shape of an amount token: one or more digits, an optional
    decimal fraction, then the weight marker or the international-unit
    marker.  [weight] is the text of the weight marker. *)
Definition amount_shape (weight : str) (tok : str) : Prop :=
  exists d frac m,
    tok = d ++ frac ++ m
    /\ digits d
    /\ (frac = [] \/ exists f, frac = 46%N :: f /\ digits f)
    /\ (m = weight \/ m = KOKUSAI).

(** The run fails exactly when it produces no record. *)
Definition fails_exactly_when_no_record
           (tables : option (list Main.camelot_table))
           (pdf_url today_str : str) (ws : worksheet) : Prop :=
  Main.main tables pdf_url today_str ws = Main.SysExit 1
  <-> Main.all_records (Main.extract_tables_lattice_only tables) pdf_url = [].

(** A table of two rows, a header row and a row of page numbers, both
    of which the row filter removes. *)
Definition noise_only_tables : option (list Main.camelot_table) :=
  Some [ {| Main.page := 1;
            Main.df := {| Main.ncols := 2;
                          Main.rows := [ [u "成分名"; u "最大配合量"];
                                         [u "1"; u "2"] ] |} |} ].

(** A two-column row with a condition token, two names and one amount:
    the second name has no amount token of its own. *)
Definition short_amount_row : list str :=
  [u "外用 Alpha Beta"; u "300国際単位"].

Definition short_amount_second_record : Main.record :=
  {| Main.seibunn := u "Beta"; Main.条件 := u "外用";
     Main.ryou1 := []; Main.ryou2 := []; Main.ryou3 := []; Main.ryou4 := [];
     Main.tanni := u "g"; Main.bikou := [];
     Main.url := u "https://example.test/a.pdf" |}.

(** A pure integer string: one or more decimal digits and nothing else. *)
Definition pure_integer (s : str) : bool := nonempty s && forallb is_digit s.

(** The text "nan" in any letter case. *)
Definition is_nan (s : str) : bool := str_eqb (map ascii_lower s) (u "nan").

(** The cells that count: trimmed, non-empty and not "nan". *)
Definition counted_cells (row : list str) : list str :=
  filter (fun c => nonempty c && negb (is_nan c)) (map strip row).

(** Condition (1): there is a cell that counts, and at least 0.8 of the
    cells that count are pure integer strings. *)
Definition digit_ratio_reached (row : list str) : bool :=
  let cells := counted_cells row in
  let ints := filter pure_integer cells in
  negb (Nat.eqb (length cells) 0) && (8 * length cells <=? 10 * length ints).

(** Condition (2): the text of column 0 with all white space removed is
    the header label. *)
Definition first_cell_is_label (row : list str) : bool :=
  match row with
  | [] => false
  | c0 :: _ => str_eqb (filter (fun c => negb (is_space c)) c0) (u "成分名")
  end.

(** Condition (3): the cells, each normalised, are the three entries of
    the header template. *)
Definition is_header_template (row : list str) : bool :=
  HtmlToTable.list_str_eqb (map HtmlToTable._norm row) HtmlToTable.EXPECTED_HEADER.

(** The one classifier of the claim: a row is dropped exactly when one
    of the three conditions holds. *)
Definition dropped_as_stated (row : list str) : bool :=
  digit_ratio_reached row || first_cell_is_label row || is_header_template row.

(** A pure decimal number: one or more digits with an optional
    fraction. *)
Definition decimal_number (s : str) : Prop :=
  exists d frac,
    s = d ++ frac
    /\ digits d
    /\ (frac = [] \/ exists f, frac = 46%N :: f /\ digits f).

(** The text of a value after the aggregate-total marker is removed
    and white space is normalised. *)
Definition value_without_total_marker (val : str) : str :=
  HtmlToTable._norm (replace GOKEI [] (HtmlToTable._norm val)).





(** The normaliser applied twice gives what it gives applied once. *)
Definition normalizer_idempotent_at (s : str) : Prop :=
  Main._strip_cell (Main._strip_cell s) = Main._strip_cell s.

End Spec.

(* ================================================================== *)
(** * Proofs *)
(* ================================================================== *)

Unset Implicit Arguments.

Section StringFacts.

Lemma nonempty_true_iff (s : str) : nonempty s = true <-> s <> [].
Proof. destruct s; simpl; split; congruence. Qed.

Lemma is_prefix_nil_r (p : str) : is_prefix p [] = true -> p = [].
Proof. destruct p; simpl; congruence. Qed.

Lemma contains_nil_r (sub : str) : contains sub [] = true -> sub = [].
Proof.
  simpl. rewrite orb_false_r. apply is_prefix_nil_r.
Qed.

Lemma contains_nonempty (sub s : str) :
  sub <> [] -> contains sub s = true -> nonempty s = true.
Proof.
  intros Hsub H. destruct s; simpl; auto.
  apply contains_nil_r in H. contradiction.
Qed.

End StringFacts.

Section RecordFilter.

Import Main.

Lemma split_tokens_nonempty (s t : str) :
  In t (_split_tokens s) -> nonempty t = true.
Proof.
  unfold _split_tokens. intros H. apply filter_In in H. tauto.
Qed.

Lemma tok_at_in (c : list str) (i : nat) :
  i < length c -> In (tok_at c i) c.
Proof. intros H. unfold tok_at. apply nth_In. exact H. Qed.

Lemma haigou_fuka_nonempty (s : str) :
  _contains_haigou_fuka s = true -> nonempty s = true.
Proof.
  unfold _contains_haigou_fuka. intros H.
  apply orb_true_iff in H. destruct H as [H | H];
    (eapply contains_nonempty; [ | exact H ]); discriminate.
Qed.

Lemma record_2col_retainable (name cond : str) (eq : bool) (raw url : str) :
  nonempty name = true ->
  Spec.retainable_pdf (record_2col name cond eq raw url) = true.
Proof.
  intros Hn. unfold Spec.retainable_pdf, Spec.retainable, record_2col.
  destruct (_strip_gokei_and_flag raw) as [r1n hg]. simpl.
  rewrite Hn. simpl.
  destruct (_contains_haigou_fuka (_strip_units_for_ryou r1n)) eqn:Hh.
  - apply haigou_fuka_nonempty in Hh. rewrite Hh. reflexivity.
  - destruct (contains KOKUSAI raw); simpl;
      destruct (nonempty (_strip_units_for_ryou r1n)); reflexivity.
Qed.

Lemma record_4col_retainable (name cond : str) (eq : bool) (v2 v3 v4 url : str) :
  nonempty name = true ->
  Spec.retainable_pdf (record_4col name cond eq v2 v3 v4 url) = true.
Proof.
  intros Hn. unfold Spec.retainable_pdf, Spec.retainable, record_4col.
  destruct (first_gokei [v2; v3; v4]) as [r1raw hg].
  cbv zeta. cbn [seibunn ryou1 ryou2 ryou3 ryou4 tanni bikou].
  rewrite Hn. cbn [andb].
  set (r1 := if nonempty r1raw then _ else _).
  destruct (_contains_haigou_fuka r1) eqn:Hh.
  - apply haigou_fuka_nonempty in Hh. rewrite Hh. reflexivity.
  - destruct (_has_kokusai_tanni _); cbn [nonempty KOKUSAI G_ASCII];
      rewrite ?orb_true_r; reflexivity.
Qed.

Lemma row_records_retainable (nc : nat) (url : str) (row : list str) :
  forallb Spec.retainable_pdf (row_records nc url row) = true.
Proof.
  unfold row_records.
  set (c1 := _split_tokens (iat row 0)).
  set (c2 := if 2 <=? nc then _ else _).
  set (c3 := if 3 <=? nc then _ else _).
  set (c4 := if 4 <=? nc then _ else _).
  set (pop := negb (Nat.eqb (length c1) (length c2)) && (0 <? length c1)).
  set (c1' := if pop then tl c1 else c1).
  assert (Hc1' : forall t, In t c1' -> nonempty t = true).
  { intros t Ht. apply (split_tokens_nonempty (iat row 0)). fold c1.
    subst c1'. destruct pop; auto.
    destruct c1; simpl in *; auto. }
  apply forallb_forall. intros r Hr.
  apply in_map_iff in Hr. destruct Hr as [i [Hi Hin]].
  apply in_seq in Hin.
  assert (Hname : nonempty (tok_at c1' i) = true).
  { apply Hc1'. apply tok_at_in. lia. }
  subst r. destruct (negb (4 <=? nc)).
  - apply record_2col_retainable. exact Hname.
  - apply record_4col_retainable. exact Hname.
Qed.

Lemma forallb_flat_map {A B : Type} (p : B -> bool) (f : A -> list B) (l : list A) :
  (forall a, In a l -> forallb p (f a) = true) ->
  forallb p (flat_map f l) = true.
Proof.
  induction l as [| a l IH]; simpl; intros H; auto.
  rewrite forallb_app. rewrite H by auto. simpl. apply IH. auto.
Qed.

Lemma df_to_records_retainable (df : DataFrame) (url : str) :
  forallb Spec.retainable_pdf (df_to_records df url) = true.
Proof.
  unfold df_to_records. destruct (empty df); auto.
  apply forallb_flat_map. intros row _. apply row_records_retainable.
Qed.

Lemma all_records_retainable (items : list item) (url : str) :
  forallb Spec.retainable_pdf (all_records items url) = true.
Proof.
  unfold all_records. apply forallb_flat_map. intros it _.
  apply df_to_records_retainable.
Qed.

End RecordFilter.

(** ** The matcher on character classes *)

Section EngineFacts.

Variable p : char -> bool.

Lemma greedy_head (pos : nat) (s : str) :
  exists rest,
    greedy p pos s = (pos + length (take_while p s), drop_while p s) :: rest.
Proof.
  revert pos. induction s as [| c t IH]; intros pos; simpl.
  - exists []. rewrite Nat.add_0_r. reflexivity.
  - destruct (p c).
    + destruct (IH (S pos)) as [rest Hr]. rewrite Hr. simpl.
      eexists. rewrite Nat.add_succ_r. reflexivity.
    + exists []. rewrite Nat.add_0_r. reflexivity.
Qed.

Lemma greedy_in (pos : nat) (x s : str) :
  forallb p x = true -> In (pos + length x, s) (greedy p pos (x ++ s)).
Proof.
  revert pos. induction x as [| c x IH]; intros pos Hx; simpl in *.
  - rewrite Nat.add_0_r. destruct s as [| d s']; simpl; auto.
    destruct (p d); [apply in_or_app; right |]; simpl; auto.
  - apply andb_true_iff in Hx. destruct Hx as [Hc Hx]. rewrite Hc.
    apply in_or_app. left. rewrite Nat.add_succ_r. apply (IH (S pos) Hx).
Qed.

Lemma match_at_Rep1 (pos : nat) (s : str) :
  match_at (Rep1 p) pos s =
  match s with
  | c :: t =>
      if p c
      then Some (MState (pos + length (take_while p s)) None (drop_while p s))
      else None
  | [] => None
  end.
Proof.
  unfold match_at. destruct s as [| c t]; simpl; auto.
  destruct (p c); auto.
  destruct (greedy_head (S pos) t) as [rest Hr]. rewrite Hr. simpl.
  rewrite Nat.add_succ_r. reflexivity.
Qed.

Lemma take_drop_while (s : str) : take_while p s ++ drop_while p s = s.
Proof.
  induction s as [| c t IH]; simpl; auto.
  destruct (p c); simpl; congruence.
Qed.

Lemma take_while_all (s : str) : forallb p (take_while p s) = true.
Proof.
  induction s as [| c t IH]; simpl; auto.
  destruct (p c) eqn:E; simpl; auto. rewrite E. auto.
Qed.

Lemma drop_while_head (s : str) :
  match drop_while p s with c :: _ => p c = false | [] => True end.
Proof.
  induction s as [| c t IH]; simpl; auto.
  destruct (p c) eqn:E; auto.
Qed.

End EngineFacts.

(** ** Skipping the rest of a match *)

Section ScanFacts.

Variable r : regex.
Variable repl : option str -> str -> str.

Lemma sub_go_skip (k : nat) (s : str) (pos : nat) :
  k <= length s ->
  sub_go r repl pos k s = sub_go r repl (pos + k) 0 (skipn k s).
Proof.
  revert s pos. induction k as [| k IH]; intros s pos Hk.
  - rewrite Nat.add_0_r. reflexivity.
  - destruct s as [| c t]; simpl in Hk; [lia |].
    simpl. rewrite IH by lia. f_equal. lia.
Qed.

Lemma sub_go_nomatch (pos : nat) (c : char) (t : str) :
  match_at r pos (c :: t) = None ->
  sub_go r repl pos 0 (c :: t) = c :: sub_go r repl (S pos) 0 t.
Proof. intros H. simpl. rewrite H. reflexivity. Qed.

Lemma sub_go_match (pos : nat) (s : str) (e : mstate) (k : nat) :
  match_at r pos s = Some e ->
  m_pos e - pos = S k ->
  S k <= length s ->
  sub_go r repl pos 0 s =
  repl (m_grp e) (firstn (S k) s) ++ sub_go r repl (pos + S k) 0 (skipn (S k) s).
Proof.
  intros Hm Hn Hlen. destruct s as [| c t]; simpl in Hlen; [lia |].
  cbn [sub_go]. rewrite Hm, Hn. f_equal.
  rewrite sub_go_skip by lia. f_equal. lia.
Qed.

Lemma split_go_skip (k : nat) (s : str) (pos : nat) (cur : str) :
  k <= length s ->
  split_go r pos k cur s = split_go r (pos + k) 0 cur (skipn k s).
Proof.
  revert s pos. induction k as [| k IH]; intros s pos Hk.
  - rewrite Nat.add_0_r. reflexivity.
  - destruct s as [| c t]; simpl in Hk; [lia |].
    simpl. rewrite IH by lia. f_equal. lia.
Qed.

End ScanFacts.

(** ** Substitution and splitting on the runs of a class *)

Section ClassRuns.

Variable p : char -> bool.

Lemma skipn_take_while (s : str) :
  skipn (length (take_while p s)) s = drop_while p s.
Proof.
  induction s as [| c t IH]; simpl; auto.
  destruct (p c); simpl; auto.
Qed.

Lemma take_while_length (s : str) : length (take_while p s) <= length s.
Proof.
  induction s as [| c t IH]; simpl; auto.
  destruct (p c); simpl; lia.
Qed.

Lemma squeeze_true_drop (t s : str) :
  squeeze p t true s = squeeze p t false (drop_while p s).
Proof.
  induction s as [| c s' IH]; simpl; auto.
  destruct (p c) eqn:E; auto. simpl. rewrite E. reflexivity.
Qed.

Lemma sub_go_Rep1 (t : str) (s : str) :
  forall pos, sub_go (Rep1 p) (tmpl t) pos 0 s = squeeze p t false s.
Proof.
  remember (length s) as n eqn:Hn. revert s Hn.
  induction n as [n IH] using lt_wf_ind. intros s Hn pos.
  destruct s as [| c s']; [reflexivity |].
  destruct (p c) eqn:E.
  - assert (Hm := match_at_Rep1 p pos (c :: s')).
    pose proof (take_while_length s') as Hl.
    cbn [take_while] in Hm. rewrite E in Hm. cbn [length] in Hm.
    rewrite (sub_go_match _ _ _ _ _ (length (take_while p s')) Hm)
      by (simpl; lia).
    unfold tmpl. simpl squeeze. rewrite E. f_equal.
    rewrite squeeze_true_drop.
    change (skipn (S (length (take_while p s'))) (c :: s'))
      with (skipn (length (take_while p s')) s').
    rewrite skipn_take_while.
    eapply IH; [| reflexivity]. subst n.
    pose proof (take_drop_while p s') as Hs.
    apply (f_equal (@length _)) in Hs. rewrite length_app in Hs. simpl. lia.
  - rewrite sub_go_nomatch by (rewrite match_at_Rep1, E; reflexivity).
    simpl. rewrite E. f_equal. eapply IH; [| reflexivity]. subst n. simpl. lia.
Qed.

Lemma re_sub_Rep1 (t s : str) : re_sub (Rep1 p) (tmpl t) s = squeeze p t false s.
Proof. apply sub_go_Rep1. Qed.

Lemma squeeze_nil_filter (b : bool) (s : str) :
  squeeze p [] b s = filter (fun c => negb (p c)) s.
Proof.
  revert b. induction s as [| c s' IH]; intros b; simpl; auto.
  destruct (p c); simpl; [destruct b |]; rewrite IH; reflexivity.
Qed.

Lemma words_go_drop (s : str) :
  words_go p [] (drop_while p s) = words_go p [] s.
Proof.
  induction s as [| c t IH]; simpl; auto.
  destruct (p c) eqn:E; auto. simpl. rewrite E. reflexivity.
Qed.

Lemma split_go_Rep1 (s : str) :
  forall pos cur,
    filter nonempty (split_go (Rep1 p) pos 0 cur s) = words_go p cur s.
Proof.
  remember (length s) as n eqn:Hn. revert s Hn.
  induction n as [n IH] using lt_wf_ind. intros s Hn pos cur.
  destruct s as [| c s'].
  - simpl. destruct cur; reflexivity.
  - cbn [split_go words_go]. rewrite match_at_Rep1.
    destruct (p c) eqn:E.
    + cbn [m_pos]. simpl take_while. rewrite E. simpl length.
      replace (pos + S (length (take_while p s')) - pos)
        with (S (length (take_while p s'))) by lia.
      rewrite split_go_skip by apply take_while_length.
      rewrite skipn_take_while.
      assert (Hrec : forall pos', filter nonempty
                (split_go (Rep1 p) pos' 0 [] (drop_while p s'))
                = words_go p [] s').
      { intros pos'. rewrite <- words_go_drop.
        eapply IH; [| reflexivity]. subst n.
        pose proof (take_drop_while p s') as Hs.
        apply (f_equal (@length _)) in Hs. rewrite length_app in Hs.
        simpl. lia. }
      destruct cur; simpl; rewrite Hrec; reflexivity.
    + eapply IH; [| reflexivity]. subst n. simpl. lia.
Qed.

End ClassRuns.

(** ** [strip] *)

Section StripFacts.

Lemma lstrip_drop_while (s : str) : lstrip s = drop_while is_space s.
Proof. induction s as [| c t IH]; simpl; auto. destruct (is_space c); auto. Qed.

Lemma rstrip_snoc (s : str) (c : char) :
  rstrip (s ++ [c]) = if is_space c then rstrip s else s ++ [c].
Proof.
  unfold rstrip. rewrite rev_app_distr. simpl.
  destruct (is_space c); auto.
  simpl. rewrite rev_involutive. reflexivity.
Qed.

Lemma rstrip_l_snoc (s : str) (c : char) :
  rstrip_l (s ++ [c]) = if is_space c then rstrip_l s else s ++ [c].
Proof.
  induction s as [| d s IH]; simpl.
  - destruct (is_space c); reflexivity.
  - rewrite IH. destruct (is_space c) eqn:E; auto.
    destruct (s ++ [c]) eqn:Es; auto.
    destruct s; discriminate.
Qed.

Lemma rstrip_rstrip_l (s : str) : rstrip s = rstrip_l s.
Proof.
  induction s as [| c s IH] using rev_ind; auto.
  rewrite rstrip_snoc, rstrip_l_snoc, IH. reflexivity.
Qed.

Lemma rstrip_l_split (s : str) :
  exists b, s = rstrip_l s ++ b /\ forallb is_space b = true.
Proof.
  induction s as [| c t IH]; simpl.
  - exists []. auto.
  - destruct IH as [b [Hb Hsp]].
    destruct (rstrip_l t) eqn:Er.
    + simpl in Hb. subst b. destruct (is_space c) eqn:E.
      * exists (c :: t). simpl. rewrite E. auto.
      * exists t. auto.
    + exists b. split; auto. rewrite Hb at 1. reflexivity.
Qed.

Lemma rstrip_fix (s : str) : ends_clean s -> rstrip s = s.
Proof.
  intros H. destruct s as [| c s] using rev_ind; auto.
  rewrite rstrip_snoc. rewrite (H s c eq_refl). reflexivity.
Qed.

Lemma rstrip_ends_clean (s : str) : ends_clean (rstrip s).
Proof.
  induction s as [| c s IH] using rev_ind.
  - intros s' c H. destruct s'; discriminate.
  - rewrite rstrip_snoc. destruct (is_space c) eqn:E; auto.
    intros s' d H. apply app_inj_tail in H. destruct H; subst. exact E.
Qed.

Lemma lstrip_fix (s : str) : starts_clean s -> lstrip s = s.
Proof.
  intros H. destruct s as [| c t]; auto. simpl.
  rewrite (H c t eq_refl). reflexivity.
Qed.

Lemma lstrip_starts_clean (s : str) : starts_clean (lstrip s).
Proof.
  induction s as [| c t IH]; simpl.
  - intros c s' H. discriminate.
  - destruct (is_space c) eqn:E; auto.
    intros d s' H. injection H as -> ->. exact E.
Qed.

Lemma rstrip_starts_clean (s : str) : starts_clean s -> starts_clean (rstrip s).
Proof.
  rewrite rstrip_rstrip_l. intros H c s' Hr.
  destruct s as [| d t]; simpl in Hr; [discriminate |].
  pose proof (H d t eq_refl) as Hd.
  destruct (rstrip_l t); [rewrite Hd in Hr |]; injection Hr as -> _; exact Hd.
Qed.

Lemma strip_starts_clean (s : str) : starts_clean (strip s).
Proof. apply rstrip_starts_clean, lstrip_starts_clean. Qed.

Lemma strip_ends_clean (s : str) : ends_clean (strip s).
Proof. apply rstrip_ends_clean. Qed.

Lemma strip_fix (s : str) : starts_clean s -> ends_clean s -> strip s = s.
Proof.
  intros Hs He. unfold strip. rewrite (lstrip_fix s Hs). apply rstrip_fix, He.
Qed.

Lemma strip_idempotent (s : str) : strip (strip s) = strip s.
Proof. apply strip_fix; [apply strip_starts_clean | apply strip_ends_clean]. Qed.

Lemma strip_split (s : str) :
  exists a b, s = a ++ strip s ++ b
              /\ forallb is_space a = true /\ forallb is_space b = true.
Proof.
  unfold strip. rewrite rstrip_rstrip_l.
  destruct (rstrip_l_split (lstrip s)) as [b [Hb Hsp]].
  exists (take_while is_space s), b. repeat split; auto.
  - rewrite <- Hb, lstrip_drop_while. symmetry. apply take_drop_while.
  - apply take_while_all.
Qed.

Lemma no_space_strip (s : str) :
  forallb (fun c => negb (is_space c)) s = true -> strip s = s.
Proof.
  intros H. apply strip_fix.
  - intros c s' ->. simpl in H. apply andb_true_iff in H.
    destruct H as [H _]. apply negb_true_iff in H. exact H.
  - intros s' c ->. rewrite forallb_app in H. simpl in H.
    apply andb_true_iff in H. destruct H as [_ H].
    rewrite andb_true_r in H. apply negb_true_iff in H. exact H.
Qed.

Lemma strip_nonempty (s : str) : nonempty (strip s) = true -> nonempty s = true.
Proof.
  intros Hn. destruct s; [compute in Hn; discriminate | reflexivity].
Qed.

End StripFacts.

Section RecordFilterHtml.

Import HtmlToTable.

Lemma has_meaningful_values_retainable (rec : record) :
  nonempty (成分名 rec) = true ->
  has_meaningful_values rec = true ->
  Spec.retainable_html rec = true.
Proof.
  intros Hn Hv. unfold Spec.retainable_html, Spec.retainable.
  rewrite Hn. simpl. unfold has_meaningful_values in Hv. simpl in Hv.
  rewrite orb_false_r in Hv.
  repeat (apply orb_true_iff in Hv; destruct Hv as [Hv | Hv]);
    apply strip_nonempty in Hv; rewrite Hv; rewrite ?orb_true_r; reflexivity.
Qed.

Lemma records_of_retainable (tables_rows : list (list (list str))) :
  forallb Spec.retainable_html (records_of tables_rows) = true.
Proof.
  unfold records_of. apply forallb_flat_map. intros table _.
  apply forallb_flat_map. intros row _.
  destruct (nonempty (成分名 (row_to_record row))) eqn:Hn; simpl; auto.
  destruct (has_meaningful_values (row_to_record row)) eqn:Hv; simpl; auto.
  rewrite has_meaningful_values_retainable; auto.
Qed.

End RecordFilterHtml.

(** C1.  Every record of the sequence handed to the sheet has a
    non-empty name and at least one non-empty field among the four
    amounts, the unit and the note: in the PDF variant every record
    synthesised is of that kind, in the HTML variant the filter of
    [main] keeps only those. *)
Theorem C1_emitted_records_are_retainable :
  forall (items : list Main.item) (pdf_url : str)
         (tables_rows : list (list (list str))),
    forallb Spec.retainable_pdf (Main.all_records items pdf_url) = true /\
    forallb Spec.retainable_html (HtmlToTable.records_of tables_rows) = true.
Proof.
  intros items pdf_url tables_rows. split.
  - apply all_records_retainable.
  - apply records_of_retainable.
Qed.

(** ** Matching a text of a known shape *)

Section MatchShape.

Lemma char_eqb_refl (c : char) : char_eqb c c = true.
Proof. apply N.eqb_refl. Qed.

Lemma char_eqb_eq (a b : char) : char_eqb a b = true <-> a = b.
Proof. apply N.eqb_eq. Qed.

Lemma str_eqb_eq (a b : str) : str_eqb a b = true <-> a = b.
Proof.
  revert b. induction a as [| x a IH]; intros [| y b]; simpl;
    try (split; congruence).
  rewrite andb_true_iff, char_eqb_eq, IH. split.
  - intros [-> ->]. reflexivity.
  - intros H. injection H as -> ->. auto.
Qed.

Lemma drop_prefix_app (l s : str) : drop_prefix l (l ++ s) = Some s.
Proof.
  induction l as [| c l IH]; simpl; auto. rewrite char_eqb_refl. exact IH.
Qed.

Lemma drop_prefix_some (l s rest : str) :
  drop_prefix l s = Some rest -> s = l ++ rest.
Proof.
  revert s. induction l as [| c l IH]; intros s H; simpl in *.
  - congruence.
  - destruct s as [| d s]; [discriminate |].
    destruct (char_eqb c d) eqn:E; [| discriminate].
    apply char_eqb_eq in E. subst d. f_equal. apply IH. exact H.
Qed.

Lemma exec_Lit_app (l : str) (pos : nat) (g : option str) (s : str) :
  exec (Lit l) (MState pos g (l ++ s)) = [MState (pos + length l) g s].
Proof. simpl. rewrite drop_prefix_app. reflexivity. Qed.

Lemma exec_Rep1_in (p : char -> bool) (pos : nat) (g : option str) (x s : str) :
  x <> [] -> forallb p x = true ->
  In (MState (pos + length x) g s) (exec (Rep1 p) (MState pos g (x ++ s))).
Proof.
  intros Hx Hp. destruct x as [| c x]; [congruence |].
  simpl in Hp. apply andb_true_iff in Hp. destruct Hp as [Hc Hp].
  simpl. rewrite Hc. apply in_map_iff.
  exists (S pos + length x, s). split.
  - simpl. f_equal. lia.
  - apply greedy_in. exact Hp.
Qed.


Lemma exec_Cat (r1 r2 : regex) (st : mstate) :
  exec (Cat r1 r2) st = flat_map (exec r2) (exec r1 st).
Proof. reflexivity. Qed.

Lemma exec_Alt (r1 r2 : regex) (st : mstate) :
  exec (Alt r1 r2) st = exec r1 st ++ exec r2 st.
Proof. reflexivity. Qed.

Lemma exec_Opt (r : regex) (st : mstate) : exec (Opt r) st = exec r st ++ [st].
Proof. reflexivity. Qed.


End MatchShape.

(** ** The token move on a three-token name column *)

Section TokenMove.

Import Main.


End TokenMove.




(** ** Column shapes *)

Section ColumnShapes.

Import Main.

Lemma row_records_three_as_two (url : str) (row : list str) :
  row_records 3 url row = row_records 2 url row.
Proof. reflexivity. Qed.

Lemma df_to_records_three_as_two (rs : list (list str)) (url : str) :
  df_to_records {| ncols := 3; rows := rs |} url
  = df_to_records {| ncols := 2; rows := rs |} url.
Proof.
  unfold df_to_records, empty, nrows. simpl.
  destruct (Nat.eqb (length rs) 0); reflexivity.
Qed.

Lemma forallb_insert_item (P : item -> bool) (x : item) (l : list item) :
  forallb P (insert_item x l) = P x && forallb P l.
Proof.
  induction l as [| y l IH]; simpl; auto.
  destruct (item_leb x y); simpl; auto.
  rewrite IH. destruct (P x), (P y); reflexivity.
Qed.

Lemma forallb_sort_items (P : item -> bool) (l : list item) :
  forallb P (sort_items l) = forallb P l.
Proof.
  induction l as [| x l IH]; simpl; auto.
  rewrite forallb_insert_item, IH. reflexivity.
Qed.

Lemma collect_items_two_columns (ts : list camelot_table) :
  forall order,
    forallb (fun it => 2 <=? ncols (it_df it)) (collect_items order ts) = true.
Proof.
  induction ts as [| t ts IH]; intros order; [reflexivity |].
  cbn [collect_items existsb EXCLUDE_PAGES].
  destruct (empty (clean_df (df t)) || (nrows (clean_df (df t)) <? 2)
            || (ncols (clean_df (df t)) <? 2)) eqn:E; [apply IH |].
  cbn [forallb it_df]. rewrite IH, andb_true_r.
  apply orb_false_iff in E. destruct E as [_ E].
  apply Nat.ltb_ge in E. apply Nat.leb_le. exact E.
Qed.

Lemma extract_two_columns (tables : option (list camelot_table)) :
  forallb (fun it => 2 <=? ncols (it_df it))
          (extract_tables_lattice_only tables) = true.
Proof.
  destruct tables as [ts |]; simpl; auto.
  rewrite forallb_sort_items. apply collect_items_two_columns.
Qed.

Lemma all_records_app (its1 its2 : list item) (url : str) :
  all_records (its1 ++ its2) url = all_records its1 url ++ all_records its2 url.
Proof. unfold all_records. apply flat_map_app. Qed.

End ColumnShapes.

(** C3 (as amended).  A table of three columns is synthesised under
    the two-column schema, from its first two columns, and a row of
    three cells or of more than four cells of the HTML variant is read
    as a row of two cells.  A table of one column never reaches the
    synthesiser of the PDF variant (every extracted item has at least
    two columns), and a row of one cell of the HTML variant gives no
    record.  The records of a run are the records of its tables, one
    table after the other. *)
Theorem C3_other_column_counts_fall_back_to_two_columns :
  forall (rs : list (list str)) (url : str)
         (tables : option (list Main.camelot_table))
         (its1 its2 : list Main.item)
         (c0 c1 c2 c3 c4 : str) (more : list str)
         (t1 t2 : list (list (list str))),
    Main.df_to_records {| Main.ncols := 3; Main.rows := rs |} url
    = Main.df_to_records {| Main.ncols := 2; Main.rows := rs |} url
    /\ forallb (fun it => 2 <=? Main.ncols (Main.it_df it))
               (Main.extract_tables_lattice_only tables) = true
    /\ Main.all_records (its1 ++ its2) url
       = Main.all_records its1 url ++ Main.all_records its2 url
    /\ HtmlToTable.row_to_record [c0; c1; c2] = HtmlToTable.row_to_record [c0; c1]
    /\ HtmlToTable.row_to_record (c0 :: c1 :: c2 :: c3 :: c4 :: more)
       = HtmlToTable.row_to_record [c0; c1]
    /\ HtmlToTable.records_of [[[c0]]] = []
    /\ HtmlToTable.records_of (t1 ++ t2)
       = HtmlToTable.records_of t1 ++ HtmlToTable.records_of t2.
Proof.
  intros.
  split; [apply df_to_records_three_as_two |].
  split; [apply extract_two_columns |].
  split; [apply all_records_app |].
  split; [reflexivity |].
  split; [reflexivity |].
  split.
  - unfold HtmlToTable.records_of. simpl.
    rewrite andb_false_r. reflexivity.
  - unfold HtmlToTable.records_of. apply flat_map_app.
Qed.

(** C3 as stated fails: a table of three columns does give records. *)
Lemma C3_counterexample :
  Main.df_to_records
    {| Main.ncols := 3; Main.rows := [[u "Alpha"; u "5ｇ"; u "x"]] |}
    (u "https://example.test/a.pdf")
  <> [].
Proof. vm_compute. discriminate. Qed.

(** ** The end of a run *)

(** C4 (as amended).  The run of the PDF variant ends in failure
    exactly when no table was extracted.  When tables were extracted
    and no record comes out of them, the run returns normally and the
    sheet is left as it was.  The HTML variant returns normally, sheet
    unchanged, whenever the page was read and no record is kept. *)
Theorem C4_failure_exactly_when_no_table_extracted :
  forall (tables : option (list Main.camelot_table)) (pdf_url today_str : str)
         (ws : worksheet) (html_tables : list (list (list str))) (url : str),
    (Main.main tables pdf_url today_str ws = Main.SysExit 1
     <-> Main.extract_tables_lattice_only tables = [])
    /\ (Main.extract_tables_lattice_only tables <> [] ->
        Main.all_records (Main.extract_tables_lattice_only tables) pdf_url = [] ->
        Main.main tables pdf_url today_str ws = Main.Returned ws)
    /\ (HtmlToTable.records_of
          (map (filter (fun row => negb (HtmlToTable.is_header_row row))) html_tables)
        = [] ->
        HtmlToTable.main (Some html_tables) url today_str ws
        = HtmlToTable.Returned ws).
Proof.
  intros tables pdf_url today_str ws html_tables url.
  unfold Main.main, HtmlToTable.main. simpl.
  destruct (Main.extract_tables_lattice_only tables) as [| it its] eqn:E.
  - repeat split; auto; try congruence.
    intros ->. reflexivity.
  - repeat split; try discriminate.
    + intros _ ->. reflexivity.
    + intros ->. reflexivity.
Qed.

Lemma C4_witness :
  Main.extract_tables_lattice_only Spec.noise_only_tables <> []
  /\ Main.all_records (Main.extract_tables_lattice_only Spec.noise_only_tables)
                      (u "https://example.test/a.pdf") = []
  /\ Main.main Spec.noise_only_tables (u "https://example.test/a.pdf")
               (u "2025/01/31") [] = Main.Returned []
  /\ HtmlToTable.main (Some []) (u "https://example.test/a.html")
                      (u "2025/01/31") [] = HtmlToTable.Returned [].
Proof.
  destruct (C4_failure_exactly_when_no_table_extracted
              Spec.noise_only_tables (u "https://example.test/a.pdf")
              (u "2025/01/31") [] [] (u "https://example.test/a.html"))
    as [_ [Hpdf Hhtml]].
  assert (H1 : Main.extract_tables_lattice_only Spec.noise_only_tables <> [])
    by (vm_compute; discriminate).
  assert (H2 : Main.all_records
                 (Main.extract_tables_lattice_only Spec.noise_only_tables)
                 (u "https://example.test/a.pdf") = [])
    by (vm_compute; reflexivity).
  split; [exact H1 |]. split; [exact H2 |].
  split; [exact (Hpdf H1 H2) | apply Hhtml; reflexivity].
Defined.

(** C4 as stated fails: a run whose only table holds a header row and
    a row of page numbers produces no record and still returns
    normally. *)
Lemma C4_counterexample :
  ~ Spec.fails_exactly_when_no_record
      Spec.noise_only_tables (u "https://example.test/a.pdf")
      (u "2025/01/31") [].
Proof.
  intros [_ H].
  assert (H2 : Main.all_records
                 (Main.extract_tables_lattice_only Spec.noise_only_tables)
                 (u "https://example.test/a.pdf") = [])
    by (vm_compute; reflexivity).
  specialize (H H2). vm_compute in H. discriminate H.
Qed.

(** ** The two-column example *)

(** C5 (as amended).  The row ["Alpha Beta", "5ｇ 合計量として10ｇ"] of
    a two-column table, with the weight marker in its full-width form,
    gives two records in order: "Alpha" with amount1 "5", unit "g" and
    no note, then "Beta" with amount1 "10", unit "g" and the
    aggregate-total note; no condition is taken from the name column. *)
Theorem C5_two_column_row_fans_out :
  forall pdf_url : str,
    Main.df_to_records
      {| Main.ncols := 2;
         Main.rows := [[u "Alpha Beta"; u "5ｇ 合計量として10ｇ"]] |}
      pdf_url
    = [ {| Main.seibunn := u "Alpha"; Main.条件 := [];
           Main.ryou1 := u "5"; Main.ryou2 := []; Main.ryou3 := [];
           Main.ryou4 := []; Main.tanni := u "g"; Main.bikou := [];
           Main.url := pdf_url |};
        {| Main.seibunn := u "Beta"; Main.条件 := [];
           Main.ryou1 := u "10"; Main.ryou2 := []; Main.ryou3 := [];
           Main.ryou4 := []; Main.tanni := u "g";
           Main.bikou := u "合計量として"; Main.url := pdf_url |} ].
Proof. intros pdf_url. vm_compute. reflexivity. Qed.

(** C5 as stated fails: with the ASCII letter "g" the marker is not
    stripped, and amount1 is "5g" and "10g". *)
Lemma C5_counterexample :
  Main.df_to_records
    {| Main.ncols := 2;
       Main.rows := [[u "Alpha Beta"; u "5g 合計量として10g"]] |}
    (u "https://example.test/a.pdf")
  <> [ {| Main.seibunn := u "Alpha"; Main.条件 := [];
          Main.ryou1 := u "5"; Main.ryou2 := []; Main.ryou3 := [];
          Main.ryou4 := []; Main.tanni := u "g"; Main.bikou := [];
          Main.url := u "https://example.test/a.pdf" |};
       {| Main.seibunn := u "Beta"; Main.条件 := [];
          Main.ryou1 := u "10"; Main.ryou2 := []; Main.ryou3 := [];
          Main.ryou4 := []; Main.tanni := u "g";
          Main.bikou := u "合計量として";
          Main.url := u "https://example.test/a.pdf" |} ].
Proof.
  intros H.
  apply (f_equal (fun l => map (fun r => length (Main.ryou1 r)) l)) in H.
  vm_compute in H. discriminate H.
Qed.

(** ** The unit of a two-column record *)

Section UnitTwoColumns.

Import Main.

Lemma record_2col_tanni (name cond : str) (eq : bool) (raw url : str) :
  let r := record_2col name cond eq raw url in
  tanni r = (if _contains_haigou_fuka (ryou1 r) then []
             else if contains KOKUSAI raw then KOKUSAI else G_ASCII).
Proof.
  unfold record_2col. destruct (_strip_gokei_and_flag raw) as [r1n hg].
  cbn [tanni ryou1 _has_kokusai_tanni existsb]. rewrite orb_false_r.
  reflexivity.
Qed.

Lemma record_2col_empty_raw (name cond : str) (eq : bool) (url : str) :
  tanni (record_2col name cond eq [] url) = G_ASCII.
Proof. reflexivity. Qed.

Lemma nth_error_map_seq {A : Type} (f : nat -> A) (n i : nat) (a : A) :
  nth_error (map f (seq 0 n)) i = Some a -> a = f i.
Proof.
  intros H. rewrite nth_error_map in H.
  destruct (nth_error (seq 0 n) i) as [j |] eqn:E; [| discriminate].
  simpl in H. injection H as <-.
  assert (Hi : i < n).
  { assert (Hl : i < length (seq 0 n)) by (apply nth_error_Some; congruence).
    rewrite length_seq in Hl. exact Hl. }
  rewrite (nth_error_nth' _ 0) in E by (rewrite length_seq; exact Hi).
  injection E as <-. rewrite seq_nth by exact Hi. reflexivity.
Qed.

End UnitTwoColumns.

(** C8.  In a table of fewer than four columns the unit of the record
    at index [i] of a row's fan-out is empty exactly when its stripped
    amount1 holds one of the two over-limit markers; otherwise it is
    the international-unit marker when the raw amount token at that
    index holds it, and "g" in every other case.  A record whose raw
    amount is empty, as when the index is beyond the amount tokens,
    gets "g". *)
Theorem C8_unit_of_two_column_record :
  forall (nc : nat) (url : str) (row : list str) (i : nat) (r : Main.record),
    nc < 4 ->
    nth_error (Main.row_records nc url row) i = Some r ->
    let raw :=
      Main.tok_at (if 2 <=? nc then Main._split_tokens (Main.iat row 1) else []) i in
    Main.tanni r
    = (if Main._contains_haigou_fuka (Main.ryou1 r) then []
       else if contains KOKUSAI raw then KOKUSAI else G_ASCII)
    /\ (Main._contains_haigou_fuka (Main.ryou1 r) = false -> Main.tanni r <> [])
    /\ (raw = [] -> Main.tanni r = G_ASCII).
Proof.
  intros nc url row i r Hnc Hr raw.
  unfold Main.row_records in Hr.
  assert (H4 : (4 <=? nc) = false) by (apply Nat.leb_gt; exact Hnc).
  rewrite H4 in Hr. cbn [negb] in Hr.
  apply nth_error_map_seq in Hr. fold raw in Hr.
  subst r.
  match goal with
  | |- context [Main.record_2col ?n ?c ?e raw url] =>
      pose proof (@record_2col_tanni n c e raw url) as Hu;
      pose proof (@record_2col_empty_raw n c e url) as He
  end.
  cbv zeta in Hu. split; [exact Hu |]. split.
  - intros Hno. rewrite Hu, Hno.
    destruct (contains KOKUSAI raw); discriminate.
  - intros Hraw. rewrite Hraw. exact He.
Qed.

Lemma C8_witness :
  2 < 4
  /\ nth_error (Main.row_records 2 (u "https://example.test/a.pdf")
                                 Spec.short_amount_row) 1
     = Some Spec.short_amount_second_record
  /\ Main.tanni Spec.short_amount_second_record = G_ASCII.
Proof.
  assert (H1 : 2 < 4) by lia.
  assert (H2 : nth_error (Main.row_records 2 (u "https://example.test/a.pdf")
                                           Spec.short_amount_row) 1
               = Some Spec.short_amount_second_record)
    by (vm_compute; reflexivity).
  split; [exact H1 |]. split; [exact H2 |].
  destruct (@C8_unit_of_two_column_record 2 (u "https://example.test/a.pdf")
              Spec.short_amount_row 1 Spec.short_amount_second_record H1 H2)
    as [_ [_ H]].
  apply H. vm_compute. reflexivity.
Defined.

(** ** The row classifiers *)

Section RowClassifier.

Lemma existsb_greedy_end (p : char -> bool) (pos : nat) (s : str) :
  existsb (fun e => negb (nonempty (snd e))) (greedy p pos s) = forallb p s.
Proof.
  revert pos. induction s as [| c t IH]; intros pos; simpl; auto.
  destruct (p c); simpl; auto.
  rewrite existsb_app, IH. simpl. rewrite !orb_false_r. reflexivity.
Qed.

Lemma existsb_map_compose {A B : Type} (f : A -> B) (q : B -> bool) (l : list A) :
  existsb q (map f l) = existsb (fun a => q (f a)) l.
Proof. induction l as [| a l IH]; simpl; auto. rewrite IH. reflexivity. Qed.

Lemma re_fullmatch_Rep1 (p : char -> bool) (s : str) :
  re_fullmatch (Rep1 p) s = nonempty s && forallb p s.
Proof.
  unfold re_fullmatch. destruct s as [| c t]; simpl; auto.
  destruct (p c); simpl; auto.
  rewrite existsb_map_compose. simpl. apply existsb_greedy_end.
Qed.

Lemma is_int_string_pure_integer (s : str) :
  Main._is_int_string s = Spec.pure_integer s.
Proof. apply re_fullmatch_Rep1. Qed.

Lemma replace_go_char (a b : char) (s : str) :
  replace_go [a] [b] 0 s = map (fun c => if char_eqb a c then b else c) s.
Proof.
  induction s as [| c t IH]; simpl; auto.
  rewrite andb_true_r. destruct (char_eqb a c); simpl; rewrite IH; reflexivity.
Qed.

Lemma replace_wide_space (s : str) :
  replace WIDE_SPACE SPACE s
  = map (fun c => if char_eqb 12288%N c then 32%N else c) s.
Proof. apply replace_go_char. Qed.

Lemma filter_space_replace_wide (s : str) :
  filter (fun c => negb (is_space c)) (replace WIDE_SPACE SPACE s)
  = filter (fun c => negb (is_space c)) s.
Proof.
  rewrite replace_wide_space.
  induction s as [| c t IH]; [reflexivity |].
  cbn [map filter].
  destruct (char_eqb 12288%N c) eqn:E.
  - apply char_eqb_eq in E. subst c.
    change (is_space 32%N) with true. change (is_space 12288%N) with true.
    cbn [negb]. exact IH.
  - rewrite IH. reflexivity.
Qed.

Lemma forallb_filter_id {A : Type} (p : A -> bool) (l : list A) :
  forallb p (filter p l) = true.
Proof.
  induction l as [| a l IH]; simpl; auto.
  destruct (p a) eqn:E; simpl; auto. rewrite E. exact IH.
Qed.

Lemma norm_no_space_filter (s : str) :
  Main._norm_no_space s = filter (fun c => negb (is_space c)) s.
Proof.
  unfold Main._norm_no_space.
  rewrite re_sub_Rep1, squeeze_nil_filter, filter_space_replace_wide.
  apply no_space_strip. apply forallb_filter_id.
Qed.

Lemma ratio_forms (len cnt : nat) :
  ((0 <? len) && Main.ratio_at_least_min cnt len)
  = (negb (Nat.eqb len 0) && (8 * len <=? 10 * cnt)).
Proof.
  unfold Main.ratio_at_least_min.
  destruct len as [| len]; [reflexivity |].
  cbn [Nat.ltb Nat.leb Nat.eqb negb andb].
  destruct (Nat.leb_spec (4 * S len) (5 * cnt));
    destruct (Nat.leb_spec (8 * S len) (10 * cnt)); auto; lia.
Qed.

Lemma filter_ext_eq {A : Type} (f g : A -> bool) (l : list A) :
  (forall a, f a = g a) -> filter f l = filter g l.
Proof. intros H. apply filter_ext. exact H. Qed.

Lemma is_digit_row_spec (row : list str) :
  Main.is_digit_row row = Spec.digit_ratio_reached row.
Proof.
  unfold Main.is_digit_row, Spec.digit_ratio_reached, Spec.counted_cells.
  cbv zeta.
  change (filter Main.is_nonempty_cell (map strip row))
    with (filter (fun c => nonempty c && negb (Spec.is_nan c)) (map strip row)).
  rewrite (filter_ext_eq Main._is_int_string Spec.pure_integer
             _ is_int_string_pure_integer).
  apply ratio_forms.
Qed.

Lemma is_seibunmei_spec (row : list str) :
  Main.is_seibunmei row = Spec.first_cell_is_label row.
Proof.
  unfold Main.is_seibunmei, Spec.first_cell_is_label.
  destruct row as [| c0 rest]; [reflexivity |].
  rewrite norm_no_space_filter. reflexivity.
Qed.

Lemma is_header_row_spec (row : list str) :
  HtmlToTable.is_header_row row = Spec.is_header_template row.
Proof. reflexivity. Qed.

End RowClassifier.

(** C7 (as amended).  There are two row classifiers.  The one of the
    PDF variant drops a row exactly when (1) the row has a trimmed cell
    that is non-empty and not "nan" (in any letter case) and at least
    0.8 of those cells are pure integer strings, or (2) the text of
    column 0 with all white space removed is the label 成分名; it does
    not look at the header template.  The one of the HTML variant drops
    a row exactly when (3) its cells, each normalised, are the three
    entries of the header template.  Both keep the other rows in order.
    The row ["12", "345", ""] is dropped by the first, the row
    ["12", "abc"] is kept. *)
Theorem C7_two_row_classifiers :
  forall (row : list str) (nc : nat) (rs : list (list str))
         (tables : list (list (list str))),
    negb (Main.keep_row row)
    = (Spec.digit_ratio_reached row || Spec.first_cell_is_label row)
    /\ HtmlToTable.is_header_row row = Spec.is_header_template row
    /\ Main.rows (Main.drop_unwanted_rows {| Main.ncols := S nc; Main.rows := rs |})
       = filter (fun r => negb (Spec.digit_ratio_reached r
                                || Spec.first_cell_is_label r)) rs
    /\ HtmlToTable.build_tables_rows (Some tables)
       = Some (map (filter (fun r => negb (Spec.is_header_template r))) tables)
    /\ Main.keep_row [u "12"; u "345"; u ""] = false
    /\ Main.keep_row [u "12"; u "abc"] = true.
Proof.
  intros row nc rs tables.
  assert (Hk : forall r, Main.keep_row r
                         = negb (Spec.digit_ratio_reached r
                                 || Spec.first_cell_is_label r)).
  { intros r. unfold Main.keep_row.
    rewrite is_digit_row_spec, is_seibunmei_spec. reflexivity. }
  split; [rewrite Hk; apply negb_involutive |].
  split; [apply is_header_row_spec |].
  split.
  { unfold Main.drop_unwanted_rows, Main.empty, Main.nrows.
    cbn [Main.rows Main.ncols Nat.eqb]. rewrite orb_false_r.
    destruct rs as [| r0 rs']; [reflexivity |].
    cbn [length Nat.eqb Main.rows]. apply filter_ext_eq. exact Hk. }
  split; [reflexivity |].
  split; vm_compute; reflexivity.
Qed.

(** C7 as stated fails for either classifier: the header template row
    meets condition (3) and is kept by the classifier of the PDF
    variant, and the row ["12", "345", ""] meets condition (1) and is
    kept by the classifier of the HTML variant. *)
Lemma C7_counterexample :
  negb (Main.keep_row HtmlToTable.EXPECTED_HEADER)
  <> Spec.dropped_as_stated HtmlToTable.EXPECTED_HEADER
  /\ HtmlToTable.is_header_row [u "12"; u "345"; u ""]
     <> Spec.dropped_as_stated [u "12"; u "345"; u ""].
Proof. split; vm_compute; discriminate. Qed.

(** ** Characters and occurrences kept by the string operations *)

Section KeptCharacters.

Lemma replace_go_skip (old new : str) (k : nat) (s : str) :
  k <= length s ->
  replace_go old new k s = replace_go old new 0 (skipn k s).
Proof.
  revert s. induction k as [| k IH]; intros s Hk; [reflexivity |].
  destruct s as [| c t]; simpl in Hk; [lia |].
  simpl. apply IH. lia.
Qed.

Lemma is_prefix_split (p s : str) :
  is_prefix p s = true -> s = p ++ skipn (length p) s.
Proof.
  revert s. induction p as [| x p IH]; intros s H; [reflexivity |].
  destruct s as [| y s]; simpl in H; [discriminate |].
  apply andb_true_iff in H. destruct H as [Hxy H].
  apply char_eqb_eq in Hxy. subst y. simpl. f_equal. apply IH. exact H.
Qed.

Lemma is_prefix_app (p s : str) : is_prefix p (p ++ s) = true.
Proof.
  induction p as [| x p IH]; simpl; auto. rewrite char_eqb_refl. exact IH.
Qed.

Lemma replace_go_prefix (old new : str) (c : char) (t : str) :
  is_prefix old (c :: t) = true ->
  replace_go old new 0 (c :: t)
  = new ++ replace_go old new 0 (skipn (length old - 1) t).
Proof.
  intros H. cbn [replace_go]. rewrite H. f_equal.
  apply replace_go_skip.
  apply is_prefix_split in H. apply (f_equal (@length _)) in H.
  rewrite length_app in H. simpl in H. lia.
Qed.

Lemma skipn_pred_tail (n : nat) (c : char) (t : str) :
  0 < n -> skipn (n - 1) t = skipn n (c :: t).
Proof. intros H. destruct n; [lia |]. simpl. rewrite Nat.sub_0_r. reflexivity. Qed.

Lemma in_strip (c : char) (s : str) :
  In c s -> is_space c = false -> In c (strip s).
Proof.
  intros Hin Hc. destruct (strip_split s) as [a [b [Hs [Ha Hb]]]].
  rewrite Hs in Hin.
  apply in_app_or in Hin. destruct Hin as [Hin | Hin].
  { rewrite forallb_forall in Ha. rewrite (Ha c Hin) in Hc. discriminate. }
  apply in_app_or in Hin. destruct Hin as [Hin | Hin]; auto.
  rewrite forallb_forall in Hb. rewrite (Hb c Hin) in Hc. discriminate.
Qed.

Lemma in_squeeze (p : char -> bool) (t : str) (c : char) (s : str) :
  forall b, In c s -> p c = false -> In c (squeeze p t b s).
Proof.
  induction s as [| d s IH]; intros b Hin Hc; simpl in *; auto.
  destruct Hin as [-> | Hin].
  - rewrite Hc. left. reflexivity.
  - destruct (p d); [destruct b |]; simpl; auto.
    apply in_or_app. right. auto.
Qed.

Lemma norm_direct (s : str) :
  HtmlToTable._norm s = strip (squeeze is_space SPACE false (map unwiden s)).
Proof.
  unfold HtmlToTable._norm. rewrite re_sub_Rep1, replace_wide_space.
  reflexivity.
Qed.

Lemma unwiden_space (c : char) : is_space (unwiden c) = is_space c.
Proof.
  unfold unwiden. destruct (char_eqb 12288%N c) eqn:E; auto.
  apply char_eqb_eq in E. subst c. reflexivity.
Qed.

Lemma unwiden_nonspace (c : char) : is_space c = false -> unwiden c = c.
Proof.
  unfold unwiden. destruct (char_eqb 12288%N c) eqn:E; auto.
  apply char_eqb_eq in E. subst c. discriminate.
Qed.

Lemma in_norm (c : char) (s : str) :
  In c s -> is_space c = false -> In c (HtmlToTable._norm s).
Proof.
  intros Hin Hc. rewrite norm_direct. apply in_strip; auto.
  apply in_squeeze; auto.
  rewrite <- (unwiden_nonspace c Hc). apply in_map. exact Hin.
Qed.

Lemma in_replace_delete (old : str) (c : char) (s : str) :
  old <> [] -> ~ In c old -> In c s -> In c (replace old [] s).
Proof.
  intros Hold Hc. unfold replace.
  remember (length s) as n eqn:Hn. revert s Hn.
  induction n as [n IH] using lt_wf_ind. intros s Hn Hin.
  destruct s as [| d t]; [contradiction |].
  destruct (is_prefix old (d :: t)) eqn:E.
  - rewrite (replace_go_prefix _ _ _ _ E). simpl app.
    assert (Hlen : 0 < length old) by (destruct old; simpl; [congruence | lia]).
    rewrite (skipn_pred_tail _ d t Hlen).
    pose proof (is_prefix_split _ _ E) as Hs.
    eapply IH; [| reflexivity |].
    + subst n. rewrite length_skipn. cbn [length]. lia.
    + rewrite Hs in Hin. apply in_app_or in Hin. tauto.
  - cbn [replace_go]. rewrite E.
    destruct Hin as [-> | Hin]; [left; reflexivity | right].
    eapply IH; [| reflexivity | exact Hin]. subst n. simpl. lia.
Qed.

Lemma contains_in (sub s : str) (c : char) :
  contains sub s = true -> In c sub -> In c s.
Proof.
  induction s as [| d t IH]; intros H Hc.
  - apply contains_nil_r in H. subst sub. contradiction.
  - cbn [contains] in H. apply orb_true_iff in H. destruct H as [H | H].
    + apply is_prefix_split in H. rewrite H. apply in_or_app. auto.
    + right. auto.
Qed.

Lemma replace_absent (old new s : str) :
  contains old s = false -> replace old new s = s.
Proof.
  unfold replace. induction s as [| c t IH]; intros H; [reflexivity |].
  cbn [contains] in H. apply orb_false_iff in H. destruct H as [Hp Ht].
  cbn [replace_go]. rewrite Hp. f_equal. auto.
Qed.

End KeptCharacters.

(** ** White-space normalisation after trimming *)

Section NormAfterStrip.

Lemma lstrip_map_unwiden (s : str) :
  lstrip (map unwiden s) = map unwiden (lstrip s).
Proof.
  induction s as [| c t IH]; [reflexivity |].
  cbn [map lstrip]. rewrite unwiden_space.
  destruct (is_space c); [exact IH | reflexivity].
Qed.

Lemma strip_map_unwiden (s : str) :
  strip (map unwiden s) = map unwiden (strip s).
Proof.
  unfold strip, rstrip.
  rewrite lstrip_map_unwiden, <- map_rev, lstrip_map_unwiden, map_rev.
  reflexivity.
Qed.

Lemma strip_commute (s : str) : rstrip (lstrip s) = lstrip (rstrip s).
Proof.
  rewrite !rstrip_rstrip_l.
  induction s as [| c t IH]; [reflexivity |].
  cbn [lstrip rstrip_l]. destruct (is_space c) eqn:E.
  - rewrite IH. destruct (rstrip_l t); [reflexivity |].
    cbn [lstrip]. rewrite E. reflexivity.
  - cbn [rstrip_l]. destruct (rstrip_l t); rewrite ?E; cbn [lstrip];
      rewrite E; reflexivity.
Qed.

Lemma squeeze_all (p : char -> bool) (t : str) (b : bool) (w : str) :
  forallb p w = true ->
  squeeze p t b w = if b then [] else match w with [] => [] | _ :: _ => t end.
Proof.
  revert b. induction w as [| c w IH]; intros b H.
  - destruct b; reflexivity.
  - simpl in H. apply andb_true_iff in H. destruct H as [Hc Hw].
    cbn [squeeze]. rewrite Hc, (IH true Hw).
    destruct b; [reflexivity | apply app_nil_r].
Qed.

Lemma lstrip_squeeze (b : bool) (z : str) :
  lstrip (squeeze is_space SPACE b z)
  = lstrip (squeeze is_space SPACE false (lstrip z)).
Proof.
  revert b. induction z as [| c t IH]; intros b; [reflexivity |].
  cbn [squeeze lstrip]. destruct (is_space c) eqn:E.
  - destruct b; [apply IH |].
    change (SPACE ++ squeeze is_space SPACE true t)
      with (32%N :: squeeze is_space SPACE true t).
    cbn [lstrip]. change (is_space 32%N) with true. cbn iota. apply IH.
  - cbn [squeeze]. rewrite E. reflexivity.
Qed.

Lemma rstrip_l_congr (pre x y : str) :
  rstrip_l x = rstrip_l y -> rstrip_l (pre ++ x) = rstrip_l (pre ++ y).
Proof.
  intros H. induction pre as [| c pre IH]; [exact H |].
  cbn [app rstrip_l]. rewrite IH. reflexivity.
Qed.

Lemma rstrip_squeeze_tail (b : bool) (m w : str) :
  forallb is_space w = true ->
  rstrip_l (squeeze is_space SPACE b (m ++ w))
  = rstrip_l (squeeze is_space SPACE b m).
Proof.
  intros Hw. revert b. induction m as [| c m IH]; intros b.
  - cbn [app]. rewrite (squeeze_all is_space SPACE b w Hw).
    destruct b; [reflexivity |]. destruct w; reflexivity.
  - cbn [app squeeze]. destruct (is_space c).
    + destruct b; [apply IH |]. apply rstrip_l_congr, IH.
    + apply (rstrip_l_congr [c]), IH.
Qed.

Lemma rstrip_squeeze (b : bool) (z : str) :
  rstrip (squeeze is_space SPACE b (rstrip z))
  = rstrip (squeeze is_space SPACE b z).
Proof.
  rewrite !rstrip_rstrip_l.
  destruct (rstrip_l_split z) as [w [Hz Hw]].
  rewrite Hz at 2. symmetry. apply rstrip_squeeze_tail. exact Hw.
Qed.

Lemma strip_squeeze_strip (z : str) :
  strip (squeeze is_space SPACE false (strip z))
  = strip (squeeze is_space SPACE false z).
Proof.
  unfold strip.
  rewrite (strip_commute (squeeze is_space SPACE false (rstrip (lstrip z)))).
  rewrite rstrip_squeeze, <- strip_commute.
  rewrite <- (lstrip_squeeze false z). reflexivity.
Qed.

Lemma norm_strip (y : str) :
  HtmlToTable._norm (strip y) = HtmlToTable._norm y.
Proof.
  rewrite !norm_direct, <- strip_map_unwiden. apply strip_squeeze_strip.
Qed.

End NormAfterStrip.

(** ** Occurrences of a marker kept by the string operations *)

Section KeptOccurrences.

Variable X : str.
Hypothesis X_spaceless : spaceless X = true.
Hypothesis X_nonempty : X <> [].

Lemma is_prefix_contains (s : str) : is_prefix X s = true -> contains X s = true.
Proof. intros H. destruct s; simpl in *; rewrite H; reflexivity. Qed.

Lemma contains_cons (c : char) (s : str) :
  contains X s = true -> contains X (c :: s) = true.
Proof. intros H. cbn [contains]. rewrite H. apply orb_true_r. Qed.

Lemma contains_app_r (pre s : str) :
  contains X s = true -> contains X (pre ++ s) = true.
Proof.
  intros H. induction pre as [| c pre IH]; [exact H |].
  apply contains_cons. exact IH.
Qed.

Lemma contains_nonempty_r : contains X [] = false.
Proof.
  destruct (contains X []) eqn:E; [| reflexivity].
  apply contains_nil_r in E. contradiction.
Qed.

Lemma head_not_space (c : char) (s : str) :
  is_prefix X (c :: s) = true -> is_space c = false.
Proof.
  destruct X as [| x X']; [contradiction |].
  cbn [is_prefix]. intros H. apply andb_true_iff in H. destruct H as [H _].
  apply char_eqb_eq in H. subst c.
  unfold spaceless in X_spaceless. simpl in X_spaceless.
  apply andb_true_iff in X_spaceless. destruct X_spaceless as [Hx _].
  apply negb_true_iff. exact Hx.
Qed.

Lemma is_prefix_spaceless_map (Y s : str) :
  spaceless Y = true -> is_prefix Y s = true ->
  is_prefix Y (map unwiden s) = true.
Proof.
  revert s. induction Y as [| y Y IH]; intros s HY H; [reflexivity |].
  destruct s as [| c s]; [discriminate |].
  cbn [is_prefix] in H. apply andb_true_iff in H. destruct H as [Hc H].
  unfold spaceless in HY. cbn [forallb] in HY.
  apply andb_true_iff in HY. destruct HY as [Hy HY].
  apply char_eqb_eq in Hc. subst c. cbn [map is_prefix].
  rewrite unwiden_nonspace by (apply negb_true_iff; exact Hy).
  rewrite char_eqb_refl. apply IH; assumption.
Qed.

Lemma contains_map_unwiden (s : str) :
  contains X s = true -> contains X (map unwiden s) = true.
Proof.
  induction s as [| c t IH]; intros H.
  - rewrite contains_nonempty_r in H. discriminate.
  - cbn [contains] in H. apply orb_true_iff in H. destruct H as [H | H].
    + apply is_prefix_contains, is_prefix_spaceless_map; assumption.
    + cbn [map]. apply contains_cons, IH, H.
Qed.

Lemma is_prefix_spaceless_squeeze (t Y s : str) (b : bool) :
  spaceless Y = true -> is_prefix Y s = true ->
  is_prefix Y (squeeze is_space t b s) = true.
Proof.
  revert s b. induction Y as [| y Y IH]; intros s b HY H; [reflexivity |].
  destruct s as [| c s]; [discriminate |].
  cbn [is_prefix] in H. apply andb_true_iff in H. destruct H as [Hc H].
  unfold spaceless in HY. cbn [forallb] in HY.
  apply andb_true_iff in HY. destruct HY as [Hy HY].
  apply char_eqb_eq in Hc. subst c. apply negb_true_iff in Hy.
  cbn [squeeze]. rewrite Hy. cbn [is_prefix].
  rewrite char_eqb_refl. apply IH; assumption.
Qed.

Lemma contains_squeeze (t s : str) (b : bool) :
  contains X s = true -> contains X (squeeze is_space t b s) = true.
Proof.
  revert b. induction s as [| c s IH]; intros b H.
  - rewrite contains_nonempty_r in H. discriminate.
  - cbn [contains] in H. apply orb_true_iff in H. destruct H as [H | H].
    + apply is_prefix_contains, is_prefix_spaceless_squeeze; assumption.
    + cbn [squeeze]. destruct (is_space c); [destruct b |].
      * apply IH, H.
      * apply contains_app_r, IH, H.
      * apply contains_cons, IH, H.
Qed.

Lemma contains_lstrip (s : str) :
  contains X s = true -> contains X (lstrip s) = true.
Proof.
  induction s as [| c t IH]; intros H; [exact H |].
  cbn [lstrip]. destruct (is_space c) eqn:E; [| exact H].
  cbn [contains] in H. apply orb_true_iff in H. destruct H as [H | H].
  - apply head_not_space in H. congruence.
  - apply IH, H.
Qed.

Lemma is_prefix_spaceless_rstrip (Y s : str) :
  spaceless Y = true -> is_prefix Y s = true ->
  is_prefix Y (rstrip_l s) = true.
Proof.
  revert s. induction Y as [| y Y IH]; intros s HY H; [reflexivity |].
  destruct s as [| c s]; [discriminate |].
  cbn [is_prefix] in H. apply andb_true_iff in H. destruct H as [Hc H].
  unfold spaceless in HY. cbn [forallb] in HY.
  apply andb_true_iff in HY. destruct HY as [Hy HY].
  apply char_eqb_eq in Hc. subst c. apply negb_true_iff in Hy.
  pose proof (IH s HY H) as Hr.
  cbn [rstrip_l]. destruct (rstrip_l s) eqn:Er.
  - rewrite Hy. cbn [is_prefix]. rewrite char_eqb_refl.
    destruct Y; [reflexivity | discriminate].
  - cbn [is_prefix]. rewrite char_eqb_refl. exact Hr.
Qed.

Lemma contains_rstrip (s : str) :
  contains X s = true -> contains X (rstrip s) = true.
Proof.
  rewrite rstrip_rstrip_l.
  induction s as [| c t IH]; intros H; [exact H |].
  cbn [contains] in H. apply orb_true_iff in H. destruct H as [H | H].
  - apply is_prefix_contains, is_prefix_spaceless_rstrip; assumption.
  - specialize (IH H). cbn [rstrip_l]. destruct (rstrip_l t) eqn:Er.
    + rewrite contains_nonempty_r in IH. discriminate.
    + apply contains_cons. exact IH.
Qed.

Lemma contains_strip (s : str) :
  contains X s = true -> contains X (strip s) = true.
Proof. intros H. apply contains_rstrip, contains_lstrip, H. Qed.

Lemma contains_norm (s : str) :
  contains X s = true -> contains X (HtmlToTable._norm s) = true.
Proof.
  intros H. rewrite norm_direct.
  apply contains_strip, contains_squeeze, contains_map_unwiden, H.
Qed.

(** Deleting the occurrences of a text [G] that shares no character
    with [X]. *)
Variable G : str.
Hypothesis G_nonempty : G <> [].
Hypothesis XG_disjoint : disjoint X G = true.

Lemma disjoint_head (Y : str) (y c : char) (s : str) :
  disjoint (y :: Y) G = true -> is_prefix G (y :: s) = false.
Proof.
  intros H. destruct G as [| g G']; [contradiction |].
  unfold disjoint in H. cbn [forallb existsb] in H.
  apply andb_true_iff in H. destruct H as [H _].
  apply negb_true_iff, orb_false_iff in H. destruct H as [H _].
  cbn [is_prefix]. unfold char_eqb in *. rewrite N.eqb_sym, H. reflexivity.
Qed.

Lemma is_prefix_disjoint_replace (Y s : str) :
  disjoint Y G = true -> is_prefix Y s = true ->
  is_prefix Y (replace G [] s) = true.
Proof.
  unfold replace. revert s. induction Y as [| y Y IH]; intros s HY H;
    [reflexivity |].
  destruct s as [| c s]; [discriminate |].
  cbn [is_prefix] in H. apply andb_true_iff in H. destruct H as [Hc H].
  apply char_eqb_eq in Hc. subst c.
  cbn [replace_go]. rewrite (disjoint_head Y y y s HY).
  cbn [is_prefix]. rewrite char_eqb_refl. apply IH; [| exact H].
  unfold disjoint in *. cbn [forallb] in HY.
  apply andb_true_iff in HY. tauto.
Qed.

Lemma contains_skip_foreign (g rest : str) :
  disjoint X g = true -> contains X (g ++ rest) = true ->
  contains X rest = true.
Proof.
  intros Hd. induction g as [| c g IH]; intros H; [exact H |].
  assert (Hd' : disjoint X g = true).
  { unfold disjoint in *. rewrite forallb_forall in *. intros x Hx.
    specialize (Hd x Hx). cbn [existsb] in Hd.
    apply negb_true_iff, orb_false_iff in Hd. apply negb_true_iff. tauto. }
  cbn [app contains] in H. apply orb_true_iff in H. destruct H as [H | H].
  - exfalso. destruct X as [| x X']; [contradiction |].
    cbn [is_prefix] in H. apply andb_true_iff in H. destruct H as [H _].
    unfold disjoint in Hd. cbn [forallb existsb] in Hd.
    apply andb_true_iff in Hd. destruct Hd as [Hd _].
    apply negb_true_iff, orb_false_iff in Hd. destruct Hd as [Hd _].
    congruence.
  - unfold disjoint in IH. apply (IH Hd' H).
Qed.

Lemma contains_replace_delete (s : str) :
  contains X s = true -> contains X (replace G [] s) = true.
Proof.
  remember (length s) as n eqn:Hn. revert s Hn.
  induction n as [n IH] using lt_wf_ind. intros s Hn H.
  destruct s as [| c t].
  { rewrite contains_nonempty_r in H. discriminate. }
  cbn [contains] in H. apply orb_true_iff in H. destruct H as [H | H].
  { apply is_prefix_contains, is_prefix_disjoint_replace; assumption. }
  unfold replace. destruct (is_prefix G (c :: t)) eqn:E.
  - rewrite (replace_go_prefix _ _ _ _ E). cbn [app].
    assert (Hlen : 0 < length G) by (destruct G; simpl; [congruence | lia]).
    rewrite (skipn_pred_tail _ c t Hlen).
    pose proof (is_prefix_split _ _ E) as Hs.
    apply (IH (length (skipn (length G) (c :: t)))); [| reflexivity |].
    + subst n. rewrite length_skipn. cbn [length]. lia.
    + apply (contains_skip_foreign (tl G)); [| ].
      * unfold disjoint in *. rewrite forallb_forall in *. intros x Hx.
        specialize (XG_disjoint x Hx). destruct G as [| g G']; [contradiction |].
        cbn [existsb tl] in *.
        apply negb_true_iff, orb_false_iff in XG_disjoint.
        apply negb_true_iff. tauto.
      * destruct G as [| g G']; [contradiction |].
        cbn [tl length skipn app] in *.
        injection Hs as _ Hs. rewrite <- Hs. exact H.
  - cbn [replace_go]. rewrite E. apply contains_cons.
    apply (IH (length t)); [subst n; simpl; lia | reflexivity | exact H].
Qed.

End KeptOccurrences.

(** ** The value parser of the HTML variant *)

Section HtmlValue.

Import HtmlToTable.

Lemma search_go_Cls (p : char -> bool) (s : str) :
  forall pos, search_go (Cls p) pos s = existsb p s.
Proof.
  induction s as [| c t IH]; intros pos; [reflexivity |].
  cbn [search_go existsb]. unfold match_at. cbn [exec m_rest].
  destruct (p c); [reflexivity | apply IH].
Qed.

Lemma re_search_Cls (p : char -> bool) (s : str) :
  re_search (Cls p) s = existsb p s.
Proof. apply search_go_Cls. Qed.

Lemma re_fullmatch_of_in (r : regex) (s : str) (e : mstate) :
  In e (exec r (MState 0 None s)) -> m_rest e = [] -> re_fullmatch r s = true.
Proof.
  intros Hin He. unfold re_fullmatch. apply existsb_exists.
  exists e. rewrite He. auto.
Qed.

Lemma decimal_number_fullmatch (s : str) :
  Spec.decimal_number s -> re_fullmatch NUM_RE s = true.
Proof.
  intros [d [frac [-> [[Hd Hdd] Hfrac]]]].
  set (e1 := MState (0 + length d) None frac).
  set (e2 := MState (length d + length frac) None []).
  apply (re_fullmatch_of_in _ _ e2); [| reflexivity].
  unfold NUM_RE.
  rewrite exec_Cat. change (exec Bol (MState 0 None (d ++ frac)))
    with [MState 0 None (d ++ frac)].
  cbn [flat_map]. rewrite app_nil_r, exec_Cat.
  apply in_flat_map. exists e1. split.
  { apply exec_Rep1_in; assumption. }
  rewrite exec_Cat. apply in_flat_map. exists e2. split.
  { rewrite exec_Opt. apply in_or_app.
    destruct Hfrac as [-> | [f [-> [Hf Hff]]]].
    - right. subst e1 e2. simpl. left. f_equal. lia.
    - left. subst e1.
      change (46%N :: f) with ([46%N] ++ f) at 1.
      rewrite exec_Cat, exec_Lit_app. cbn [flat_map]. rewrite app_nil_r.
      subst e2.
      match goal with
      | |- In (MState ?n _ _) (exec _ (MState ?k _ _)) =>
          replace n with (k + length f) by (simpl; lia);
          pose proof (exec_Rep1_in is_digit k None f [] Hf Hff) as Hin
      end.
      rewrite app_nil_r in Hin. exact Hin. }
  subst e2. simpl. left. reflexivity.
Qed.

Lemma decimal_number_chars (s : str) (c : char) :
  Spec.decimal_number s -> In c s -> is_digit c = true \/ c = 46%N.
Proof.
  intros [d [frac [-> [[_ Hdd] Hfrac]]]] Hin.
  rewrite forallb_forall in Hdd.
  apply in_app_or in Hin. destruct Hin as [Hin | Hin]; [left; auto |].
  destruct Hfrac as [-> | [f [-> [_ Hff]]]]; [contradiction |].
  rewrite forallb_forall in Hff.
  destruct Hin as [<- | Hin]; [right; reflexivity | left; auto].
Qed.

Lemma norm_without_gokei (val : str) :
  _norm (without_gokei val) = Spec.value_without_total_marker val.
Proof.
  unfold without_gokei, Spec.value_without_total_marker.
  destruct (contains GOKEI (_norm val)) eqn:E.
  - apply norm_strip.
  - rewrite (replace_absent GOKEI [] _ E). reflexivity.
Qed.

Lemma strip_units_and_note_unit (val : str) :
  snd (fst (strip_units_and_note val))
  = if contains KOKUSAI (without_gokei val) then KOKUSAI
    else if re_search (Cls is_g) (without_gokei val) then G_ASCII
    else if re_fullmatch NUM_RE (_norm (without_gokei val)) then G_ASCII
    else [].
Proof.
  unfold strip_units_and_note, without_gokei.
  destruct (contains GOKEI (_norm val)); cbv zeta;
    match goal with
    | |- context [contains KOKUSAI ?s] => destruct (contains KOKUSAI s)
    end;
    match goal with
    | |- context [re_search (Cls is_g) ?s] => destruct (re_search (Cls is_g) s)
    end; cbn [fst snd nonempty negb KOKUSAI andb];
    rewrite ?andb_false_r; try reflexivity;
    match goal with
    | |- context [re_fullmatch NUM_RE ?s] => destruct (re_fullmatch NUM_RE s)
    end; reflexivity.
Qed.

Lemma strip_units_and_note_clean (val : str) :
  contains KOKUSAI (without_gokei val) = false ->
  re_search (Cls is_g) (without_gokei val) = false ->
  fst (fst (strip_units_and_note val)) = _norm (without_gokei val).
Proof.
  unfold strip_units_and_note, without_gokei.
  destruct (contains GOKEI (_norm val)); cbv zeta; intros -> ->; reflexivity.
Qed.

End HtmlValue.

Section HtmlUnit.

Import HtmlToTable.

Lemma is_g_not_space (c : char) : is_g c = true -> is_space c = false.
Proof.
  unfold is_g. intros H. apply orb_true_iff in H.
  destruct H as [H | H]; apply char_eqb_eq in H; subst c; reflexivity.
Qed.

Lemma is_g_not_decimal (c : char) :
  is_g c = true -> ~ (is_digit c = true \/ c = 46%N).
Proof.
  unfold is_g. intros H. apply orb_true_iff in H.
  destruct H as [H | H]; apply char_eqb_eq in H; subst c;
    intros [Hd | Hd]; vm_compute in Hd; discriminate.
Qed.

Lemma decimal_without_markers (val : str) :
  Spec.decimal_number (Spec.value_without_total_marker val) ->
  contains KOKUSAI (without_gokei val) = false
  /\ re_search (Cls is_g) (without_gokei val) = false.
Proof.
  intros Hdec. rewrite <- norm_without_gokei in Hdec. split.
  - destruct (contains KOKUSAI (without_gokei val)) eqn:E; [| reflexivity].
    exfalso.
    assert (Hin : In 22269%N (without_gokei val)).
    { apply (contains_in KOKUSAI _ _ E). left. reflexivity. }
    apply in_norm in Hin; [| reflexivity].
    destruct (decimal_number_chars _ _ Hdec Hin) as [H | H];
      vm_compute in H; discriminate.
  - rewrite re_search_Cls.
    destruct (existsb is_g (without_gokei val)) eqn:E; [| reflexivity].
    exfalso. apply existsb_exists in E. destruct E as [c [Hin Hg]].
    apply in_norm in Hin; [| apply is_g_not_space; exact Hg].
    exact (is_g_not_decimal c Hg (decimal_number_chars _ _ Hdec Hin)).
Qed.

Lemma kokusai_reaches_search (val : str) :
  contains KOKUSAI val = true -> contains KOKUSAI (without_gokei val) = true.
Proof.
  intros H. unfold without_gokei.
  assert (Hn : contains KOKUSAI (_norm val) = true).
  { apply contains_norm; [reflexivity | discriminate | exact H]. }
  destruct (contains GOKEI (_norm val)); [| exact Hn].
  apply contains_strip; [reflexivity | discriminate |].
  apply contains_replace_delete;
    [reflexivity | discriminate | discriminate | reflexivity | exact Hn].
Qed.

Lemma g_reaches_search (val : str) :
  existsb is_g val = true -> existsb is_g (without_gokei val) = true.
Proof.
  intros H. apply existsb_exists in H. destruct H as [c [Hin Hg]].
  apply existsb_exists. exists c. split; [| exact Hg].
  pose proof (is_g_not_space c Hg) as Hs.
  assert (Hn : In c (_norm val)) by (apply in_norm; assumption).
  unfold without_gokei. destruct (contains GOKEI (_norm val)); [| exact Hn].
  apply in_strip; [| exact Hs].
  apply in_replace_delete; [discriminate | | exact Hn].
  unfold is_g in Hg. apply orb_true_iff in Hg.
  destruct Hg as [Hg | Hg]; apply char_eqb_eq in Hg; subst c;
    intros Hc; vm_compute in Hc; intuition discriminate.
Qed.

End HtmlUnit.

(** C10.  When the text of a value, after the aggregate-total marker
    is removed and white space is normalised, is a pure decimal number
    (so that no unit marker is in it), the parser returns that text as
    the cleaned value and "g" as the unit.  The unit returned is empty
    only when the cleaned value is not a pure decimal number and the
    value holds neither the international-unit marker nor a "g" or
    "ｇ". *)
Theorem C10_unit_of_html_value :
  forall val : str,
    (Spec.decimal_number (Spec.value_without_total_marker val) ->
     snd (fst (HtmlToTable.strip_units_and_note val)) = G_ASCII
     /\ fst (fst (HtmlToTable.strip_units_and_note val))
        = Spec.value_without_total_marker val)
    /\ (snd (fst (HtmlToTable.strip_units_and_note val)) = [] ->
        ~ Spec.decimal_number (fst (fst (HtmlToTable.strip_units_and_note val)))
        /\ contains KOKUSAI val = false
        /\ existsb HtmlToTable.is_g val = false).
Proof.
  intros val. rewrite strip_units_and_note_unit. split.
  - intros Hdec.
    destruct (decimal_without_markers val Hdec) as [Hk Hg].
    rewrite (strip_units_and_note_clean val Hk Hg), Hk, Hg.
    rewrite norm_without_gokei.
    rewrite (decimal_number_fullmatch _ Hdec). split; reflexivity.
  - destruct (contains KOKUSAI (without_gokei val)) eqn:Hk; [discriminate |].
    destruct (re_search (Cls HtmlToTable.is_g) (without_gokei val)) eqn:Hg;
      [discriminate |].
    destruct (re_fullmatch HtmlToTable.NUM_RE
                (HtmlToTable._norm (without_gokei val))) eqn:Hn;
      [discriminate |].
    intros _. rewrite (strip_units_and_note_clean val Hk Hg).
    split; [| split].
    + intros Hdec. apply decimal_number_fullmatch in Hdec. congruence.
    + destruct (contains KOKUSAI val) eqn:E; [| reflexivity].
      apply kokusai_reaches_search in E. congruence.
    + destruct (existsb HtmlToTable.is_g val) eqn:E; [| reflexivity].
      apply g_reaches_search in E. rewrite re_search_Cls in Hg. congruence.
Qed.

Lemma C10_witness :
  Spec.decimal_number (Spec.value_without_total_marker (u " 合計量として 12.5 "))
  /\ snd (fst (HtmlToTable.strip_units_and_note (u " 合計量として 12.5 "))) = G_ASCII
  /\ snd (fst (HtmlToTable.strip_units_and_note (u "配合不可"))) = []
  /\ contains KOKUSAI (u "配合不可") = false.
Proof.
  assert (Hd : Spec.decimal_number
                 (Spec.value_without_total_marker (u " 合計量として 12.5 "))).
  { exists (u "12"), (u ".5"). repeat split.
    - discriminate.
    - right. exists (u "5"). repeat split. discriminate. }
  assert (He : snd (fst (HtmlToTable.strip_units_and_note (u "配合不可"))) = [])
    by (vm_compute; reflexivity).
  split; [exact Hd |].
  split; [apply (C10_unit_of_html_value (u " 合計量として 12.5 ")); exact Hd |].
  split; [exact He |].
  apply (C10_unit_of_html_value (u "配合不可")). exact He.
Defined.

(** ** Tokens: splitting and joining *)

Section Tokens.

Import Main.

Lemma split_tokens_words (s : str) : _split_tokens s = words (strip s).
Proof. unfold _split_tokens, re_split, words. apply split_go_Rep1. Qed.

Lemma words_go_spaceless (tok : str) :
  spaceless tok = true ->
  forall cur rest,
    words_go is_space cur (tok ++ rest) = words_go is_space (cur ++ tok) rest.
Proof.
  induction tok as [| c tok IH]; intros H cur rest.
  - rewrite app_nil_r. reflexivity.
  - unfold spaceless in H. cbn [forallb] in H.
    apply andb_true_iff in H. destruct H as [Hc H].
    apply negb_true_iff in Hc.
    cbn [app words_go]. rewrite Hc. rewrite (IH H).
    rewrite <- app_assoc. reflexivity.
Qed.

Lemma words_join (toks : list str) :
  Forall is_token toks -> words (join SPACE toks) = toks.
Proof.
  unfold words. induction toks as [| t toks IH]; intros H; [reflexivity |].
  inversion H as [| ? ? [Hne Hsp] Hrest]; subst.
  destruct toks as [| t2 toks].
  - cbn [join]. rewrite <- (app_nil_r t) at 1.
    rewrite (words_go_spaceless t Hsp). cbn [app words_go].
    destruct t; [congruence | reflexivity].
  - change (join SPACE (t :: t2 :: toks))
      with (t ++ 32%N :: join SPACE (t2 :: toks)).
    rewrite (words_go_spaceless t Hsp). cbn [app words_go].
    change (is_space 32%N) with true. cbn iota.
    rewrite (IH Hrest). destruct t; [congruence | reflexivity].
Qed.

Lemma words_go_tokens (s : str) :
  forall cur, spaceless cur = true ->
              Forall is_token (words_go is_space cur s).
Proof.
  induction s as [| c s IH]; intros cur Hcur.
  - cbn [words_go]. destruct cur eqn:E; constructor; [| constructor].
    split; [discriminate | exact Hcur].
  - cbn [words_go]. destruct (is_space c) eqn:Ec.
    + destruct cur eqn:E; [apply IH; reflexivity |].
      constructor; [split; [discriminate | exact Hcur] | apply IH; reflexivity].
    + apply IH. unfold spaceless. rewrite forallb_app. cbn [forallb].
      rewrite Ec. unfold spaceless in Hcur. rewrite Hcur. reflexivity.
Qed.

Lemma split_tokens_are_tokens (s : str) : Forall is_token (_split_tokens s).
Proof. rewrite split_tokens_words. apply words_go_tokens. reflexivity. Qed.

Lemma join_tokens_starts_clean (toks : list str) :
  Forall is_token toks -> starts_clean (join SPACE toks).
Proof.
  intros H c s' Hj. destruct toks as [| t toks]; [discriminate |].
  inversion H as [| ? ? [Hne Hsp] _]; subst.
  destruct t as [| x t]; [congruence |].
  unfold spaceless in Hsp. cbn [forallb] in Hsp.
  apply andb_true_iff in Hsp. destruct Hsp as [Hx _].
  apply negb_true_iff in Hx.
  destruct toks; cbn [join app] in Hj; injection Hj as <- _; exact Hx.
Qed.

Lemma spaceless_last (t s' : str) (c : char) :
  spaceless t = true -> t = s' ++ [c] -> is_space c = false.
Proof.
  intros H ->. unfold spaceless in H. rewrite forallb_app in H.
  cbn [forallb] in H. apply andb_true_iff in H. destruct H as [_ H].
  rewrite andb_true_r in H. apply negb_true_iff. exact H.
Qed.

Lemma join_tokens_ends_clean (toks : list str) :
  Forall is_token toks -> ends_clean (join SPACE toks).
Proof.
  induction toks as [| t toks IH]; intros H s' c Hj.
  - destruct s'; discriminate.
  - inversion H as [| ? ? [Hne Hsp] Hrest]; subst.
    destruct toks as [| t2 toks].
    + cbn [join] in Hj. apply (spaceless_last t s' c Hsp Hj).
    + change (join SPACE (t :: t2 :: toks))
        with (t ++ [32%N] ++ join SPACE (t2 :: toks)) in Hj.
      rewrite app_assoc in Hj.
      assert (Hne2 : join SPACE (t2 :: toks) <> []).
      { inversion Hrest as [| ? ? [Hne2 _] _]; subst.
        destruct t2; [congruence |]. destruct toks; discriminate. }
      destruct (exists_last Hne2) as [body [z Hz]].
      rewrite Hz, app_assoc in Hj. apply app_inj_tail in Hj.
      destruct Hj as [_ <-]. apply (IH Hrest body z Hz).
Qed.

Lemma split_join_tokens (toks : list str) :
  Forall is_token toks -> _split_tokens (join SPACE toks) = toks.
Proof.
  intros H. rewrite split_tokens_words.
  rewrite strip_fix;
    [apply words_join, H | apply join_tokens_starts_clean, H
     | apply join_tokens_ends_clean, H].
Qed.

End Tokens.

(** ** The loop of the token move *)

Section MoveLoop.

Import Main.

Lemma fold_left_rev_fold_right {A B : Type} (f : A -> B -> A) (l : list B) (a : A) :
  fold_left f (rev l) a = fold_right (fun x acc => f acc x) a l.
Proof.
  induction l as [| x l IH]; [reflexivity |].
  cbn [rev fold_right]. rewrite fold_left_app, IH. reflexivity.
Qed.

Lemma move_tokens_fold (c1 c2 : list str) :
  move_tokens c1 c2 = move_fold (hits c1) (c1, c2).
Proof. apply fold_left_rev_fold_right. Qed.



Lemma amount_token_nonempty (t : str) :
  re_match _TOKEN_IS_AMOUNT t = true -> t <> [].
Proof. intros H ->. vm_compute in H. discriminate. Qed.


Lemma asc_from_weaken (hs : list nat) (lo lo' : nat) :
  lo' <= lo -> asc_from lo hs -> asc_from lo' hs.
Proof.
  destruct hs as [| h hs]; [auto |]. intros Hle [H1 H2]. split; [lia | exact H2].
Qed.



End MoveLoop.

Section MoveLoopPadded.

Import Main.







Lemma filter_nonempty_tokens (c : list str) :
  Forall is_token c -> filter nonempty c = c.
Proof.
  induction 1 as [| t c [Hne _] _ IH]; [reflexivity |].
  cbn [filter]. destruct t; [congruence |]. cbn [nonempty]. f_equal. exact IH.
Qed.

Lemma filter_nonempty_repeat (k : nat) : filter nonempty (repeat ([] : str) k) = [].
Proof. induction k; simpl; auto. Qed.

Variables c1 c2 : list str.
Variable i : nat.
Hypothesis c2_tokens : Forall is_token c2.
Hypothesis beyond : length c2 < i - 1.



End MoveLoopPadded.

Section MoveLoopTokens.

Import Main.

Lemma Forall_firstn {A : Type} (P : A -> Prop) (l : list A) (k : nat) :
  Forall P l -> Forall P (firstn k l).
Proof.
  intros H. rewrite Forall_forall in *. intros x Hx.
  apply H. rewrite <- (firstn_skipn k l). apply in_or_app. left. exact Hx.
Qed.

Lemma Forall_skipn {A : Type} (P : A -> Prop) (l : list A) (k : nat) :
  Forall P l -> Forall P (skipn k l).
Proof.
  intros H. rewrite Forall_forall in *. intros x Hx.
  apply H. rewrite <- (firstn_skipn k l). apply in_or_app. right. exact Hx.
Qed.

Lemma nth_token_or_empty (a : list str) (h : nat) :
  Forall is_token a -> token_or_empty (nth h a []).
Proof.
  intros H. destruct (Nat.lt_ge_cases h (length a)) as [Hlt | Hge].
  - right. rewrite Forall_forall in H. apply H. apply nth_In. exact Hlt.
  - left. apply nth_overflow. exact Hge.
Qed.

Lemma Forall_repeat_empty (k : nat) : Forall token_or_empty (repeat ([] : str) k).
Proof. induction k; simpl; constructor; auto. left. reflexivity. Qed.

Lemma move_step_tokens (a b : list str) (h : nat) :
  Forall is_token a -> Forall token_or_empty b ->
  Forall is_token (fst (move_step (a, b) h))
  /\ Forall token_or_empty (snd (move_step (a, b) h)).
Proof.
  intros Ha Hb. destruct h as [| p]; [split; assumption |].
  cbn [move_step fst snd]. split.
  - unfold pop_at. apply Forall_app. split;
      [apply Forall_firstn | apply Forall_skipn]; exact Ha.
  - assert (Hb' : Forall token_or_empty
                    (if length b <? p then b ++ repeat [] (p - length b) else b)).
    { destruct (length b <? p); [| exact Hb].
      apply Forall_app. split; [exact Hb | apply Forall_repeat_empty]. }
    unfold insert_at. apply Forall_app. split; [apply Forall_firstn, Hb' |].
    constructor; [apply nth_token_or_empty, Ha | apply Forall_skipn, Hb'].
Qed.

Lemma move_fold_tokens (hs : list nat) (c1 c2 : list str) :
  Forall is_token c1 -> Forall token_or_empty c2 ->
  Forall is_token (fst (move_fold hs (c1, c2)))
  /\ Forall token_or_empty (snd (move_fold hs (c1, c2))).
Proof.
  intros H1 H2. induction hs as [| h hs IH]; [split; assumption |].
  change (move_fold (h :: hs) (c1, c2))
    with (move_step (move_fold hs (c1, c2)) h).
  destruct (move_fold hs (c1, c2)) as [a b]. cbn [fst snd] in IH.
  apply move_step_tokens; tauto.
Qed.

Lemma tokens_or_empty_filter (b : list str) :
  Forall token_or_empty b -> Forall is_token (filter nonempty b).
Proof.
  induction 1 as [| t b Ht _ IH]; [constructor |].
  cbn [filter]. destruct t as [| x t]; [exact IH |].
  cbn [nonempty]. constructor; [| exact IH].
  destruct Ht as [Ht | Ht]; [discriminate | exact Ht].
Qed.

Lemma Forall_token_weaken (c : list str) :
  Forall is_token c -> Forall token_or_empty c.
Proof. intros H. eapply Forall_impl; [| exact H]. intros t Ht. right. exact Ht. Qed.


End MoveLoopTokens.




(** ** The cell normaliser *)

(** C6. The code is not idempotent.  On "a 2－エチル 2－エチル" one
    application writes the comma before the first fragment only: the
    space before the second fragment follows "ル", not a comma, and is
    left; a second application rewrites it.  The fix-up is written for
    every space before "2－エチル" that does not follow a comma, but its
    pattern takes the character before the space into the match, so a
    fragment that starts right where a match ends is passed over. *)
Theorem C6_second_fragment_is_missed :
  Main._strip_cell (u "a 2－エチル 2－エチル") = u "a,2－エチル 2－エチル"
  /\ Main._strip_cell (Main._strip_cell (u "a 2－エチル 2－エチル"))
     = u "a,2－エチル,2－エチル"
  /\ ~ Spec.normalizer_idempotent_at (u "a 2－エチル 2－エチル").
Proof.
  assert (H1 : Main._strip_cell (u "a 2－エチル 2－エチル") = u "a,2－エチル 2－エチル")
    by (vm_compute; reflexivity).
  assert (H2 : Main._strip_cell (u "a,2－エチル 2－エチル") = u "a,2－エチル,2－エチル")
    by (vm_compute; reflexivity).
  split; [exact H1 |]. split; [rewrite H1; exact H2 |].
  unfold Spec.normalizer_idempotent_at. rewrite H1, H2. intros H.
  apply (f_equal (fun t => nth 7 t 0%N)) in H. vm_compute in H. discriminate H.
Qed.

(** *** Patterns without [^] match alike at every position *)

Section PositionFree.

Lemma greedy_shift (p : char -> bool) (k : nat) (s : str) :
  forall pos,
    greedy p (k + pos) s
    = map (fun e => (k + fst e, snd e)) (greedy p pos s).
Proof.
  induction s as [| c t IH]; intros pos; [reflexivity |].
  cbn [greedy]. destruct (p c); [| reflexivity].
  rewrite map_app. cbn [map fst snd]. rewrite <- IH.
  rewrite Nat.add_succ_r. reflexivity.
Qed.

Lemma flat_map_map {A B C : Type} (f : A -> B) (g : B -> list C) (l : list A) :
  flat_map g (map f l) = flat_map (fun a => g (f a)) l.
Proof. induction l as [| a l IH]; simpl; [| rewrite IH]; reflexivity. Qed.

Lemma map_flat_map {A B C : Type} (f : B -> C) (g : A -> list B) (l : list A) :
  map f (flat_map g l) = flat_map (fun a => map f (g a)) l.
Proof.
  induction l as [| a l IH]; simpl; [reflexivity |].
  rewrite map_app, IH. reflexivity.
Qed.

Lemma exec_shift (r : regex) :
  bol_free r = true ->
  forall k st, exec r (shift k st) = map (shift k) (exec r st).
Proof.
  induction r as [l | p | r1 IH1 r2 IH2 | r1 IH1 r2 IH2 | r IH | p | p
                  | | | r IH | r IH];
    intros Hb k st; cbn [bol_free] in Hb; try discriminate.
  - cbn [exec shift m_rest m_pos m_grp].
    destruct (drop_prefix l (m_rest st)); [| reflexivity].
    cbn [map]. unfold shift. cbn [m_pos m_grp m_rest]. f_equal. f_equal. lia.
  - cbn [exec shift m_rest m_pos m_grp].
    destruct (m_rest st) as [| c t]; [reflexivity |].
    destruct (p c); [| reflexivity].
    cbn [map]. unfold shift. cbn [m_pos m_grp m_rest]. f_equal. f_equal. lia.
  - apply andb_true_iff in Hb. destruct Hb as [Hb1 Hb2].
    cbn [exec]. rewrite (IH1 Hb1), flat_map_map, map_flat_map.
    apply flat_map_ext. intros e. apply (IH2 Hb2).
  - apply andb_true_iff in Hb. destruct Hb as [Hb1 Hb2].
    cbn [exec]. rewrite (IH1 Hb1), (IH2 Hb2), map_app. reflexivity.
  - cbn [exec]. rewrite (IH Hb), map_app. reflexivity.
  - cbn [exec shift m_rest m_pos m_grp].
    destruct (m_rest st) as [| c t]; [reflexivity |].
    destruct (p c); [| reflexivity].
    rewrite <- Nat.add_succ_r, greedy_shift, !map_map. reflexivity.
  - cbn [exec shift m_rest m_pos m_grp].
    rewrite greedy_shift, !map_map. reflexivity.
  - cbn [exec shift m_rest].
    destruct (m_rest st) as [| c [| d t]]; try reflexivity.
    destruct (char_eqb c 10%N); reflexivity.
  - cbn [exec]. rewrite (IH Hb). destruct (exec r st); reflexivity.
  - cbn [exec]. rewrite (IH Hb), !map_map. apply map_ext. intros e.
    unfold shift. cbn [m_pos m_grp m_rest]. f_equal. f_equal. f_equal. lia.
Qed.

Lemma match_at_shift (r : regex) (pos : nat) (s : str) :
  bol_free r = true ->
  match_at r pos s = option_map (shift pos) (match_at r 0 s).
Proof.
  intros Hb. unfold match_at.
  replace (MState pos None s) with (shift pos (MState 0 None s))
    by (unfold shift; cbn [m_pos m_grp m_rest]; f_equal; lia).
  rewrite (exec_shift r Hb).
  destruct (exec r (MState 0 None s)); reflexivity.
Qed.

Lemma sub_go_position (r : regex) (repl : option str -> str -> str) :
  bol_free r = true ->
  forall s pos skip, sub_go r repl pos skip s = sub_go r repl 0 skip s.
Proof.
  intros Hb. induction s as [| c t IH]; intros pos skip.
  - cbn [sub_go]. destruct skip; [| reflexivity].
    rewrite (match_at_shift r pos [] Hb).
    destruct (match_at r 0 []); reflexivity.
  - cbn [sub_go]. destruct skip as [| k].
    + rewrite (match_at_shift r pos (c :: t) Hb).
      destruct (match_at r 0 (c :: t)) as [e |]; cbn [option_map].
      * unfold shift. cbn [m_pos m_grp].
        replace (pos + m_pos e - pos) with (m_pos e - 0) by lia.
        destruct (m_pos e - 0); rewrite (IH (S pos)), (IH 1); reflexivity.
      * rewrite (IH (S pos)), (IH 1). reflexivity.
    + rewrite (IH (S pos)), (IH 1). reflexivity.
Qed.

End PositionFree.

(** *** The steps, unfolded along the scan *)

Section StepEquations.

Import Main.

Lemma re_sub_skip (r : regex) (repl : option str -> str -> str) (c : char) (t : str) :
  bol_free r = true ->
  match_at r 0 (c :: t) = None ->
  re_sub r repl (c :: t) = c :: re_sub r repl t.
Proof.
  intros Hb H. unfold re_sub. rewrite (sub_go_nomatch r repl 0 c t H).
  rewrite (sub_go_position r repl Hb t 1 0). reflexivity.
Qed.

Lemma re_sub_match (r : regex) (repl : option str -> str -> str)
      (s : str) (e : mstate) (k : nat) :
  bol_free r = true ->
  match_at r 0 s = Some e ->
  m_pos e = S k ->
  S k <= length s ->
  re_sub r repl s
  = repl (m_grp e) (firstn (S k) s) ++ re_sub r repl (skipn (S k) s).
Proof.
  intros Hb Hm Hk Hlen. unfold re_sub.
  rewrite (sub_go_match r repl 0 s e k Hm); [| lia | exact Hlen].
  rewrite (sub_go_position r repl Hb _ (0 + S k) 0). reflexivity.
Qed.

(** The aggregate-total marker and the white space after it. *)

Lemma match_gokei (s : str) :
  match_at RE_GOKEI_SP 0 s
  = match drop_prefix GOKEI s with
    | Some (w :: r) =>
        if is_space w
        then Some (MState (6 + S (length (take_while is_space r)))
                          (Some (firstn 6 s)) (drop_while is_space r))
        else None
    | _ => None
    end.
Proof.
  unfold match_at, RE_GOKEI_SP. cbn [exec m_rest m_pos m_grp].
  destruct (drop_prefix GOKEI s) as [[| w r] |]; try reflexivity.
  cbn [map flat_map exec m_rest m_pos m_grp length GOKEI Nat.add Nat.sub].
  destruct (is_space w); [| reflexivity].
  destruct (greedy_head is_space 7 r) as [rest Hr]. rewrite Hr.
  cbn [map app hd_error fst snd]. reflexivity.
Qed.

Lemma gokei_prefix_length (s rest : str) :
  drop_prefix GOKEI s = Some rest ->
  firstn 6 s = GOKEI /\ skipn 6 s = rest /\ length s = 6 + length rest.
Proof.
  intros H. apply drop_prefix_some in H. subst s.
  split; [reflexivity |]. split; reflexivity.
Qed.

Lemma step_gokei_match (s : str) :
  starts_gokei_sp s = true ->
  step_gokei s = GOKEI ++ step_gokei (drop_while is_space (skipn 6 s)).
Proof.
  unfold starts_gokei_sp. intros H.
  destruct (drop_prefix GOKEI s) as [[| w r] |] eqn:E; try discriminate.
  destruct (gokei_prefix_length s (w :: r) E) as [H6 [Hskip Hlen]].
  pose proof (match_gokei s) as Hm. rewrite E, H in Hm.
  pose proof (take_while_length is_space r) as Hl.
  unfold step_gokei.
  assert (Hk : 6 + S (length (take_while is_space r))
               = S (6 + length (take_while is_space r))) by lia.
  assert (Hfit : S (6 + length (take_while is_space r)) <= length s)
    by (rewrite Hlen; cbn [length]; lia).
  rewrite (re_sub_match RE_GOKEI_SP _ s _ (6 + length (take_while is_space r))
             eq_refl Hm Hk Hfit).
  cbn [m_grp group1]. rewrite H6. f_equal. f_equal.
  rewrite Hskip. cbn [drop_while]. rewrite H.
  rewrite (drop_prefix_some GOKEI s (w :: r) E).
  cbn [GOKEI app skipn Nat.add]. apply skipn_take_while.
Qed.

Lemma step_gokei_skip (c : char) (t : str) :
  starts_gokei_sp (c :: t) = false ->
  step_gokei (c :: t) = c :: step_gokei t.
Proof.
  unfold starts_gokei_sp. intros H. apply re_sub_skip; [reflexivity |].
  rewrite match_gokei.
  destruct (drop_prefix GOKEI (c :: t)) as [[| w r] |]; try reflexivity.
  rewrite H. reflexivity.
Qed.

End StepEquations.

Section StepEquationsKokusai.

Import Main.

Lemma drop_prefix_is_prefix (l s : str) :
  is_prefix l s = match drop_prefix l s with Some _ => true | None => false end.
Proof.
  revert s. induction l as [| x l IH]; intros s; [reflexivity |].
  destruct s as [| y s]; [reflexivity |]. cbn [is_prefix drop_prefix].
  destruct (char_eqb x y); [apply IH | reflexivity].
Qed.

Lemma greedy_shape (p : char -> bool) (s : str) :
  forall pos,
  exists others,
    greedy p pos s
    = (pos + length (take_while p s), drop_while p s) :: others
    /\ Forall (fun e => exists c r, snd e = c :: r /\ p c = true) others.
Proof.
  induction s as [| c t IH]; intros pos.
  - exists []. split; [cbn; rewrite Nat.add_0_r; reflexivity | constructor].
  - cbn [greedy take_while drop_while]. destruct (p c) eqn:E.
    + destruct (IH (S pos)) as [others [Hg Ho]].
      exists (others ++ [(pos, c :: t)]). split.
      * rewrite Hg. cbn [app length]. f_equal. f_equal. lia.
      * apply Forall_app. split; [exact Ho |].
        constructor; [| constructor]. exists c, t. auto.
    + exists []. split; [cbn; rewrite Nat.add_0_r; reflexivity | constructor].
Qed.

Lemma exec_Rep1_eq (p : char -> bool) (pos : nat) (g : option str) (s : str) :
  exec (Rep1 p) (MState pos g s)
  = match s with
    | c :: t =>
        if p c
        then map (fun e => MState (fst e) g (snd e)) (greedy p (S pos) t)
        else []
    | [] => []
    end.
Proof. reflexivity. Qed.

Lemma ahead_kokusai_after_space (g : option str) (others : list (nat * str)) :
  Forall (fun e => exists c r, snd e = c :: r /\ is_space c = true) others ->
  flat_map (exec (Ahead (Lit KOKUSAI)))
           (map (fun e => MState (fst e) g (snd e)) others) = [].
Proof.
  induction 1 as [| e others [c [r [He Hc]]] _ IH]; [reflexivity |].
  cbn [map flat_map]. rewrite IH, app_nil_r.
  cbn [exec m_rest]. rewrite He. cbn [drop_prefix KOKUSAI].
  destruct (char_eqb 22269%N c) eqn:E; [| reflexivity].
  apply char_eqb_eq in E. subst c. discriminate.
Qed.

Lemma match_kokusai (s : str) :
  match_at RE_SP_KOKUSAI 0 s
  = if sp_run_kokusai s
    then Some (MState (length (take_while is_space s)) None
                      (drop_while is_space s))
    else None.
Proof.
  unfold match_at, RE_SP_KOKUSAI, sp_run_kokusai.
  rewrite exec_Cat, exec_Rep1_eq.
  destruct s as [| w t]; [reflexivity |].
  cbn [take_while drop_while]. destruct (is_space w); [| reflexivity].
  cbn [andb length].
  destruct (greedy_shape is_space t 1) as [others [Hg Ho]].
  rewrite Hg. cbn [map flat_map fst snd].
  rewrite (ahead_kokusai_after_space None others Ho), app_nil_r.
  cbn [exec m_rest]. rewrite drop_prefix_is_prefix.
  destruct (drop_prefix KOKUSAI (drop_while is_space t)); reflexivity.
Qed.

Lemma step_kokusai_match (s : str) :
  sp_run_kokusai s = true ->
  step_kokusai s = step_kokusai (drop_while is_space s).
Proof.
  intros H. pose proof (match_kokusai s) as Hm. rewrite H in Hm.
  destruct s as [| w t]; [discriminate |].
  unfold sp_run_kokusai in H. apply andb_true_iff in H. destruct H as [Hw _].
  pose proof (take_while_length is_space t) as Hl.
  unfold step_kokusai.
  assert (Hk : length (take_while is_space (w :: t))
               = S (length (take_while is_space t)))
    by (cbn [take_while]; rewrite Hw; reflexivity).
  assert (Hfit : S (length (take_while is_space t)) <= length (w :: t))
    by (cbn [length]; lia).
  rewrite (re_sub_match RE_SP_KOKUSAI _ (w :: t) _
             (length (take_while is_space t)) eq_refl Hm Hk Hfit).
  unfold tmpl. cbn [app]. f_equal.
  cbn [skipn drop_while]. rewrite Hw. apply skipn_take_while.
Qed.

Lemma step_kokusai_skip (c : char) (t : str) :
  sp_run_kokusai (c :: t) = false ->
  step_kokusai (c :: t) = c :: step_kokusai t.
Proof.
  intros H. apply re_sub_skip; [reflexivity |].
  rewrite match_kokusai, H. reflexivity.
Qed.

End StepEquationsKokusai.

Section StepEquationsParen.

Import Main.

Lemma firstn_take_while (p : char -> bool) (s : str) :
  firstn (length (take_while p s)) s = take_while p s.
Proof.
  induction s as [| c t IH]; [reflexivity |].
  cbn [take_while]. destruct (p c); [| reflexivity].
  cbn [length firstn]. f_equal. exact IH.
Qed.

Lemma rparen_after_other (g : nat -> option str) (others : list (nat * str)) :
  Forall (fun e => exists c r, snd e = c :: r /\ not_rparen c = true) others ->
  flat_map (exec (Lit RPAREN))
           (map (fun e => MState (fst e) (g (fst e)) (snd e)) others) = [].
Proof.
  induction 1 as [| e others [c [r [He Hc]]] _ IH]; [reflexivity |].
  cbn [map flat_map]. rewrite IH, app_nil_r.
  cbn [exec m_rest]. rewrite He. cbn [drop_prefix RPAREN].
  unfold not_rparen in Hc. apply negb_true_iff in Hc.
  unfold char_eqb in *. rewrite N.eqb_sym, Hc. reflexivity.
Qed.

Lemma exec_Grp_Rep0 (p : char -> bool) (pos : nat) (g : option str) (s : str) :
  exec (Grp (Rep0 p)) (MState pos g s)
  = map (fun e => MState (fst e) (Some (firstn (fst e - pos) s)) (snd e))
        (greedy p pos s).
Proof. cbn [exec m_pos m_rest m_grp]. rewrite map_map. reflexivity. Qed.

Lemma match_paren (s : str) :
  match_at RE_PAREN 0 s
  = match s with
    | c :: t =>
        if char_eqb 65288%N c
        then match drop_while not_rparen t with
             | _ :: r =>
                 Some (MState (S (S (length (take_while not_rparen t))))
                              (Some (take_while not_rparen t)) r)
             | [] => None
             end
        else None
    | [] => None
    end.
Proof.
  unfold match_at, RE_PAREN. rewrite exec_Cat.
  destruct s as [| c t]; [reflexivity |].
  change (exec (Lit LPAREN) (MState 0 None (c :: t)))
    with (match (if char_eqb 65288%N c then Some t else None) with
          | Some rest => [MState 1 None rest]
          | None => []
          end).
  destruct (char_eqb 65288%N c); [| reflexivity].
  cbn [flat_map]. rewrite app_nil_r, exec_Cat, exec_Grp_Rep0.
  destruct (greedy_shape not_rparen t 1) as [others [Hg Ho]].
  rewrite Hg. cbn [map flat_map fst snd].
  rewrite (rparen_after_other (fun n => Some (firstn (n - 1) t)) others Ho),
    app_nil_r.
  replace (1 + length (take_while not_rparen t) - 1)
    with (length (take_while not_rparen t)) by lia.
  rewrite firstn_take_while.
  pose proof (drop_while_head not_rparen t) as Hh.
  destruct (drop_while not_rparen t) as [| d r]; [reflexivity |].
  cbn [exec m_rest drop_prefix RPAREN].
  unfold not_rparen in Hh. apply negb_false_iff in Hh.
  unfold char_eqb in *. rewrite N.eqb_sym, Hh.
  cbn [hd_error m_pos m_grp length RPAREN]. f_equal. f_equal. lia.
Qed.

Lemma rm_spaces_inside_paren_filter (inner m : str) :
  _rm_spaces_inside_paren (Some inner) m
  = LPAREN ++ filter (fun c => negb (is_sp_tab_wide c)) inner ++ RPAREN.
Proof.
  unfold _rm_spaces_inside_paren, RE_SP_TAB_WIDE.
  rewrite re_sub_Rep1, squeeze_nil_filter. reflexivity.
Qed.

Lemma step_paren_match (t r : str) (d : char) :
  drop_while not_rparen t = d :: r ->
  step_paren (65288%N :: t)
  = 65288%N :: filter (fun c => negb (is_sp_tab_wide c)) (take_while not_rparen t)
      ++ 65289%N :: step_paren r.
Proof.
  intros Hd. pose proof (match_paren (65288%N :: t)) as Hm.
  change (char_eqb 65288%N 65288%N) with true in Hm. cbn iota in Hm.
  rewrite Hd in Hm.
  pose proof (take_drop_while not_rparen t) as Hsplit. rewrite Hd in Hsplit.
  assert (Hlen : length t = length (take_while not_rparen t) + S (length r)).
  { rewrite <- Hsplit at 1. rewrite length_app. reflexivity. }
  unfold step_paren.
  assert (Hfit : S (S (length (take_while not_rparen t)))
                 <= length (65288%N :: t)) by (cbn [length]; lia).
  rewrite (re_sub_match RE_PAREN _ (65288%N :: t) _
             (S (length (take_while not_rparen t))) eq_refl Hm eq_refl Hfit).
  cbn [m_grp]. rewrite rm_spaces_inside_paren_filter.
  change LPAREN with [65288%N]. change RPAREN with [65289%N].
  cbn [app]. f_equal. rewrite <- app_assoc. f_equal. cbn [app]. f_equal.
  f_equal.
  change (skipn (S (S (length (take_while not_rparen t)))) (65288%N :: t))
    with (skipn (1 + length (take_while not_rparen t)) t).
  rewrite <- skipn_skipn, skipn_take_while, Hd. reflexivity.
Qed.

Lemma step_paren_skip (c : char) (t : str) :
  char_eqb 65288%N c = false \/ drop_while not_rparen t = [] ->
  step_paren (c :: t) = c :: step_paren t.
Proof.
  intros H. apply re_sub_skip; [reflexivity |].
  rewrite match_paren. destruct (char_eqb 65288%N c); [| reflexivity].
  destruct H as [H | H]; [discriminate |]. rewrite H. reflexivity.
Qed.

End StepEquationsParen.

Section StepEquationsEthyl.

Import Main.

Lemma drop_prefix_skipn (l s rest : str) :
  drop_prefix l s = Some rest -> rest = skipn (length l) s.
Proof.
  intros H. apply drop_prefix_some in H. subst s.
  rewrite skipn_app, skipn_all, Nat.sub_diag. reflexivity.
Qed.

Lemma exec_space_ethyl (p : nat) (g : option str) (s : str) :
  exec (Cat (Cls is_space) (Lit ETHYL)) (MState p g s)
  = if sp_ethyl s then [MState (p + 6) g (skipn 6 s)] else [].
Proof.
  rewrite exec_Cat. unfold sp_ethyl.
  destruct s as [| w t]; [reflexivity |].
  cbn [exec m_rest m_pos m_grp]. destruct (is_space w); [| reflexivity].
  cbn [flat_map andb exec m_rest m_pos m_grp]. rewrite app_nil_r.
  rewrite drop_prefix_is_prefix.
  destruct (drop_prefix ETHYL t) as [rest |] eqn:E; [| reflexivity].
  rewrite (drop_prefix_skipn ETHYL t rest E).
  cbn [length ETHYL skipn]. f_equal. f_equal. lia.
Qed.

Lemma match_ethyl (pos : nat) (s : str) :
  match_at RE_ETHYL pos s
  = if Nat.eqb pos 0 && sp_ethyl s
    then Some (MState (pos + 6) (Some []) (skipn 6 s))
    else match s with
         | c :: t =>
             if not_comma c && sp_ethyl t
             then Some (MState (S pos + 6) (Some [c]) (skipn 6 t))
             else None
         | [] => None
         end.
Proof.
  unfold match_at, RE_ETHYL. rewrite exec_Cat.
  assert (Hg : exec (Grp (Alt Bol (Cls not_comma))) (MState pos None s)
               = (if Nat.eqb pos 0 then [MState pos (Some []) s] else [])
                 ++ match s with
                    | c :: t =>
                        if not_comma c then [MState (S pos) (Some [c]) t] else []
                    | [] => []
                    end).
  { cbn [exec m_pos m_rest m_grp]. rewrite map_app.
    destruct (Nat.eqb pos 0); destruct s as [| c t];
      cbn [map app m_pos m_rest]; rewrite ?Nat.sub_diag; try reflexivity;
      destruct (not_comma c); cbn [map m_pos m_rest];
      replace (S pos - pos) with 1 by lia; reflexivity. }
  rewrite Hg, flat_map_app.
  destruct (Nat.eqb pos 0); cbn [flat_map andb app].
  - rewrite app_nil_r, exec_space_ethyl.
    destruct (sp_ethyl s); [reflexivity |]. cbn [app].
    destruct s as [| c t]; [reflexivity |].
    destruct (not_comma c); [| reflexivity].
    cbn [flat_map andb]. rewrite app_nil_r, exec_space_ethyl.
    destruct (sp_ethyl t); reflexivity.
  - destruct s as [| c t]; [reflexivity |].
    destruct (not_comma c); [| reflexivity].
    cbn [flat_map andb]. rewrite app_nil_r, exec_space_ethyl.
    destruct (sp_ethyl t); reflexivity.
Qed.

Lemma sp_ethyl_shape (s : str) :
  sp_ethyl s = true ->
  exists w, is_space w = true /\ s = w :: ETHYL ++ skipn 6 s.
Proof.
  unfold sp_ethyl. destruct s as [| w t]; [discriminate |].
  intros H. apply andb_true_iff in H. destruct H as [Hw Hp].
  exists w. split; [exact Hw |]. f_equal.
  apply (is_prefix_split ETHYL t Hp).
Qed.

End StepEquationsEthyl.

(** *** Edits and what they keep *)

Section Edits.

Import Main.

Variable ok : str -> bool.

Lemma edit_refl (y : str) : edit ok y y.
Proof. induction y; constructor; assumption. Qed.

Lemma edit_keep_app (X y y' : str) :
  edit ok y y' -> edit ok (X ++ y) (X ++ y').
Proof. intros H. induction X; [exact H | constructor; assumption]. Qed.

Lemma edit_del_run (run y y' : str) :
  forallb is_space run = true -> ok y' = true ->
  edit ok y y' -> edit ok (run ++ y) y'.
Proof.
  intros Hr Hok H. induction run as [| w run IH]; [exact H |].
  cbn [forallb] in Hr. apply andb_true_iff in Hr. destruct Hr as [Hw Hr].
  cbn [app]. apply edit_del; auto.
Qed.

Lemma edit_weaken (y y' : str) : edit ok y y' -> edit ok_any y y'.
Proof.
  induction 1 as [| c y y' _ IH | w y y' Hw _ _ IH
                  | w y y' Hw _ IH | w y y' Hw _ IH].
  - apply edit_nil.
  - apply edit_keep, IH.
  - apply edit_del; [exact Hw | reflexivity | exact IH].
  - apply edit_comma; [exact Hw | exact IH].
  - apply edit_space; [exact Hw | exact IH].
Qed.

Lemma edit_Forall (P : char -> Prop) (y y' : str) :
  P 44%N -> P 32%N -> edit ok y y' -> Forall P y -> Forall P y'.
Proof.
  intros H44 H32. induction 1 as [| c y y' _ IH | w y y' _ _ _ IH
                                  | w y y' _ _ IH | w y y' _ _ IH];
    intros HF; inversion HF; subst; auto.
Qed.

(** Parentheses *)

Lemma paren_clean_mono (s : str) :
  forall o p o' p',
    (o' = true -> o = true) -> (p' = true -> p = true) ->
    paren_clean o p s = true -> paren_clean o' p' s = true.
Proof.
  induction s as [| c t IH]; intros o p o' p' Ho Hp H; [reflexivity |].
  cbn [paren_clean] in *.
  destruct (char_eqb c 65289%N).
  - apply andb_true_iff in H. destruct H as [H1 H2]. rewrite H2, andb_true_r.
    destruct p'; [| reflexivity]. rewrite (Hp eq_refl) in H1. discriminate.
  - destruct (char_eqb c 65288%N).
    + apply (IH true p true p'); auto.
    + destruct (is_sp_tab_wide c).
      * apply (IH o (p || o) o' (p' || o')); auto.
        intros Hor. apply orb_true_iff in Hor. apply orb_true_iff.
        destruct Hor; [left | right]; auto.
      * apply (IH o p o' p'); auto.
Qed.

Lemma space_not_paren (w : char) :
  is_space w = true ->
  char_eqb w 65289%N = false /\ char_eqb w 65288%N = false.
Proof.
  intros H. split.
  - destruct (char_eqb w 65289%N) eqn:E; [| reflexivity].
    apply char_eqb_eq in E. subst w. vm_compute in H. discriminate.
  - destruct (char_eqb w 65288%N) eqn:E; [| reflexivity].
    apply char_eqb_eq in E. subst w. vm_compute in H. discriminate.
Qed.

Lemma sp_tab_cases (w : char) : is_sp_tab w = true -> w = 32%N \/ w = 9%N.
Proof.
  unfold is_sp_tab. intros H. apply orb_true_iff in H.
  destruct H as [H | H]; apply char_eqb_eq in H; auto.
Qed.

Lemma sp_tab_is_space (w : char) : is_sp_tab w = true -> is_space w = true.
Proof. intros H. destruct (sp_tab_cases w H); subst; reflexivity. Qed.

Lemma paren_clean_drop_space (w : char) (y : str) (o p : bool) :
  is_space w = true ->
  paren_clean o p (w :: y) = true -> paren_clean o p y = true.
Proof.
  intros Hw H. destruct (space_not_paren w Hw) as [H1 H2].
  cbn [paren_clean] in H. rewrite H1, H2 in H.
  destruct (is_sp_tab_wide w); [| exact H].
  apply (paren_clean_mono y o (p || o) o p); auto.
  intros ->. reflexivity.
Qed.

Lemma paren_clean_edit (y y' : str) :
  edit ok y y' ->
  forall o p, paren_clean o p y = true -> paren_clean o p y' = true.
Proof.
  induction 1 as [| c y y' _ IH | w y y' Hw _ _ IH
                  | w y y' Hw _ IH | w y y' Hw _ IH]; intros o p H.
  - reflexivity.
  - cbn [paren_clean] in *. destruct (char_eqb c 65289%N).
    + apply andb_true_iff in H. destruct H as [H1 H2].
      rewrite H1. apply IH, H2.
    + destruct (char_eqb c 65288%N); [apply IH, H |].
      destruct (is_sp_tab_wide c); apply IH, H.
  - apply IH. apply (paren_clean_drop_space w y o p Hw H).
  - change (paren_clean o p (44%N :: y')) with (paren_clean o p y').
    apply IH. apply (paren_clean_drop_space w y o p Hw H).
  - change (paren_clean o p (32%N :: y')) with (paren_clean o (p || o) y').
    apply IH. destruct (sp_tab_cases w Hw); subst w; exact H.
Qed.

End Edits.

Section EditsMarkers.

Import Main.

Lemma nowhere_cons (f : str -> bool) (c : char) (t : str) :
  nowhere f (c :: t) = true <-> f (c :: t) = false /\ nowhere f t = true.
Proof.
  cbn [nowhere]. rewrite andb_true_iff, negb_true_iff. reflexivity.
Qed.

Lemma nowhere_tail (f : str -> bool) (c : char) (t : str) :
  nowhere f (c :: t) = true -> nowhere f t = true.
Proof. intros H. apply nowhere_cons in H. tauto. Qed.

Lemma nowhere_skip (f : str -> bool) (p : char -> bool) (s : str) :
  nowhere f s = true -> nowhere f (drop_while p s) = true.
Proof.
  induction s as [| c t IH]; intros H; [exact H |].
  cbn [drop_while]. destruct (p c); [| exact H].
  apply IH. apply (nowhere_tail f c t H).
Qed.

Lemma edit_head_space (y y' : str) (w : char) (r : str) :
  edit ok_next y y' -> y' = w :: r -> is_space w = true ->
  exists w0 r0, y = w0 :: r0 /\ is_space w0 = true.
Proof.
  intros H. destruct H as [| c y y' _ | w1 y y' Hw _ _
                            | w1 y y' Hw _ | w1 y y' Hw _]; intros E Hs.
  - discriminate.
  - injection E as -> ->. eauto.
  - eauto.
  - eauto.
  - exists w1, y. split; [reflexivity | apply sp_tab_is_space, Hw].
Qed.

Lemma edit_head_plain (y : str) (x : char) (r : str) :
  edit ok_next y (x :: r) -> plain x = true ->
  exists y1, y = x :: y1 /\ edit ok_next y1 r.
Proof.
  intros H Hx. unfold plain in Hx.
  apply andb_true_iff in Hx. destruct Hx as [Hx H3].
  apply andb_true_iff in Hx. destruct Hx as [H1 H2].
  apply negb_true_iff in H1, H2, H3.
  inversion H as [| c y0 y0' He | w1 y0 y0' Hw Hok He
                  | w1 y0 y0' Hw He | w1 y0 y0' Hw He]; subst.
  - eauto.
  - cbn [ok_next] in Hok. rewrite H2, H3 in Hok. discriminate.
  - rewrite char_eqb_refl in H1. discriminate.
  - rewrite char_eqb_refl in H2. discriminate.
Qed.

Lemma edit_head_plain_text (X : str) :
  forallb plain X = true ->
  forall y r, edit ok_next y (X ++ r) ->
              exists y1, y = X ++ y1 /\ edit ok_next y1 r.
Proof.
  induction X as [| x X IH]; intros HX y r H;
    [exists y; split; [reflexivity | exact H] |].
  cbn [forallb] in HX. apply andb_true_iff in HX. destruct HX as [Hx HX].
  cbn [app] in H. destruct (edit_head_plain y x (X ++ r) H Hx) as [y1 [-> H1]].
  destruct (IH HX y1 r H1) as [y2 [-> H2]].
  exists y2. split; [reflexivity | exact H2].
Qed.

(** White space after the aggregate-total marker *)

Lemma starts_gokei_sp_shape (s : str) :
  starts_gokei_sp s = true ->
  exists w r, s = GOKEI ++ w :: r /\ is_space w = true.
Proof.
  unfold starts_gokei_sp. intros H.
  destruct (drop_prefix GOKEI s) as [[| w r] |] eqn:E; try discriminate.
  exists w, r. split; [apply drop_prefix_some, E | exact H].
Qed.

Lemma starts_gokei_sp_intro (w : char) (r : str) :
  is_space w = true -> starts_gokei_sp (GOKEI ++ w :: r) = true.
Proof. intros H. unfold starts_gokei_sp. rewrite drop_prefix_app. exact H. Qed.

Lemma gokei_sp_edit (y y' : str) :
  edit ok_next y y' ->
  nowhere starts_gokei_sp y = true -> nowhere starts_gokei_sp y' = true.
Proof.
  induction 1 as [| c y y' He IH | w y y' Hw _ _ IH
                  | w y y' Hw _ IH | w y y' Hw _ IH]; intros H.
  - reflexivity.
  - apply nowhere_cons in H. destruct H as [Hf Ht].
    apply nowhere_cons. split; [| apply IH, Ht].
    destruct (starts_gokei_sp (c :: y')) eqn:E; [| reflexivity].
    exfalso. destruct (starts_gokei_sp_shape _ E) as [w [r [Hs Hw]]].
    change (GOKEI ++ w :: r) with (21512%N :: tl GOKEI ++ w :: r) in Hs.
    injection Hs as -> ->.
    destruct (edit_head_plain_text (tl GOKEI) eq_refl y (w :: r) He)
      as [y1 [-> H1]].
    destruct (edit_head_space y1 (w :: r) w r H1 eq_refl Hw)
      as [w0 [r0 [-> Hw0]]].
    change (21512%N :: tl GOKEI ++ w0 :: r0) with (GOKEI ++ w0 :: r0) in Hf.
    rewrite (starts_gokei_sp_intro w0 r0 Hw0) in Hf. discriminate.
  - apply IH. apply (nowhere_tail _ w y H).
  - apply nowhere_cons. split; [reflexivity |].
    apply IH. apply (nowhere_tail _ w y H).
  - apply nowhere_cons. split; [reflexivity |].
    apply IH. apply (nowhere_tail _ w y H).
Qed.

(** White space before the international-unit marker *)

Lemma edit_head_kokusai (y y' : str) :
  edit ok_next y y' -> is_prefix KOKUSAI y' = true ->
  exists run r, y = run ++ KOKUSAI ++ r /\ forallb is_space run = true.
Proof.
  induction 1 as [| c y y' He IH | w y y' Hw _ _ IH
                  | w y y' Hw _ IH | w y y' Hw _ IH]; intros Hp.
  - discriminate.
  - pose proof (is_prefix_split KOKUSAI (c :: y') Hp) as Hs.
    change (KOKUSAI ++ skipn (length KOKUSAI) (c :: y'))
      with (22269%N :: tl KOKUSAI ++ skipn 3 y') in Hs.
    injection Hs as -> Hs. rewrite Hs in He.
    destruct (edit_head_plain_text (tl KOKUSAI) eq_refl y (skipn 3 y') He)
      as [y1 [-> _]].
    exists [], y1. split; reflexivity.
  - destruct (IH Hp) as [run [r [-> Hr]]].
    exists (w :: run), r. split; [reflexivity |].
    cbn [forallb]. rewrite Hw, Hr. reflexivity.
  - discriminate.
  - discriminate.
Qed.

Lemma space_run_before_kokusai (run r : str) :
  forallb is_space run = true ->
  forall c, is_space c = true ->
            nowhere sp_then_kokusai (c :: run ++ KOKUSAI ++ r) = false.
Proof.
  induction run as [| w run IH]; intros Hr c Hc.
  - cbn [app nowhere sp_then_kokusai]. rewrite Hc, is_prefix_app. reflexivity.
  - cbn [forallb] in Hr. apply andb_true_iff in Hr. destruct Hr as [Hw Hr].
    change (nowhere sp_then_kokusai (c :: (w :: run) ++ KOKUSAI ++ r))
      with (negb (sp_then_kokusai (c :: (w :: run) ++ KOKUSAI ++ r))
            && nowhere sp_then_kokusai (w :: run ++ KOKUSAI ++ r)).
    rewrite (IH Hr w Hw). apply andb_false_r.
Qed.

Lemma sp_kokusai_edit (y y' : str) :
  edit ok_next y y' ->
  nowhere sp_then_kokusai y = true -> nowhere sp_then_kokusai y' = true.
Proof.
  induction 1 as [| c y y' He IH | w y y' Hw _ _ IH
                  | w y y' Hw He IH | w y y' Hw He IH]; intros H.
  - reflexivity.
  - pose proof (nowhere_tail _ c y H) as Ht.
    apply nowhere_cons. split; [| apply IH, Ht].
    destruct (sp_then_kokusai (c :: y')) eqn:E; [| reflexivity].
    exfalso. cbn [sp_then_kokusai] in E. apply andb_true_iff in E.
    destruct E as [Hc Hp].
    destruct (edit_head_kokusai y y' He Hp) as [run [r [-> Hr]]].
    rewrite (space_run_before_kokusai run r Hr c Hc) in H. discriminate.
  - apply IH. apply (nowhere_tail _ w y H).
  - apply nowhere_cons. split; [reflexivity |].
    apply IH. apply (nowhere_tail _ w y H).
  - pose proof (nowhere_tail _ w y H) as Ht.
    apply nowhere_cons. split; [| apply IH, Ht].
    destruct (sp_then_kokusai (32%N :: y')) eqn:E; [| reflexivity].
    exfalso. cbn [sp_then_kokusai] in E. apply andb_true_iff in E.
    destruct E as [_ Hp].
    destruct (edit_head_kokusai y y' He Hp) as [run [r [-> Hr]]].
    rewrite (space_run_before_kokusai run r Hr w (sp_tab_is_space w Hw)) in H.
    discriminate.
Qed.

End EditsMarkers.

(** *** Every step is an edit of its input *)

Section StepsAreEdits.

Import Main.

Lemma sp_tab_wide_is_space (c : char) :
  is_sp_tab_wide c = true -> is_space c = true.
Proof.
  unfold is_sp_tab_wide. intros H.
  apply orb_true_iff in H. destruct H as [H | H];
    [apply orb_true_iff in H; destruct H as [H | H] |];
    apply char_eqb_eq in H; subst c; reflexivity.
Qed.

Lemma edit_filter_spaces (inner y y' : str) :
  edit ok_any y y' ->
  edit ok_any (inner ++ y)
       (filter (fun c => negb (is_sp_tab_wide c)) inner ++ y').
Proof.
  intros H. induction inner as [| c inner IH]; [exact H |].
  cbn [app filter]. destruct (is_sp_tab_wide c) eqn:E; cbn [negb app].
  - apply edit_del; [apply sp_tab_wide_is_space, E | reflexivity | exact IH].
  - apply edit_keep, IH.
Qed.

Lemma step_paren_edit (s : str) : edit ok_any s (step_paren s).
Proof.
  remember (length s) as n eqn:Hn. revert s Hn.
  induction n as [n IH] using lt_wf_ind. intros s Hn.
  destruct s as [| c t].
  { change (step_paren []) with ([] : str). apply edit_nil. }
  destruct (char_eqb 65288%N c) eqn:Ec.
  - apply char_eqb_eq in Ec. subst c.
    destruct (drop_while not_rparen t) as [| d r] eqn:Ed.
    + rewrite (step_paren_skip _ t (or_intror Ed)). apply edit_keep.
      apply (IH (length t)); [subst n; cbn [length]; lia | reflexivity].
    + rewrite (step_paren_match t r d Ed). apply edit_keep.
      pose proof (take_drop_while not_rparen t) as Hs. rewrite Ed in Hs.
      pose proof (drop_while_head not_rparen t) as Hh. rewrite Ed in Hh.
      unfold not_rparen in Hh. apply negb_false_iff, char_eqb_eq in Hh.
      subst d. rewrite <- Hs at 1.
      apply edit_filter_spaces. apply edit_keep.
      apply (IH (length r)); [| reflexivity].
      subst n. rewrite <- Hs. cbn [length]. rewrite length_app. cbn [length]. lia.
  - rewrite (step_paren_skip c t (or_introl Ec)). apply edit_keep.
    apply (IH (length t)); [subst n; cbn [length]; lia | reflexivity].
Qed.

Lemma drop_while_length (p : char -> bool) (s : str) :
  length (drop_while p s) <= length s.
Proof.
  induction s as [| c t IH]; [reflexivity |].
  cbn [drop_while]. destruct (p c); cbn [length]; lia.
Qed.

Lemma step_gokei_edit (s : str) : edit ok_any s (step_gokei s).
Proof.
  remember (length s) as n eqn:Hn. revert s Hn.
  induction n as [n IH] using lt_wf_ind. intros s Hn.
  destruct s as [| c t].
  { change (step_gokei []) with ([] : str). apply edit_nil. }
  destruct (starts_gokei_sp (c :: t)) eqn:E.
  - rewrite (step_gokei_match _ E).
    destruct (starts_gokei_sp_shape _ E) as [w [r [Hs Hw]]].
    rewrite Hs at 1. rewrite Hs.
    change (skipn 6 (GOKEI ++ w :: r)) with (w :: r).
    apply edit_keep_app.
    rewrite <- (take_drop_while is_space (w :: r)) at 1.
    apply edit_del_run; [apply take_while_all | reflexivity |].
    apply (IH (length (drop_while is_space (w :: r)))); [| reflexivity].
    subst n. rewrite Hs, length_app.
    pose proof (drop_while_length is_space (w :: r)). cbn [length GOKEI] in *. lia.
  - rewrite (step_gokei_skip c t E). apply edit_keep.
    apply (IH (length t)); [subst n; cbn [length]; lia | reflexivity].
Qed.

Lemma step_kokusai_head (r : str) :
  is_prefix KOKUSAI r = true -> ok_next (step_kokusai r) = true.
Proof.
  intros H. pose proof (is_prefix_split KOKUSAI r H) as Hs.
  destruct r as [| c t]; [discriminate |].
  change (KOKUSAI ++ skipn (length KOKUSAI) (c :: t))
    with (22269%N :: tl KOKUSAI ++ skipn 3 t) in Hs.
  injection Hs as -> _.
  rewrite step_kokusai_skip; reflexivity.
Qed.

Lemma step_kokusai_edit (s : str) : edit ok_next s (step_kokusai s).
Proof.
  remember (length s) as n eqn:Hn. revert s Hn.
  induction n as [n IH] using lt_wf_ind. intros s Hn.
  destruct s as [| c t].
  { change (step_kokusai []) with ([] : str). apply edit_nil. }
  destruct (sp_run_kokusai (c :: t)) eqn:E.
  - rewrite (step_kokusai_match _ E).
    unfold sp_run_kokusai in E. apply andb_true_iff in E. destruct E as [Hc Hp].
    rewrite <- (take_drop_while is_space (c :: t)) at 1.
    apply edit_del_run;
      [apply take_while_all | apply step_kokusai_head, Hp |].
    apply (IH (length (drop_while is_space (c :: t)))); [| reflexivity].
    subst n. cbn [drop_while]. rewrite Hc.
    pose proof (drop_while_length is_space t). cbn [length]. lia.
  - rewrite (step_kokusai_skip c t E). apply edit_keep.
    apply (IH (length t)); [subst n; cbn [length]; lia | reflexivity].
Qed.

End StepsAreEdits.

Section EthylIsEdit.

Import Main.


Lemma sp_ethyl_length (s : str) : sp_ethyl s = true -> 6 <= length s.
Proof.
  intros H. destruct (sp_ethyl_shape s H) as [w [_ Hs]].
  rewrite Hs. cbn [length]. rewrite length_app. cbn [length ETHYL]. lia.
Qed.

Lemma ethyl_edit (s : str) :
  forall pos, edit ok_next s (sub_go RE_ETHYL repl_ethyl pos 0 s).
Proof.
  remember (length s) as n eqn:Hn. revert s Hn.
  induction n as [n IH] using lt_wf_ind. intros s Hn pos.
  pose proof (match_ethyl pos s) as Hm.
  destruct (Nat.eqb pos 0 && sp_ethyl s) eqn:EA.
  - (* the fragment at the start of the text *)
    apply andb_true_iff in EA. destruct EA as [_ Hsp].
    pose proof (sp_ethyl_length s Hsp) as Hlen.
    destruct (sp_ethyl_shape s Hsp) as [w [Hw Hs]].
    rewrite (sub_go_match RE_ETHYL repl_ethyl pos s _ 5 Hm);
      [| cbn [m_pos]; lia | exact Hlen].
    unfold repl_ethyl. cbn [m_grp group1 app].
    rewrite Hs at 1. change COMMA_ETHYL with (44%N :: ETHYL).
    cbn [app]. apply edit_comma; [exact Hw |].
    apply edit_keep_app.
    apply (IH (length (skipn 6 s))); [| reflexivity].
    subst n. rewrite length_skipn. lia.
  - destruct s as [| c t].
    { cbn [sub_go]. rewrite Hm. apply edit_nil. }
    destruct (not_comma c && sp_ethyl t) eqn:EB.
    + apply andb_true_iff in EB. destruct EB as [_ Hsp].
      pose proof (sp_ethyl_length t Hsp) as Hlen.
      destruct (sp_ethyl_shape t Hsp) as [w [Hw Hs]].
      rewrite (sub_go_match RE_ETHYL repl_ethyl pos (c :: t) _ 6 Hm);
        [| cbn [m_pos]; lia | cbn [length]; lia].
      unfold repl_ethyl. cbn [m_grp group1 app].
      apply edit_keep. rewrite Hs at 1. change COMMA_ETHYL with (44%N :: ETHYL).
      cbn [app]. apply edit_comma; [exact Hw |].
      apply edit_keep_app.
      change (skipn 7 (c :: t)) with (skipn 6 t).
      apply (IH (length (skipn 6 t))); [| reflexivity].
      subst n. rewrite length_skipn. cbn [length]. lia.
    + rewrite (sub_go_nomatch RE_ETHYL repl_ethyl pos c t Hm).
      apply edit_keep.
      apply (IH (length t)); [subst n; cbn [length]; lia | reflexivity].
Qed.

Lemma step_ethyl_edit (s : str) : edit ok_next s (step_ethyl s).
Proof. apply (ethyl_edit s 0). Qed.

End EthylIsEdit.

Section CollapseIsEdit.

Import Main.

Lemma squeeze_after_run (c : char) (t : str) :
  is_sp_tab c = false ->
  squeeze is_sp_tab SPACE true (c :: t) = squeeze is_sp_tab SPACE false (c :: t).
Proof. intros H. cbn [squeeze]. rewrite H. reflexivity. Qed.

Lemma squeeze_edit (s : str) :
  edit ok_next s (squeeze is_sp_tab SPACE false s).
Proof.
  induction s as [| c t IH]; [apply edit_nil |].
  cbn [squeeze]. destruct (is_sp_tab c) eqn:Ec; [| apply edit_keep, IH].
  change (SPACE ++ squeeze is_sp_tab SPACE true t)
    with (32%N :: squeeze is_sp_tab SPACE true t).
  destruct t as [| c2 t'].
  - apply edit_space; [exact Ec | apply edit_nil].
  - destruct (is_sp_tab c2) eqn:Ec2.
    + (* not the last of its run: deleted, the space comes from the next *)
      assert (Hsame : 32%N :: squeeze is_sp_tab SPACE true (c2 :: t')
                      = squeeze is_sp_tab SPACE false (c2 :: t')).
      { cbn [squeeze]. rewrite Ec2. reflexivity. }
      rewrite Hsame. apply edit_del;
        [apply sp_tab_is_space, Ec | rewrite <- Hsame; reflexivity | exact IH].
    + rewrite (squeeze_after_run c2 t' Ec2).
      apply edit_space; [exact Ec | exact IH].
Qed.

Lemma rstrip_edit (s : str) : edit ok_next s (rstrip s).
Proof.
  rewrite rstrip_rstrip_l.
  induction s as [| c t IH]; [apply edit_nil |].
  cbn [rstrip_l]. destruct (rstrip_l t) as [| x r].
  - destruct (is_space c) eqn:Ec.
    + apply edit_del; [exact Ec | reflexivity | exact IH].
    + apply edit_keep, IH.
  - apply edit_keep, IH.
Qed.

Lemma lstrip_edit (s : str) : edit ok_any s (lstrip s).
Proof.
  induction s as [| c t IH]; [apply edit_nil |].
  cbn [lstrip]. destruct (is_space c) eqn:Ec.
  - apply edit_del; [exact Ec | reflexivity | exact IH].
  - apply edit_refl.
Qed.

End CollapseIsEdit.

(** *** What each step establishes, and where it is the identity *)

Section GokeiStep.

Import Main.

Lemma step_gokei_nil : step_gokei [] = [].
Proof. reflexivity. Qed.

Lemma step_gokei_cons (c : char) (t : str) :
  exists z, step_gokei (c :: t) = c :: z.
Proof.
  destruct (starts_gokei_sp (c :: t)) eqn:E.
  - rewrite (step_gokei_match _ E).
    destruct (starts_gokei_sp_shape _ E) as [w [r [Hs _]]].
    change (GOKEI ++ w :: r) with (21512%N :: tl GOKEI ++ w :: r) in Hs.
    injection Hs as -> _. eexists. reflexivity.
  - rewrite (step_gokei_skip c t E). eexists. reflexivity.
Qed.

Lemma step_gokei_reflect_char (s : str) (x : char) (Z : str) :
  not_gokei_head x = true -> step_gokei s = x :: Z ->
  exists t, s = x :: t /\ step_gokei t = Z.
Proof.
  intros Hx H. destruct s as [| c t]; [discriminate |].
  destruct (starts_gokei_sp (c :: t)) eqn:E.
  - exfalso. rewrite (step_gokei_match _ E) in H.
    injection H as H _. subst x. discriminate.
  - rewrite (step_gokei_skip c t E) in H. injection H as -> H.
    exists t. split; [reflexivity | exact H].
Qed.

Lemma step_gokei_reflect (X : str) :
  forallb not_gokei_head X = true ->
  forall s Z, step_gokei s = X ++ Z ->
              exists t, s = X ++ t /\ step_gokei t = Z.
Proof.
  induction X as [| x X IH]; intros HX s Z H;
    [exists s; split; [reflexivity | exact H] |].
  cbn [forallb] in HX. apply andb_true_iff in HX. destruct HX as [Hx HX].
  destruct (step_gokei_reflect_char s x (X ++ Z) Hx H) as [t [-> Ht]].
  destruct (IH HX t Z Ht) as [t' [-> Ht']].
  exists t'. split; [reflexivity | exact Ht'].
Qed.

Lemma step_gokei_head_space (s : str) (w : char) (r : str) :
  step_gokei s = w :: r -> exists t, s = w :: t.
Proof.
  intros H. destruct s as [| c t]; [discriminate |].
  destruct (step_gokei_cons c t) as [z Hz]. rewrite Hz in H.
  injection H as -> _. exists t. reflexivity.
Qed.

Lemma step_gokei_no_start (s : str) : starts_gokei_sp (step_gokei s) = false.
Proof.
  destruct (starts_gokei_sp (step_gokei s)) eqn:E; [| reflexivity].
  exfalso. destruct (starts_gokei_sp_shape _ E) as [w [r [Hs Hw]]].
  destruct s as [| c t]; [discriminate |].
  destruct (starts_gokei_sp (c :: t)) eqn:Es.
  - rewrite (step_gokei_match _ Es) in Hs. apply app_inv_head in Hs.
    pose proof (drop_while_head is_space (skipn 6 (c :: t))) as Hh.
    destruct (step_gokei_head_space _ w r Hs) as [t' Ht'].
    rewrite Ht' in Hh. congruence.
  - rewrite (step_gokei_skip c t Es) in Hs.
    change (GOKEI ++ w :: r) with (21512%N :: tl GOKEI ++ w :: r) in Hs.
    injection Hs as -> Hs.
    destruct (step_gokei_reflect (tl GOKEI) eq_refl t (w :: r) Hs)
      as [t1 [-> H1]].
    destruct (step_gokei_head_space t1 w r H1) as [t2 ->].
    change (21512%N :: tl GOKEI ++ w :: t2) with (GOKEI ++ w :: t2) in Es.
    rewrite (starts_gokei_sp_intro w t2 Hw) in Es. discriminate.
Qed.

Lemma nowhere_gokei_prefix (Z : str) :
  starts_gokei_sp (GOKEI ++ Z) = false ->
  nowhere starts_gokei_sp Z = true ->
  nowhere starts_gokei_sp (GOKEI ++ Z) = true.
Proof.
  intros H0 HZ.
  change (GOKEI ++ Z)
    with (21512%N :: 35336%N :: 37327%N :: 12392%N :: 12375%N :: 12390%N :: Z)
    in *.
  repeat (apply nowhere_cons; split; [first [exact H0 | reflexivity] |]).
  exact HZ.
Qed.

Lemma step_gokei_establishes (s : str) :
  nowhere starts_gokei_sp (step_gokei s) = true.
Proof.
  remember (length s) as n eqn:Hn. revert s Hn.
  induction n as [n IH] using lt_wf_ind. intros s Hn.
  destruct s as [| c t]; [reflexivity |].
  pose proof (step_gokei_no_start (c :: t)) as Hw.
  destruct (starts_gokei_sp (c :: t)) eqn:E.
  - rewrite (step_gokei_match _ E) in *.
    apply nowhere_gokei_prefix; [exact Hw |].
    apply (IH (length (drop_while is_space (skipn 6 (c :: t)))));
      [| reflexivity].
    subst n. pose proof (drop_while_length is_space (skipn 6 (c :: t))) as H1.
    rewrite length_skipn in H1. cbn [length] in *. lia.
  - rewrite (step_gokei_skip c t E) in *.
    apply nowhere_cons. split; [exact Hw |].
    apply (IH (length t)); [subst n; cbn [length]; lia | reflexivity].
Qed.

Lemma step_gokei_fixed (y : str) :
  nowhere starts_gokei_sp y = true -> step_gokei y = y.
Proof.
  induction y as [| c t IH]; intros H; [reflexivity |].
  apply nowhere_cons in H. destruct H as [Hf Ht].
  rewrite (step_gokei_skip c t Hf), (IH Ht). reflexivity.
Qed.

End GokeiStep.

Section KokusaiStep.

Import Main.

Lemma drop_while_run_kokusai (run r : str) :
  forallb is_space run = true ->
  drop_while is_space (run ++ KOKUSAI ++ r) = KOKUSAI ++ r.
Proof.
  intros H. induction run as [| w run IH]; [reflexivity |].
  cbn [forallb] in H. apply andb_true_iff in H. destruct H as [Hw Hr].
  cbn [app drop_while]. rewrite Hw. apply IH, Hr.
Qed.

Lemma step_kokusai_head_char (r : str) :
  is_prefix KOKUSAI r = true -> exists z, step_kokusai r = 22269%N :: z.
Proof.
  intros H. pose proof (is_prefix_split KOKUSAI r H) as Hs.
  destruct r as [| c t]; [discriminate |].
  change (KOKUSAI ++ skipn (length KOKUSAI) (c :: t))
    with (22269%N :: tl KOKUSAI ++ skipn 3 t) in Hs.
  injection Hs as -> _.
  exists (step_kokusai t). apply step_kokusai_skip. reflexivity.
Qed.

Lemma step_kokusai_no_start (s : str) :
  sp_then_kokusai (step_kokusai s) = false.
Proof.
  destruct (sp_then_kokusai (step_kokusai s)) eqn:E; [| reflexivity].
  exfalso. destruct s as [| c t]; [discriminate |].
  destruct (sp_run_kokusai (c :: t)) eqn:Es.
  - rewrite (step_kokusai_match _ Es) in E.
    unfold sp_run_kokusai in Es. apply andb_true_iff in Es.
    destruct Es as [_ Hp].
    destruct (step_kokusai_head_char _ Hp) as [z Hz].
    rewrite Hz in E. discriminate.
  - rewrite (step_kokusai_skip c t Es) in E.
    cbn [sp_then_kokusai] in E. apply andb_true_iff in E. destruct E as [Hc Hp].
    destruct (edit_head_kokusai t (step_kokusai t) (step_kokusai_edit t) Hp)
      as [run [r [-> Hr]]].
    unfold sp_run_kokusai in Es. cbn [drop_while] in Es. rewrite Hc in Es.
    rewrite (drop_while_run_kokusai run r Hr), is_prefix_app in Es.
    discriminate.
Qed.

Lemma step_kokusai_establishes (s : str) :
  nowhere sp_then_kokusai (step_kokusai s) = true.
Proof.
  remember (length s) as n eqn:Hn. revert s Hn.
  induction n as [n IH] using lt_wf_ind. intros s Hn.
  destruct s as [| c t]; [reflexivity |].
  pose proof (step_kokusai_no_start (c :: t)) as Hw.
  destruct (sp_run_kokusai (c :: t)) eqn:E.
  - rewrite (step_kokusai_match _ E).
    apply (IH (length (drop_while is_space (c :: t)))); [| reflexivity].
    unfold sp_run_kokusai in E. apply andb_true_iff in E. destruct E as [Hc _].
    subst n. cbn [drop_while]. rewrite Hc.
    pose proof (drop_while_length is_space t). cbn [length]. lia.
  - rewrite (step_kokusai_skip c t E) in *.
    apply nowhere_cons. split; [exact Hw |].
    apply (IH (length t)); [subst n; cbn [length]; lia | reflexivity].
Qed.

Lemma step_kokusai_fixed (y : str) :
  nowhere sp_then_kokusai y = true -> step_kokusai y = y.
Proof.
  induction y as [| c t IH]; intros H; [reflexivity |].
  pose proof (nowhere_tail _ c t H) as Ht.
  assert (Hf : sp_run_kokusai (c :: t) = false).
  { destruct (sp_run_kokusai (c :: t)) eqn:E; [| reflexivity].
    exfalso. unfold sp_run_kokusai in E. apply andb_true_iff in E.
    destruct E as [Hc Hp]. cbn [drop_while] in Hp. rewrite Hc in Hp.
    pose proof (is_prefix_split KOKUSAI _ Hp) as Hs.
    pose proof (take_drop_while is_space t) as Ht2. rewrite Hs in Ht2.
    rewrite <- Ht2 in H.
    rewrite (space_run_before_kokusai _ _ (take_while_all is_space t) c Hc) in H.
    discriminate. }
  rewrite (step_kokusai_skip c t Hf), (IH Ht). reflexivity.
Qed.

End KokusaiStep.

Section ParenStep.

Import Main.

Lemma paren_clean_no_rparen (z : str) :
  forallb not_rparen z = true -> forall o p, paren_clean o p z = true.
Proof.
  induction z as [| c z IH]; intros H o p; [reflexivity |].
  cbn [forallb] in H. apply andb_true_iff in H. destruct H as [Hc Hz].
  unfold not_rparen in Hc. apply negb_true_iff in Hc.
  cbn [paren_clean]. rewrite Hc.
  destruct (char_eqb c 65288%N); [apply IH, Hz |].
  destruct (is_sp_tab_wide c); apply IH, Hz.
Qed.

Lemma forallb_Forall_not_rparen (z : str) :
  forallb not_rparen z = true -> Forall (fun c => not_rparen c = true) z.
Proof. intros H. apply Forall_forall. apply forallb_forall. exact H. Qed.

Lemma Forall_forallb_not_rparen (z : str) :
  Forall (fun c => not_rparen c = true) z -> forallb not_rparen z = true.
Proof. intros H. apply forallb_forall. apply Forall_forall. exact H. Qed.

Lemma no_rparen_when_unmatched (t : str) :
  drop_while not_rparen t = [] -> forallb not_rparen t = true.
Proof.
  intros H. pose proof (take_drop_while not_rparen t) as Hs.
  rewrite H, app_nil_r in Hs. rewrite <- Hs. apply take_while_all.
Qed.

Lemma paren_clean_inner (inner z : str) (p : bool) :
  forallb not_rparen inner = true ->
  forallb (fun c => negb (is_sp_tab_wide c)) inner = true ->
  paren_clean true p (inner ++ z) = paren_clean true p z.
Proof.
  induction inner as [| c inner IH]; intros Hr Hs; [reflexivity |].
  cbn [forallb] in Hr, Hs.
  apply andb_true_iff in Hr. destruct Hr as [Hc Hr].
  apply andb_true_iff in Hs. destruct Hs as [Hw Hs].
  unfold not_rparen in Hc. apply negb_true_iff in Hc.
  apply negb_true_iff in Hw.
  cbn [app paren_clean]. rewrite Hc, Hw.
  destruct (char_eqb c 65288%N); apply IH; assumption.
Qed.

Lemma filter_all (f : char -> bool) (z : str) :
  forallb f (filter f z) = true.
Proof.
  induction z as [| c z IH]; [reflexivity |].
  cbn [filter]. destruct (f c) eqn:E; [| exact IH].
  cbn [forallb]. rewrite E. exact IH.
Qed.

Lemma filter_keeps (f g : char -> bool) (z : str) :
  forallb g z = true -> forallb g (filter f z) = true.
Proof.
  induction z as [| c z IH]; intros H; [reflexivity |].
  cbn [forallb] in H. apply andb_true_iff in H. destruct H as [Hc Hz].
  cbn [filter]. destruct (f c); [| apply IH, Hz].
  cbn [forallb]. rewrite Hc. apply IH, Hz.
Qed.

Lemma filter_id (f : char -> bool) (z : str) :
  forallb f z = true -> filter f z = z.
Proof.
  induction z as [| c z IH]; intros H; [reflexivity |].
  cbn [forallb] in H. apply andb_true_iff in H. destruct H as [Hc Hz].
  cbn [filter]. rewrite Hc, (IH Hz). reflexivity.
Qed.

Lemma step_paren_establishes (s : str) :
  paren_clean false false (step_paren s) = true.
Proof.
  remember (length s) as n eqn:Hn. revert s Hn.
  induction n as [n IH] using lt_wf_ind. intros s Hn.
  destruct s as [| c t]; [reflexivity |].
  destruct (char_eqb 65288%N c) eqn:Ec.
  - apply char_eqb_eq in Ec. subst c.
    destruct (drop_while not_rparen t) as [| d r] eqn:Ed.
    + rewrite (step_paren_skip _ t (or_intror Ed)).
      change (paren_clean true false (step_paren t) = true).
      apply paren_clean_no_rparen. apply Forall_forallb_not_rparen.
      apply (edit_Forall ok_any (fun c => not_rparen c = true) t (step_paren t));
        [reflexivity | reflexivity | apply step_paren_edit |].
      apply forallb_Forall_not_rparen, no_rparen_when_unmatched, Ed.
    + rewrite (step_paren_match t r d Ed).
      change (paren_clean true false
                (filter (fun c => negb (is_sp_tab_wide c)) (take_while not_rparen t)
                   ++ 65289%N :: step_paren r) = true).
      rewrite paren_clean_inner;
        [| apply filter_keeps, take_while_all | apply filter_all].
      change (paren_clean false false (step_paren r) = true).
      apply (IH (length r)); [| reflexivity].
      pose proof (drop_while_length not_rparen t) as Hl. rewrite Ed in Hl.
      subst n. cbn [length] in *. lia.
  - rewrite (step_paren_skip c t (or_introl Ec)).
    assert (Hz : paren_clean false false (step_paren t) = true).
    { apply (IH (length t)); [subst n; cbn [length]; lia | reflexivity]. }
    cbn [paren_clean]. rewrite N.eqb_sym in Ec.
    change (char_eqb c 65288%N = false) in Ec. rewrite Ec.
    destruct (char_eqb c 65289%N); [exact Hz |].
    destruct (is_sp_tab_wide c); exact Hz.
Qed.

Lemma paren_clean_inner_inv (inner r : str) :
  forallb not_rparen inner = true ->
  forall p, paren_clean true p (inner ++ 65289%N :: r) = true ->
            p = false
            /\ forallb (fun c => negb (is_sp_tab_wide c)) inner = true
            /\ paren_clean false false r = true.
Proof.
  induction inner as [| c inner IH]; intros Hr p H.
  - cbn [app paren_clean] in H.
    change (char_eqb 65289%N 65289%N) with true in H. cbn iota in H.
    apply andb_true_iff in H. destruct H as [Hp H].
    apply negb_true_iff in Hp.
    split; [exact Hp | split; [reflexivity | exact H]].
  - cbn [forallb] in Hr. apply andb_true_iff in Hr. destruct Hr as [Hc Hr].
    unfold not_rparen in Hc. apply negb_true_iff in Hc.
    cbn [app paren_clean] in H. rewrite Hc in H.
    cbn [forallb].
    destruct (char_eqb c 65288%N) eqn:El.
    + apply char_eqb_eq in El. subst c.
      change (negb (is_sp_tab_wide 65288%N)) with true. cbn [andb].
      apply (IH Hr p H).
    + destruct (is_sp_tab_wide c) eqn:Ew.
      * exfalso. destruct (IH Hr (p || true) H) as [Hp _].
        rewrite orb_true_r in Hp. discriminate.
      * cbn [negb andb]. apply (IH Hr p H).
Qed.

Lemma step_paren_fixed (y : str) :
  paren_clean false false y = true -> step_paren y = y.
Proof.
  remember (length y) as n eqn:Hn. revert y Hn.
  induction n as [n IH] using lt_wf_ind. intros y Hn H.
  destruct y as [| c t]; [reflexivity |].
  destruct (char_eqb 65288%N c) eqn:Ec.
  - apply char_eqb_eq in Ec. subst c.
    change (paren_clean true false t = true) in H.
    destruct (drop_while not_rparen t) as [| d r] eqn:Ed.
    + rewrite (step_paren_skip _ t (or_intror Ed)). f_equal.
      apply (IH (length t)); [subst n; cbn [length]; lia | reflexivity |].
      apply (paren_clean_mono t true false false false); auto.
    + rewrite (step_paren_match t r d Ed).
      pose proof (take_drop_while not_rparen t) as Hs. rewrite Ed in Hs.
      pose proof (drop_while_head not_rparen t) as Hh. rewrite Ed in Hh.
      unfold not_rparen in Hh. apply negb_false_iff, char_eqb_eq in Hh.
      subst d. rewrite <- Hs in H.
      destruct (paren_clean_inner_inv _ r (take_while_all not_rparen t) false H)
        as [_ [Hw Hr]].
      rewrite (filter_id _ _ Hw).
      rewrite (IH (length r)) with (y := r); [| | reflexivity | exact Hr].
      * rewrite Hs. reflexivity.
      * pose proof (drop_while_length not_rparen t) as Hl. rewrite Ed in Hl.
        subst n. cbn [length] in *. lia.
  - rewrite (step_paren_skip c t (or_introl Ec)). f_equal.
    apply (IH (length t)); [subst n; cbn [length]; lia | reflexivity |].
    cbn [paren_clean] in H. rewrite N.eqb_sym in Ec.
    change (char_eqb c 65288%N = false) in Ec. rewrite Ec in H.
    destruct (char_eqb c 65289%N); [exact H |].
    destruct (is_sp_tab_wide c); exact H.
Qed.

End ParenStep.

Section CollapseStep.

Import Main.

Lemma step_collapse_direct (y : str) :
  step_collapse y = strip (squeeze is_sp_tab SPACE false y).
Proof.
  unfold step_collapse, RE_SP_TAB. rewrite re_sub_Rep1. reflexivity.
Qed.

Lemma squeezed_squeeze (b : bool) (y : str) :
  squeezed b (squeeze is_sp_tab SPACE b y) = true.
Proof.
  revert b. induction y as [| c t IH]; intros b; [reflexivity |].
  cbn [squeeze]. destruct (is_sp_tab c) eqn:Ec.
  - destruct b; [apply IH |].
    change (SPACE ++ squeeze is_sp_tab SPACE true t)
      with (32%N :: squeeze is_sp_tab SPACE true t).
    cbn [squeezed]. change (is_sp_tab 32%N) with true. cbn iota.
    change (char_eqb 32%N 32%N) with true. cbn [andb negb]. apply IH.
  - cbn [squeezed]. rewrite Ec. apply IH.
Qed.

Lemma squeeze_fixed (b : bool) (z : str) :
  squeezed b z = true -> squeeze is_sp_tab SPACE b z = z.
Proof.
  revert b. induction z as [| c t IH]; intros b H; [reflexivity |].
  cbn [squeezed] in H. cbn [squeeze]. destruct (is_sp_tab c) eqn:Ec.
  - apply andb_true_iff in H. destruct H as [H Ht].
    apply andb_true_iff in H. destruct H as [Hc Hb].
    apply char_eqb_eq in Hc. subst c. apply negb_true_iff in Hb. subst b.
    rewrite (IH true Ht). reflexivity.
  - rewrite (IH false H). reflexivity.
Qed.

Lemma squeezed_weaken (b : bool) (z : str) :
  squeezed b z = true -> squeezed false z = true.
Proof.
  intros H. destruct z as [| c t]; [reflexivity |].
  cbn [squeezed] in *. destruct (is_sp_tab c); [| exact H].
  apply andb_true_iff in H. destruct H as [H Ht].
  apply andb_true_iff in H. destruct H as [Hc _].
  rewrite Hc, Ht. reflexivity.
Qed.

Lemma squeezed_lstrip (b : bool) (z : str) :
  squeezed b z = true -> squeezed false (lstrip z) = true.
Proof.
  revert b. induction z as [| c t IH]; intros b H; [reflexivity |].
  cbn [lstrip]. destruct (is_space c) eqn:Es.
  - cbn [squeezed] in H. destruct (is_sp_tab c).
    + apply andb_true_iff in H. destruct H as [_ Ht]. apply (IH true Ht).
    + apply (IH false H).
  - apply (squeezed_weaken b _ H).
Qed.

Lemma squeezed_rstrip_l (z : str) :
  forall b, squeezed b z = true -> squeezed b (rstrip_l z) = true.
Proof.
  induction z as [| c t IH]; intros b H; [reflexivity |].
  cbn [rstrip_l]. destruct (rstrip_l t) as [| x r] eqn:Er.
  - destruct (is_space c) eqn:Es; [reflexivity |].
    cbn [squeezed]. destruct (is_sp_tab c) eqn:Ec; [| reflexivity].
    rewrite (sp_tab_is_space c Ec) in Es. discriminate.
  - cbn [squeezed] in *. destruct (is_sp_tab c).
    + apply andb_true_iff in H. destruct H as [H Ht]. rewrite H.
      apply (IH true Ht).
    + apply (IH false H).
Qed.

Lemma squeezed_strip (z : str) :
  squeezed false z = true -> squeezed false (strip z) = true.
Proof.
  intros H. unfold strip. rewrite rstrip_rstrip_l.
  apply squeezed_rstrip_l. apply (squeezed_lstrip false z H).
Qed.

Lemma step_collapse_idempotent (y : str) :
  step_collapse (step_collapse y) = step_collapse y.
Proof.
  rewrite (step_collapse_direct (step_collapse y)).
  rewrite squeeze_fixed.
  - rewrite step_collapse_direct. apply strip_idempotent.
  - rewrite step_collapse_direct. apply squeezed_strip, squeezed_squeeze.
Qed.

End CollapseStep.

Section WideSpaceStep.

Import Main.

Lemma step_wide_space_direct (s : str) : step_wide_space s = map unwiden s.
Proof. apply replace_wide_space. Qed.

Lemma step_wide_space_establishes (s : str) :
  Forall (fun c => c <> 12288%N) (step_wide_space s).
Proof.
  rewrite step_wide_space_direct.
  induction s as [| c t IH]; [constructor |].
  cbn [map]. constructor; [| exact IH].
  unfold unwiden. destruct (char_eqb 12288%N c) eqn:E; [discriminate |].
  intros ->. rewrite char_eqb_refl in E. discriminate.
Qed.

Lemma step_wide_space_fixed (y : str) :
  Forall (fun c => c <> 12288%N) y -> step_wide_space y = y.
Proof.
  rewrite step_wide_space_direct.
  induction 1 as [| c t Hc _ IH]; [reflexivity |].
  cbn [map]. rewrite IH. unfold unwiden.
  destruct (char_eqb 12288%N c) eqn:E; [| reflexivity].
  apply char_eqb_eq in E. congruence.
Qed.

End WideSpaceStep.

(** *** What holds of every normalised text *)

Section LaterSteps.

Import Main.

(** A property kept by the edits that delete white space only before a
    space or "国", and by the removal of leading white space, is kept by
    the fix-ups for "国際単位" and "2－エチル" and by the final collapse. *)
Variable Q : str -> Prop.
Hypothesis Q_edit : forall y y', edit ok_next y y' -> Q y -> Q y'.
Hypothesis Q_lstrip : forall y, Q y -> Q (lstrip y).

Lemma kept_by_kokusai (y : str) : Q y -> Q (step_kokusai y).
Proof. apply Q_edit, step_kokusai_edit. Qed.

Lemma kept_by_ethyl (y : str) : Q y -> Q (step_ethyl y).
Proof. apply Q_edit, step_ethyl_edit. Qed.

Lemma kept_by_collapse (y : str) : Q y -> Q (step_collapse y).
Proof.
  intros H. rewrite step_collapse_direct. unfold strip.
  apply (Q_edit _ _ (rstrip_edit _)). apply Q_lstrip.
  apply (Q_edit _ _ (squeeze_edit y)). exact H.
Qed.

Lemma kept_from_gokei (y : str) :
  Q (step_gokei y) -> Q (step_collapse (step_ethyl (step_kokusai (step_gokei y)))).
Proof. intros H. apply kept_by_collapse, kept_by_ethyl, kept_by_kokusai, H. Qed.

End LaterSteps.

Section NormalisedText.

Import Main.

Lemma strip_cell_collapsed (s : str) :
  step_collapse (_strip_cell s) = _strip_cell s.
Proof. unfold _strip_cell. apply step_collapse_idempotent. Qed.

Lemma strip_cell_no_sp_kokusai (s : str) :
  nowhere sp_then_kokusai (_strip_cell s) = true.
Proof.
  unfold _strip_cell.
  apply (kept_by_collapse (fun y => nowhere sp_then_kokusai y = true));
    [exact sp_kokusai_edit
    | intros y Hy; rewrite lstrip_drop_while; apply nowhere_skip, Hy |].
  apply (kept_by_ethyl (fun y => nowhere sp_then_kokusai y = true));
    [exact sp_kokusai_edit |].
  apply step_kokusai_establishes.
Qed.

Lemma strip_cell_no_gokei_sp (s : str) :
  nowhere starts_gokei_sp (_strip_cell s) = true.
Proof.
  unfold _strip_cell.
  apply (kept_from_gokei (fun y => nowhere starts_gokei_sp y = true));
    [exact gokei_sp_edit
    | intros y Hy; rewrite lstrip_drop_while; apply nowhere_skip, Hy |].
  apply step_gokei_establishes.
Qed.

Lemma strip_cell_paren_clean (s : str) :
  paren_clean false false (_strip_cell s) = true.
Proof.
  unfold _strip_cell.
  apply (kept_from_gokei (fun y => paren_clean false false y = true)).
  - intros y y' He. apply (paren_clean_edit ok_next y y' He).
  - intros y. apply (paren_clean_edit ok_any y (lstrip y) (lstrip_edit y)).
  - apply (paren_clean_edit ok_any _ _ (step_gokei_edit _)).
    apply step_paren_establishes.
Qed.

Lemma strip_cell_no_wide_space (s : str) :
  Forall (fun c => c <> 12288%N) (_strip_cell s).
Proof.
  assert (Hk : forall ok y y', edit ok y y' ->
                 Forall (fun c => c <> 12288%N) y ->
                 Forall (fun c => c <> 12288%N) y').
  { intros ok y y'. apply edit_Forall; discriminate. }
  unfold _strip_cell.
  apply (kept_from_gokei (fun y => Forall (fun c => c <> 12288%N) y)).
  - apply (Hk ok_next).
  - intros y. apply (Hk ok_any y (lstrip y) (lstrip_edit y)).
  - apply (Hk ok_any _ _ (step_gokei_edit _)).
    apply (Hk ok_any _ _ (step_paren_edit _)).
    apply step_wide_space_establishes.
Qed.

End NormalisedText.

Lemma second_pass (s : str) :
  Main._strip_cell (Main._strip_cell s)
  = Main.step_collapse (Main.step_ethyl (Main._strip_cell s)).
Proof.
  change (Main._strip_cell (Main._strip_cell s))
    with (Main.step_collapse (Main.step_ethyl (Main.step_kokusai
            (Main.step_gokei (Main.step_paren (Main.step_wide_space
               (Main._strip_cell s))))))).
  rewrite (step_wide_space_fixed _ (strip_cell_no_wide_space s)).
  rewrite (step_paren_fixed _ (strip_cell_paren_clean s)).
  rewrite (step_gokei_fixed _ (strip_cell_no_gokei_sp s)).
  rewrite (step_kokusai_fixed _ (strip_cell_no_sp_kokusai s)).
  reflexivity.
Qed.

(* ================================================================== *)
(** * Further properties of the code *)
(* ================================================================== *)

(** ** The normalised cell *)

Section CellShape.

Import Main.

Lemma squeezed_no_tab (z : str) :
  forall b, squeezed b z = true -> ~ In 9%N z.
Proof.
  induction z as [| c t IH]; intros b H Hin; [exact Hin |].
  cbn [squeezed] in H. destruct Hin as [-> | Hin].
  - change (is_sp_tab 9%N) with true in H. cbn iota in H. discriminate.
  - destruct (is_sp_tab c).
    + apply andb_true_iff in H. destruct H as [_ H]. exact (IH true H Hin).
    + exact (IH false H Hin).
Qed.

Lemma squeezed_no_double_space (z : str) :
  forall b, squeezed b z = true -> contains [32; 32]%N z = false.
Proof.
  induction z as [| c t IH]; intros b H; [reflexivity |].
  cbn [squeezed] in H. cbn [contains].
  assert (Ht : exists b', squeezed b' t = true
                          /\ (char_eqb 32%N c = true -> b' = true)).
  { destruct (is_sp_tab c) eqn:Ec.
    - apply andb_true_iff in H. destruct H as [_ H]. exists true. auto.
    - exists false. split; [exact H |]. intros E. apply char_eqb_eq in E.
      subst c. discriminate. }
  destruct Ht as [b' [Ht Hb]]. rewrite (IH b' Ht), orb_false_r.
  cbn [is_prefix]. destruct (char_eqb 32%N c) eqn:E; [| reflexivity].
  rewrite (Hb eq_refl) in Ht. destruct t as [| c2 t']; [reflexivity |].
  cbn [is_prefix]. destruct (char_eqb 32%N c2) eqn:E2; [| reflexivity].
  apply char_eqb_eq in E2. subst c2. cbn [squeezed] in Ht.
  change (is_sp_tab 32%N) with true in Ht. cbn in Ht. discriminate.
Qed.

Lemma strip_cell_squeezed (s : str) : squeezed false (_strip_cell s) = true.
Proof.
  unfold _strip_cell. rewrite step_collapse_direct.
  apply squeezed_strip, squeezed_squeeze.
Qed.

Lemma strip_cell_stripped (s : str) : strip (_strip_cell s) = _strip_cell s.
Proof.
  unfold _strip_cell, step_collapse. apply strip_idempotent.
Qed.

Lemma paren_clean_suffix (a rest : str) :
  forall o p, paren_clean o p (a ++ rest) = true ->
              exists o' p', paren_clean o' p' rest = true.
Proof.
  induction a as [| c a IH]; intros o p H; [exists o, p; exact H |].
  cbn [app paren_clean] in H.
  destruct (char_eqb c 65289%N).
  - apply andb_true_iff in H. destruct H as [_ H]. exact (IH _ _ H).
  - destruct (char_eqb c 65288%N); [exact (IH _ _ H) |].
    destruct (is_sp_tab_wide c); exact (IH _ _ H).
Qed.

Lemma nowhere_contains (X : str) (f : str -> bool) (s : str) :
  (forall z, is_prefix X z = true -> f z = true) ->
  nowhere f s = true -> contains X s = false.
Proof.
  intros Hf. induction s as [| c t IH]; intros H.
  - cbn [contains]. rewrite orb_false_r.
    destruct (is_prefix X []) eqn:E; [| reflexivity].
    cbn [nowhere] in H. rewrite (Hf [] E) in H. discriminate.
  - apply nowhere_cons in H. destruct H as [Hc Ht].
    cbn [contains]. rewrite (IH Ht), orb_false_r.
    destruct (is_prefix X (c :: t)) eqn:E; [| reflexivity].
    rewrite (Hf _ E) in Hc. discriminate.
Qed.

Lemma is_prefix_app_l (X Y z : str) :
  is_prefix (X ++ Y) z = true ->
  exists r, drop_prefix X z = Some r /\ is_prefix Y r = true.
Proof.
  revert z. induction X as [| x X IH]; intros z H; [exists z; auto |].
  destruct z as [| c z]; [discriminate |].
  cbn [app is_prefix] in H. apply andb_true_iff in H. destruct H as [Hx H].
  cbn [drop_prefix]. rewrite Hx. exact (IH z H).
Qed.

Lemma edit_length (ok : str -> bool) (y y' : str) :
  edit ok y y' -> length y' <= length y.
Proof. induction 1; cbn [length]; lia. Qed.

Lemma visible_space (w : char) : is_space w = true -> visible w = false.
Proof. intros H. unfold visible. rewrite H. reflexivity. Qed.

Lemma edit_visible (ok : str -> bool) (y y' : str) :
  edit ok y y' -> filter visible y' = filter visible y.
Proof.
  induction 1 as [| c y y' _ IH | w y y' Hw _ _ IH
                  | w y y' Hw _ IH | w y y' Hw _ IH].
  - reflexivity.
  - cbn [filter]. rewrite IH. reflexivity.
  - cbn [filter]. rewrite (visible_space w Hw). exact IH.
  - cbn [filter]. rewrite (visible_space w Hw).
    change (visible 44%N) with false. cbn iota. exact IH.
  - cbn [filter]. rewrite (visible_space w (sp_tab_is_space w Hw)).
    change (visible 32%N) with false. cbn iota. exact IH.
Qed.

Lemma visible_unwiden (s : str) :
  filter visible (map unwiden s) = filter visible s.
Proof.
  induction s as [| c t IH]; [reflexivity |].
  cbn [map filter]. rewrite IH. unfold unwiden.
  destruct (char_eqb 12288%N c) eqn:E; [| reflexivity].
  apply char_eqb_eq in E. subst c. reflexivity.
Qed.

End CellShape.

(** Whatever the cell, its normalised text has no full-width space and
    no tab, has no two spaces in a row, and neither starts nor ends with
    white space. *)
Theorem strip_cell_is_single_spaced_and_trimmed (s : str) :
  ~ In 12288%N (Main._strip_cell s)
  /\ ~ In 9%N (Main._strip_cell s)
  /\ contains [32; 32]%N (Main._strip_cell s) = false
  /\ starts_clean (Main._strip_cell s)
  /\ ends_clean (Main._strip_cell s).
Proof.
  split; [| split; [| split; [| split]]].
  - intros Hin.
    pose proof (strip_cell_no_wide_space s) as HF.
    rewrite Forall_forall in HF. exact (HF _ Hin eq_refl).
  - exact (squeezed_no_tab _ false (strip_cell_squeezed s)).
  - exact (squeezed_no_double_space _ false (strip_cell_squeezed s)).
  - rewrite <- strip_cell_stripped. apply strip_starts_clean.
  - rewrite <- strip_cell_stripped. apply strip_ends_clean.
Qed.

(** In a normalised cell no space, tab or full-width space stands
    between a full-width "（" and the next full-width "）". *)
Theorem strip_cell_no_space_inside_parens (s a inner b : str) :
  Main._strip_cell s = a ++ 65288%N :: inner ++ 65289%N :: b ->
  ~ In 65289%N inner ->
  forall c, In c inner -> Main.is_sp_tab_wide c = false.
Proof.
  intros Hs Hin c Hc.
  pose proof (strip_cell_paren_clean s) as H. rewrite Hs in H.
  destruct (paren_clean_suffix a _ false false H) as [o' [p' H']].
  change (paren_clean true p' (inner ++ 65289%N :: b) = true) in H'.
  assert (Hr : forallb Main.not_rparen inner = true).
  { apply forallb_forall. intros x Hx. unfold Main.not_rparen.
    destruct (char_eqb x 65289%N) eqn:E; [| reflexivity].
    apply char_eqb_eq in E. subst x. contradiction. }
  destruct (paren_clean_inner_inv inner b Hr p' H') as [_ [Hw _]].
  rewrite forallb_forall in Hw. apply negb_true_iff. exact (Hw c Hc).
Qed.

Lemma strip_cell_no_space_inside_parens_witness :
  Main._strip_cell (u "x（ a　b ）y") = u "x" ++ 65288%N :: u "ab" ++ 65289%N :: u "y"
  /\ forall c, In c (u "ab") -> Main.is_sp_tab_wide c = false.
Proof.
  split; [vm_compute; reflexivity |].
  apply (strip_cell_no_space_inside_parens (u "x（ a　b ）y") (u "x") (u "ab") (u "y")).
  - vm_compute. reflexivity.
  - vm_compute. intros [H | [H | []]]; discriminate H.
Defined.

(** In a normalised cell the aggregate-total marker "合計量として" is
    never followed by white space, and the international-unit marker
    "国際単位" is never preceded by white space. *)
Theorem strip_cell_markers_are_tight (s : str) (w : char) :
  is_space w = true ->
  contains (GOKEI ++ [w]) (Main._strip_cell s) = false
  /\ contains (w :: KOKUSAI) (Main._strip_cell s) = false.
Proof.
  intros Hw. split.
  - apply (nowhere_contains _ starts_gokei_sp); [| apply strip_cell_no_gokei_sp].
    intros z Hz. destruct (is_prefix_app_l GOKEI [w] z Hz) as [r [Hd Hr]].
    unfold starts_gokei_sp. rewrite Hd.
    destruct r as [| x r]; [discriminate |].
    cbn [is_prefix] in Hr. apply andb_true_iff in Hr. destruct Hr as [Hx _].
    apply char_eqb_eq in Hx. subst x. exact Hw.
  - apply (nowhere_contains _ sp_then_kokusai); [| apply strip_cell_no_sp_kokusai].
    intros z Hz. destruct z as [| x z]; [discriminate |].
    cbn [is_prefix] in Hz. apply andb_true_iff in Hz. destruct Hz as [Hx Hz].
    apply char_eqb_eq in Hx. subst x.
    cbn [sp_then_kokusai]. rewrite Hw. exact Hz.
Qed.

Lemma strip_cell_markers_are_tight_witness :
  is_space 32%N = true
  /\ Main._strip_cell (u " 合計量として  5 国際単位") = u "合計量として5国際単位"
  /\ contains (GOKEI ++ [32%N]) (Main._strip_cell (u " 合計量として  5 国際単位")) = false
  /\ contains (32%N :: KOKUSAI) (Main._strip_cell (u " 合計量として  5 国際単位")) = false.
Proof.
  split; [reflexivity |]. split; [vm_compute; reflexivity |].
  apply (strip_cell_markers_are_tight (u " 合計量として  5 国際単位") 32%N).
  reflexivity.
Defined.

(** The normaliser only deletes white space or writes a comma or a
    space in its place: the normalised cell is never longer than the
    cell, and its characters other than white space and commas are
    those of the cell, in the same order. *)
Theorem strip_cell_keeps_visible_characters (s : str) :
  length (Main._strip_cell s) <= length s
  /\ filter visible (Main._strip_cell s) = filter visible s.
Proof.
  assert (Hk : forall ok y y', edit ok y y' ->
                 length y <= length s /\ filter visible y = filter visible s ->
                 length y' <= length s /\ filter visible y' = filter visible s).
  { intros ok y y' He [Hl Hv]. split.
    - pose proof (edit_length ok y y' He). lia.
    - rewrite (edit_visible ok y y' He). exact Hv. }
  unfold Main._strip_cell.
  apply (kept_from_gokei
           (fun y => length y <= length s /\ filter visible y = filter visible s)).
  - apply (Hk ok_next).
  - intros y. apply (Hk ok_any y (lstrip y) (lstrip_edit y)).
  - apply (Hk ok_any _ _ (step_gokei_edit _)).
    apply (Hk ok_any _ _ (step_paren_edit _)).
    rewrite step_wide_space_direct, length_map, visible_unwiden. split; reflexivity.
Qed.

(** Of the six steps of the normaliser, five change nothing in a
    normalised cell: applying the normaliser to it is applying the
    fix-up before "2－エチル" and the collapse, and the collapse alone
    leaves it unchanged.  So a second application changes a normalised
    cell only where that fix-up still changes it. *)
Theorem second_pass_only_reruns_the_ethyl_fixup (s : str) :
  Main._strip_cell (Main._strip_cell s)
  = Main.step_collapse (Main.step_ethyl (Main._strip_cell s))
  /\ Main.step_collapse (Main._strip_cell s) = Main._strip_cell s
  /\ (str_eqb (Main.step_ethyl (Main._strip_cell s)) (Main._strip_cell s) = false
      \/ Main._strip_cell (Main._strip_cell s) = Main._strip_cell s).
Proof.
  split; [apply second_pass |]. split; [apply strip_cell_collapsed |].
  destruct (str_eqb (Main.step_ethyl (Main._strip_cell s)) (Main._strip_cell s))
    eqn:E; [right | left; reflexivity].
  apply str_eqb_eq in E. rewrite second_pass, E. apply strip_cell_collapsed.
Qed.

(** ** The row filter *)

Section RowFilter.

Import Main.

Lemma filter_idempotent {A : Type} (f : A -> bool) (l : list A) :
  filter f (filter f l) = filter f l.
Proof.
  induction l as [| a l IH]; [reflexivity |].
  cbn [filter]. destruct (f a) eqn:E; [| exact IH].
  cbn [filter]. rewrite E, IH. reflexivity.
Qed.

Lemma lstrip_all_space (s : str) : forallb is_space s = true -> lstrip s = [].
Proof.
  induction s as [| c t IH]; intros H; [reflexivity |].
  cbn [forallb] in H. apply andb_true_iff in H. destruct H as [Hc Ht].
  cbn [lstrip]. rewrite Hc. exact (IH Ht).
Qed.

Lemma strip_all_space (s : str) : forallb is_space s = true -> strip s = [].
Proof. intros H. unfold strip. rewrite (lstrip_all_space s H). reflexivity. Qed.

Lemma filter_all_space (s : str) :
  forallb is_space s = true -> filter (fun c => negb (is_space c)) s = [].
Proof.
  induction s as [| c t IH]; intros H; [reflexivity |].
  cbn [forallb] in H. apply andb_true_iff in H. destruct H as [Hc Ht].
  cbn [filter]. rewrite Hc. exact (IH Ht).
Qed.

Lemma split_tokens_all_space (s : str) :
  forallb is_space s = true -> _split_tokens s = [].
Proof.
  intros H. rewrite split_tokens_words, (strip_all_space s H). reflexivity.
Qed.

Lemma blank_cells_not_counted (row : list str) :
  Forall (fun c => forallb is_space c = true) row ->
  filter is_nonempty_cell (map strip row) = [].
Proof.
  induction 1 as [| c row Hc _ IH]; [reflexivity |].
  cbn [map filter]. rewrite (strip_all_space c Hc). exact IH.
Qed.

Lemma row_records_blank_first (nc : nat) (url : str) (row : list str) :
  _split_tokens (iat row 0) = [] -> row_records nc url row = [].
Proof.
  intros H. unfold row_records. rewrite H. cbn [length].
  change (0 <? 0) with false. rewrite andb_false_r. reflexivity.
Qed.

End RowFilter.

(** The row filter only removes rows, and a frame that went through it
    goes through it again unchanged. *)
Theorem drop_unwanted_rows_idempotent (df : Main.DataFrame) :
  Main.drop_unwanted_rows (Main.drop_unwanted_rows df) = Main.drop_unwanted_rows df
  /\ Main.ncols (Main.drop_unwanted_rows df) = Main.ncols df
  /\ Main.nrows (Main.drop_unwanted_rows df) <= Main.nrows df
  /\ forall row, In row (Main.rows (Main.drop_unwanted_rows df)) ->
                 In row (Main.rows df).
Proof.
  unfold Main.drop_unwanted_rows.
  destruct (Main.empty df) eqn:E.
  - rewrite E. split; [reflexivity |]. split; [reflexivity |].
    split; [apply Nat.le_refl |]. intros row Hin. exact Hin.
  - split; [| split; [reflexivity | split]].
    + match goal with |- context [Main.empty ?d] => destruct (Main.empty d) end;
        [reflexivity |].
      cbn [Main.ncols Main.rows]. rewrite filter_idempotent. reflexivity.
    + unfold Main.nrows. cbn [Main.rows]. apply filter_length_le.
    + intros row Hin. cbn [Main.rows] in Hin.
      apply filter_In in Hin. exact (proj1 Hin).
Qed.

(** A row whose cells are all blank is not noise for the row filter,
    and it yields no record. *)
Theorem blank_row_is_kept_and_yields_nothing
        (row : list str) (nc : nat) (pdf_url : str) :
  Forall (fun c => forallb is_space c = true) row ->
  Main.keep_row row = true /\ Main.row_records nc pdf_url row = [].
Proof.
  intros H. split.
  - unfold Main.keep_row, Main.is_digit_row.
    rewrite (blank_cells_not_counted row H). cbn [length filter].
    change (0 <? 0) with false. cbn [andb orb].
    unfold Main.is_seibunmei. destruct H as [| c row Hc _]; [reflexivity |].
    rewrite norm_no_space_filter, (filter_all_space c Hc). reflexivity.
  - apply row_records_blank_first. unfold Main.iat.
    destruct H as [| c row Hc _]; [reflexivity |].
    cbn [nth]. exact (split_tokens_all_space c Hc).
Qed.

Lemma blank_row_is_kept_and_yields_nothing_witness :
  Forall (fun c => forallb is_space c = true) [u " "; u ""; u "　 "]
  /\ Main.keep_row [u " "; u ""; u "　 "] = true
  /\ Main.row_records 3 (u "https://example.test/a.pdf") [u " "; u ""; u "　 "] = [].
Proof.
  assert (H : Forall (fun c => forallb is_space c = true) [u " "; u ""; u "　 "]).
  { repeat constructor. }
  split; [exact H |].
  apply (blank_row_is_kept_and_yields_nothing
           [u " "; u ""; u "　 "] 3 (u "https://example.test/a.pdf") H).
Defined.

(** ** Tokens *)

Section TokenRoundTrip.

Import Main.

Lemma concat_words_go (p : char -> bool) (s : str) :
  forall cur, concat (words_go p cur s) = cur ++ filter (fun c => negb (p c)) s.
Proof.
  induction s as [| c t IH]; intros cur.
  - cbn [words_go filter]. rewrite app_nil_r.
    destruct cur; [reflexivity |]. cbn [concat]. apply app_nil_r.
  - cbn [words_go filter]. destruct (p c); cbn [negb].
    + destruct cur as [| x cur]; [apply IH |].
      cbn [concat]. rewrite IH. reflexivity.
    + rewrite IH, <- app_assoc. reflexivity.
Qed.

Lemma filter_nonspace_strip (s : str) :
  filter (fun c => negb (is_space c)) (strip s)
  = filter (fun c => negb (is_space c)) s.
Proof.
  destruct (strip_split s) as [a [b [Hs [Ha Hb]]]].
  rewrite Hs at 2. rewrite !filter_app.
  rewrite (filter_all_space a Ha), (filter_all_space b Hb), app_nil_r.
  reflexivity.
Qed.

Lemma concat_split_tokens (s : str) :
  concat (_split_tokens s) = filter (fun c => negb (is_space c)) s.
Proof.
  rewrite split_tokens_words. unfold words.
  rewrite concat_words_go. cbn [app]. apply filter_nonspace_strip.
Qed.

Lemma split_join_any (toks : list str) :
  Forall token_or_empty toks ->
  _split_tokens (_join_tokens toks) = filter nonempty toks.
Proof.
  intros H. unfold _join_tokens.
  apply split_join_tokens, tokens_or_empty_filter, H.
Qed.

Lemma split_tokens_nil_iff (s : str) :
  _split_tokens s = [] <-> forallb is_space s = true.
Proof.
  split; [| apply split_tokens_all_space].
  intros H. pose proof (concat_split_tokens s) as Hc. rewrite H in Hc.
  cbn [concat] in Hc. apply forallb_forall. intros c Hin.
  destruct (is_space c) eqn:E; [reflexivity |]. exfalso.
  assert (Hf : In c (filter (fun c => negb (is_space c)) s)).
  { apply filter_In. split; [exact Hin |]. rewrite E. reflexivity. }
  rewrite <- Hc in Hf. exact Hf.
Qed.

End TokenRoundTrip.

(** The tokens of a cell are non-empty and free of white space, and
    together they are the characters of the cell other than white
    space, in order; a cell has no token exactly when it is blank. *)
Theorem split_tokens_keeps_the_text (s : str) :
  Forall is_token (Main._split_tokens s)
  /\ concat (Main._split_tokens s) = filter (fun c => negb (is_space c)) s
  /\ Nat.eqb (length (Main._split_tokens s)) 0 = forallb is_space s.
Proof.
  split; [apply split_tokens_are_tokens |].
  split; [apply concat_split_tokens |].
  destruct (forallb is_space s) eqn:E.
  - apply split_tokens_nil_iff in E. rewrite E. reflexivity.
  - destruct (Main._split_tokens s) eqn:Et; [| reflexivity].
    apply split_tokens_nil_iff in Et. congruence.
Qed.

(** Joining and splitting again gives the tokens back: from a list of
    tokens and empty paddings, the non-empty ones in order. *)
Theorem split_of_join_gives_tokens_back (toks : list str) :
  Forall token_or_empty toks ->
  Main._split_tokens (Main._join_tokens toks) = filter nonempty toks.
Proof. apply split_join_any. Qed.

Lemma split_of_join_gives_tokens_back_witness :
  Forall token_or_empty [u "a"; u ""; u "12ｇ"]
  /\ Main._split_tokens (Main._join_tokens [u "a"; u ""; u "12ｇ"])
     = [u "a"; u "12ｇ"].
Proof.
  assert (H : Forall token_or_empty [u "a"; u ""; u "12ｇ"]).
  { constructor; [right; split; [discriminate | reflexivity] |].
    constructor; [left; reflexivity |].
    constructor; [right; split; [discriminate | reflexivity] | constructor]. }
  split; [exact H |].
  exact (split_of_join_gives_tokens_back [u "a"; u ""; u "12ｇ"] H).
Defined.

(** ** The token move *)

Section MoveResult.

Import Main.

Lemma pop_at_middle (pre : list str) (x : str) (r : list str) :
  pop_at (length pre) (pre ++ x :: r) = pre ++ r.
Proof.
  unfold pop_at.
  rewrite firstn_app, firstn_all, Nat.sub_diag. cbn [firstn]. rewrite app_nil_r.
  change (S (length pre)) with (1 + length pre).
  rewrite <- skipn_skipn, skipn_app, skipn_all, Nat.sub_diag. reflexivity.
Qed.

Lemma insert_at_permutation (p : nat) (x : str) (L : list str) :
  x <> [] ->
  Permutation (filter nonempty (insert_at p x L)) (x :: filter nonempty L).
Proof.
  intros Hx. unfold insert_at. rewrite filter_app. cbn [filter].
  destruct x as [| c x]; [contradiction |]. cbn [nonempty].
  rewrite <- (firstn_skipn p L) at 3. rewrite filter_app.
  symmetry. apply Permutation_middle.
Qed.

Lemma filter_nonempty_padded (L : list str) (k : nat) :
  filter nonempty (L ++ repeat [] k) = filter nonempty L.
Proof. rewrite filter_app, filter_nonempty_repeat. apply app_nil_r. Qed.

Lemma move_step_zero (st : list str * list str) : move_step st 0 = st.
Proof. destruct st. reflexivity. Qed.

Lemma move_fold_hits (suffix : list str) :
  forall (pre c2 : list str),
    1 <= length pre ->
    fst (move_fold (hits_from (length pre) suffix) (pre ++ suffix, c2))
    = pre ++ filter (fun tok => negb (re_match _TOKEN_IS_AMOUNT tok)) suffix
    /\ Permutation
         (filter nonempty
            (snd (move_fold (hits_from (length pre) suffix) (pre ++ suffix, c2))))
         (filter (re_match _TOKEN_IS_AMOUNT) suffix ++ filter nonempty c2).
Proof.
  induction suffix as [| tok rest IH]; intros pre c2 Hpre.
  - cbn [hits_from move_fold fold_right fst snd filter app].
    split; reflexivity.
  - assert (Hlen : length (pre ++ [tok]) = S (length pre)).
    { rewrite length_app. cbn [length]. lia. }
    destruct (IH (pre ++ [tok]) c2 ltac:(lia)) as [IH1 IH2].
    rewrite Hlen, <- app_assoc in IH1, IH2. cbn [app] in IH1, IH2.
    cbn [hits_from filter].
    destruct (re_match _TOKEN_IS_AMOUNT tok) eqn:Et; cbn [negb].
    + cbn [move_fold fold_right].
      change (fold_right (fun h s => move_step s h) (pre ++ tok :: rest, c2)
                (hits_from (S (length pre)) rest))
        with (move_fold (hits_from (S (length pre)) rest) (pre ++ tok :: rest, c2)).
      destruct (move_fold (hits_from (S (length pre)) rest) (pre ++ tok :: rest, c2))
        as [a b] eqn:Est.
      cbn [fst snd] in IH1, IH2. subst a.
      destruct (length pre) as [| p] eqn:Ep; [lia |].
      cbn [move_step fst snd]. rewrite <- Ep.
      rewrite <- app_assoc. cbn [app]. split.
      * apply pop_at_middle.
      * rewrite nth_middle.
        etransitivity;
          [apply insert_at_permutation;
           apply (amount_token_nonempty tok Et) |].
        cbn [app]. apply perm_skip.
        destruct (length b <? p); [rewrite filter_nonempty_padded |]; exact IH2.
    + split; [rewrite IH1, <- app_assoc; reflexivity | exact IH2].
Qed.

Lemma move_tokens_result (c1 c2 : list str) :
  fst (move_tokens c1 c2)
  = match c1 with
    | [] => []
    | h :: t => h :: filter (fun tok => negb (re_match _TOKEN_IS_AMOUNT tok)) t
    end
  /\ Permutation (filter nonempty (snd (move_tokens c1 c2)))
                 (filter (re_match _TOKEN_IS_AMOUNT) (tl c1) ++ filter nonempty c2).
Proof.
  rewrite move_tokens_fold. destruct c1 as [| h t].
  - cbn. split; reflexivity.
  - unfold hits. cbn [hits_from tl].
    pose proof (move_fold_hits t [h] c2 (Nat.le_refl 1)) as H.
    cbn [length app] in H.
    destruct (re_match _TOKEN_IS_AMOUNT h); [| exact H].
    cbn [move_fold fold_right]. rewrite move_step_zero. exact H.
Qed.

Lemma move_tokens_tokens (c1 c2 : list str) :
  Forall is_token c1 -> Forall is_token c2 ->
  Forall is_token (fst (move_tokens c1 c2))
  /\ Forall token_or_empty (snd (move_tokens c1 c2)).
Proof.
  intros H1 H2. rewrite move_tokens_fold.
  apply move_fold_tokens; [exact H1 | apply Forall_token_weaken, H2].
Qed.

End MoveResult.

(** After the token move the first cell of a row holds its first token
    and, of the tokens after it, those that are not amount tokens, in
    order; the cells from the third on are untouched. *)
Theorem move_row_left_column (a b : str) (rest : list str) :
  Main._split_tokens (Main.iat (Main.move_row (a :: b :: rest)) 0)
  = match Main._split_tokens a with
    | [] => []
    | h :: t => h :: filter (fun tok => negb (re_match Main._TOKEN_IS_AMOUNT tok)) t
    end
  /\ skipn 2 (Main.move_row (a :: b :: rest)) = rest.
Proof.
  cbn [Main.move_row].
  pose proof (move_tokens_result (Main._split_tokens a) (Main._split_tokens b)) as [Hf _].
  pose proof (move_tokens_tokens (Main._split_tokens a) (Main._split_tokens b)
                (split_tokens_are_tokens a) (split_tokens_are_tokens b)) as [Ht _].
  destruct (Main.move_tokens (Main._split_tokens a) (Main._split_tokens b))
    as [c1 c2].
  cbn [fst] in Hf, Ht. cbn [Main.iat nth skipn]. split; [| reflexivity].
  rewrite (split_join_any c1 (Forall_token_weaken c1 Ht)).
  rewrite (filter_nonempty_tokens c1 Ht). exact Hf.
Qed.

(** After the token move the second cell of a row holds its own tokens
    and the amount tokens that stood after the first token of the first
    cell, each exactly once: no token is lost, duplicated or made up. *)
Theorem move_row_right_column (a b : str) (rest : list str) :
  Permutation
    (Main._split_tokens (Main.iat (Main.move_row (a :: b :: rest)) 1))
    (filter (re_match Main._TOKEN_IS_AMOUNT) (tl (Main._split_tokens a))
       ++ Main._split_tokens b).
Proof.
  cbn [Main.move_row].
  pose proof (move_tokens_result (Main._split_tokens a) (Main._split_tokens b)) as [_ Hp].
  pose proof (move_tokens_tokens (Main._split_tokens a) (Main._split_tokens b)
                (split_tokens_are_tokens a) (split_tokens_are_tokens b)) as [_ Ht].
  destruct (Main.move_tokens (Main._split_tokens a) (Main._split_tokens b))
    as [c1 c2].
  cbn [snd] in Hp, Ht. cbn [Main.iat nth].
  rewrite (split_join_any c2 Ht).
  rewrite (filter_nonempty_tokens _ (split_tokens_are_tokens b)) in Hp.
  exact Hp.
Qed.

(** ** Records of a row *)

Section RecordFields.

Import Main.

Lemma record_2col_fields (name cond : str) (eq : bool) (raw pdf_url : str) :
  let r := record_2col name cond eq raw pdf_url in
  seibunn r = name
  /\ 条件 r = (if negb eq then cond else [])
  /\ url r = pdf_url
  /\ ryou1 r = _strip_units_for_ryou (fst (_strip_gokei_and_flag raw))
  /\ ryou2 r = [] /\ ryou3 r = [] /\ ryou4 r = []
  /\ bikou r = (if contains GOKEI raw then GOKEI else [])
  /\ (tanni r = [] \/ tanni r = G_ASCII \/ tanni r = KOKUSAI).
Proof.
  unfold record_2col, _strip_gokei_and_flag.
  destruct (contains GOKEI raw); cbn -[_strip_units_for_ryou _contains_haigou_fuka
                                       _has_kokusai_tanni];
    (repeat (split; [reflexivity |]));
    destruct (_contains_haigou_fuka _); auto;
    destruct (_has_kokusai_tanni _); auto.
Qed.

Lemma first_gokei_cases (cands : list str) :
  (fst (first_gokei cands) = [] /\ snd (first_gokei cands) = false)
  \/ snd (first_gokei cands) = true.
Proof.
  induction cands as [| c rest IH]; [left; split; reflexivity |].
  cbn [first_gokei]. unfold _strip_gokei_and_flag.
  destruct (contains GOKEI c); [right; reflexivity | exact IH].
Qed.

Lemma record_4col_fields (name cond : str) (eq : bool) (v2 v3 v4 pdf_url : str) :
  let r := record_4col name cond eq v2 v3 v4 pdf_url in
  seibunn r = name
  /\ 条件 r = (if negb eq then cond else [])
  /\ url r = pdf_url
  /\ ryou2 r = _strip_units_for_ryou v2
  /\ ryou3 r = _strip_units_for_ryou v3
  /\ ryou4 r = _strip_units_for_ryou v4
  /\ (bikou r = [] \/ bikou r = GOKEI)
  /\ (bikou r = GOKEI \/ ryou1 r = [])
  /\ (tanni r = [] \/ tanni r = G_ASCII \/ tanni r = KOKUSAI)
  /\ (ryou1 r = [] \/ exists x, ryou1 r = _strip_units_for_ryou x).
Proof.
  unfold record_4col.
  destruct (first_gokei_cases [v2; v3; v4]) as [[Hf Hs] | Hs];
    destruct (first_gokei [v2; v3; v4]) as [r1_raw had_g];
    cbn [fst snd] in *; subst;
    cbn -[_strip_units_for_ryou _contains_haigou_fuka _has_kokusai_tanni
          _strip_gokei_and_flag];
    (repeat (split; [reflexivity |])).
  - split; [left; reflexivity |]. split; [right; reflexivity |].
    split; [| left; reflexivity].
    destruct (_contains_haigou_fuka _); auto;
      destruct (_has_kokusai_tanni _); auto.
  - split; [right; reflexivity |]. split; [left; reflexivity |].
    split.
    + destruct (_contains_haigou_fuka _); auto;
        destruct (_has_kokusai_tanni _); auto.
    + destruct (nonempty r1_raw); [right; eexists; reflexivity | left; reflexivity].
Qed.

Lemma map_tok_at_seq (c : list str) :
  map (fun i => tok_at c i) (seq 0 (length c)) = c.
Proof.
  unfold tok_at. induction c as [| x c IH]; [reflexivity |].
  cbn [length seq map nth]. f_equal.
  rewrite <- seq_shift, map_map. exact IH.
Qed.

End RecordFields.

Section RowRecords.

Import Main.

(** The left tokens that become names, and the condition of the row. *)
Lemma row_records_view (nc : nat) (pdf_url : str) (row : list str) :
  let c1 := _split_tokens (iat row 0) in
  let c2 := if 2 <=? nc then _split_tokens (iat row 1) else [] in
  let c3 := if 3 <=? nc then _split_tokens (iat row 2) else [] in
  let c4 := if 4 <=? nc then _split_tokens (iat row 3) else [] in
  let eq := Nat.eqb (length c1) (length c2) in
  let names := if eq then c1 else tl c1 in
  let cond := if eq then [] else hd [] c1 in
  row_records nc pdf_url row
  = map (fun i =>
           if negb (4 <=? nc)
           then record_2col (tok_at names i) cond eq (tok_at c2 i) pdf_url
           else record_4col (tok_at names i) cond eq
                  (tok_at c2 i) (tok_at c3 i) (tok_at c4 i) pdf_url)
        (seq 0 (length names)).
Proof.
  unfold row_records.
  generalize (_split_tokens (iat row 0)) as c1.
  generalize (if 2 <=? nc then _split_tokens (iat row 1) else []) as c2.
  intros c2 c1. cbv zeta.
  destruct (Nat.eqb (length c1) (length c2)) eqn:E; cbn [negb andb].
  - reflexivity.
  - destruct c1 as [| h t]; reflexivity.
Qed.

Lemma row_records_names (nc : nat) (pdf_url : str) (row : list str) :
  let c1 := _split_tokens (iat row 0) in
  let c2 := if 2 <=? nc then _split_tokens (iat row 1) else [] in
  map seibunn (row_records nc pdf_url row)
  = (if Nat.eqb (length c1) (length c2) then c1 else tl c1)
  /\ Forall (fun r => 条件 r
                      = if Nat.eqb (length c1) (length c2) then [] else hd [] c1)
            (row_records nc pdf_url row).
Proof.
  cbv zeta. rewrite row_records_view. cbv zeta.
  set (c1 := _split_tokens (iat row 0)).
  set (c2 := if 2 <=? nc then _split_tokens (iat row 1) else []).
  set (eq := Nat.eqb (length c1) (length c2)).
  set (names := if eq then c1 else tl c1).
  split.
  - rewrite map_map. rewrite <- (map_tok_at_seq names) at 2.
    apply map_ext. intros i.
    destruct (negb (4 <=? nc));
      [apply (record_2col_fields) | apply (record_4col_fields)].
  - apply Forall_forall. intros r Hin. apply in_map_iff in Hin.
    destruct Hin as [i [<- _]].
    destruct (negb (4 <=? nc)).
    + destruct (record_2col_fields (tok_at names i)
                  (if eq then [] else hd [] c1) eq (tok_at c2 i) pdf_url)
        as [_ [H _]].
      rewrite H. destruct eq; reflexivity.
    + destruct (record_4col_fields (tok_at names i)
                  (if eq then [] else hd [] c1) eq (tok_at c2 i)
                  (tok_at (if 3 <=? nc then _split_tokens (iat row 2) else []) i)
                  (tok_at (if 4 <=? nc then _split_tokens (iat row 3) else []) i)
                  pdf_url)
        as [_ [H _]].
      rewrite H. destruct eq; reflexivity.
Qed.

End RowRecords.

(** A row gives one record per token of its first cell when the first
    two cells have equally many tokens.  Otherwise the first token of
    the first cell is the condition of every record of the row, and the
    tokens after it are the names. *)
Theorem row_records_names_and_condition
        (nc : nat) (pdf_url : str) (row : list str) :
  let c1 := Main._split_tokens (Main.iat row 0) in
  let c2 := if 2 <=? nc then Main._split_tokens (Main.iat row 1) else [] in
  map Main.seibunn (Main.row_records nc pdf_url row)
  = (if Nat.eqb (length c1) (length c2) then c1 else tl c1)
  /\ Forall (fun r => Main.条件 r
                      = if Nat.eqb (length c1) (length c2) then [] else hd [] c1)
            (Main.row_records nc pdf_url row).
Proof. exact (row_records_names nc pdf_url row). Qed.

(** ** The squash of an over-split first cell *)

Section Squash.

Import Main.

Lemma spaceless_app (x y : str) :
  spaceless (x ++ y) = spaceless x && spaceless y.
Proof. unfold spaceless. apply forallb_app. Qed.

Lemma concat_tokens_is_token (c : list str) :
  Forall is_token c -> c <> [] -> is_token (concat c).
Proof.
  intros H Hne. destruct H as [| t c [Ht1 Ht2] Hc]; [contradiction |].
  split.
  - cbn [concat]. destruct t; [contradiction | discriminate].
  - clear Hne. cbn [concat]. rewrite spaceless_app, Ht2. cbn [andb].
    induction Hc as [| x c [_ Hx] _ IH]; [reflexivity |].
    cbn [concat]. rewrite spaceless_app, Hx. exact IH.
Qed.

Lemma split_of_token (t : str) : is_token t -> _split_tokens t = [t].
Proof.
  intros H. apply (split_join_tokens [t]). constructor; [exact H | constructor].
Qed.

Lemma squash_row_idem (row : list str) :
  squash_row (squash_row row) = squash_row row.
Proof.
  destruct row as [| a [| b rest]]; [reflexivity | reflexivity |].
  cbn [squash_row].
  destruct ((3 <=? length (_split_tokens a))
            && Nat.eqb (length (_split_tokens b)) 1) eqn:E.
  - apply andb_true_iff in E. destruct E as [E1 _]. apply Nat.leb_le in E1.
    cbn [squash_row].
    rewrite (split_of_token (concat (_split_tokens a))).
    + reflexivity.
    + apply concat_tokens_is_token; [apply split_tokens_are_tokens |].
      intros Hn. rewrite Hn in E1. cbn [length] in E1. lia.
  - cbn [squash_row]. rewrite E. reflexivity.
Qed.

End Squash.

(** A row whose first cell has three tokens or more and whose second
    has exactly one gets its first cell squashed to one token, the
    concatenation of its tokens; it then gives exactly one record, named
    by that token and without a condition. *)
Theorem squashed_row_gives_one_record
        (a b : str) (rest : list str) (nc : nat) (pdf_url : str) :
  3 <= length (Main._split_tokens a) ->
  length (Main._split_tokens b) = 1 ->
  2 <= nc ->
  Main.squash_row (a :: b :: rest) = concat (Main._split_tokens a) :: b :: rest
  /\ Main._split_tokens (concat (Main._split_tokens a))
     = [concat (Main._split_tokens a)]
  /\ map Main.seibunn (Main.row_records nc pdf_url (Main.squash_row (a :: b :: rest)))
     = [concat (Main._split_tokens a)]
  /\ map Main.条件 (Main.row_records nc pdf_url (Main.squash_row (a :: b :: rest)))
     = [[]].
Proof.
  intros H3 H1 Hnc.
  assert (Hsq : Main.squash_row (a :: b :: rest)
                = concat (Main._split_tokens a) :: b :: rest).
  { cbn [Main.squash_row]. rewrite H1.
    destruct (3 <=? length (Main._split_tokens a)) eqn:E; [reflexivity |].
    apply Nat.leb_gt in E. lia. }
  assert (Htok : Main._split_tokens (concat (Main._split_tokens a))
                 = [concat (Main._split_tokens a)]).
  { apply split_of_token, concat_tokens_is_token;
      [apply split_tokens_are_tokens |].
    intros Hn. rewrite Hn in H3. cbn [length] in H3. lia. }
  split; [exact Hsq |]. split; [exact Htok |].
  destruct (row_records_names nc pdf_url (Main.squash_row (a :: b :: rest)))
    as [Hn Hc].
  rewrite Hsq in *. cbn [Main.iat nth] in Hn, Hc.
  assert (E2 : (2 <=? nc) = true) by (apply Nat.leb_le; exact Hnc).
  rewrite E2, Htok, H1 in Hn, Hc. cbn [length Nat.eqb] in Hn, Hc.
  split; [exact Hn |].
  destruct (Main.row_records nc pdf_url (concat (Main._split_tokens a) :: b :: rest))
    as [| r [| r2 rs]]; try discriminate Hn.
  inversion Hc as [| ? ? Hr _]. cbn [map]. rewrite Hr. reflexivity.
Qed.

Lemma squashed_row_gives_one_record_witness :
  3 <= length (Main._split_tokens (u "ポリ オキシ エチレン"))
  /\ length (Main._split_tokens (u "5ｇ")) = 1
  /\ 2 <= 2
  /\ map Main.seibunn
         (Main.row_records 2 (u "https://example.test/a.pdf")
            (Main.squash_row [u "ポリ オキシ エチレン"; u "5ｇ"]))
     = [concat (Main._split_tokens (u "ポリ オキシ エチレン"))].
Proof.
  assert (H3 : 3 <= length (Main._split_tokens (u "ポリ オキシ エチレン"))).
  { vm_compute. apply le_n. }
  assert (H1 : length (Main._split_tokens (u "5ｇ")) = 1) by (vm_compute; reflexivity).
  split; [exact H3 |]. split; [exact H1 |]. split; [apply le_n |].
  exact (proj1 (proj2 (proj2
           (squashed_row_gives_one_record
              (u "ポリ オキシ エチレン") (u "5ｇ") [] 2
              (u "https://example.test/a.pdf") H3 H1 (le_n 2))))).
Defined.

(** The squash changes nothing but the first cell, and a squashed row
    is squashed no further. *)
Theorem squash_row_idempotent (row : list str) :
  Main.squash_row (Main.squash_row row) = Main.squash_row row
  /\ tl (Main.squash_row row) = tl row.
Proof.
  split; [apply squash_row_idem |].
  destruct row as [| a [| b rest]]; [reflexivity | reflexivity |].
  cbn [Main.squash_row].
  destruct ((3 <=? length (Main._split_tokens a))
            && Nat.eqb (length (Main._split_tokens b)) 1); reflexivity.
Qed.

Section RecordInvariants.

Import Main.

Lemma tok_at_names_token (names : list str) (i : nat) :
  Forall is_token names -> i < length names -> is_token (tok_at names i).
Proof.
  intros H Hi. rewrite Forall_forall in H. apply H. apply tok_at_in, Hi.
Qed.

Lemma row_records_fields (nc : nat) (pdf_url : str) (row : list str) :
  Forall (fun r =>
            is_token (seibunn r)
            /\ url r = pdf_url
            /\ (tanni r = [] \/ tanni r = G_ASCII \/ tanni r = KOKUSAI)
            /\ (bikou r = [] \/ bikou r = GOKEI)
            /\ (4 <= nc \/ (ryou2 r = [] /\ ryou3 r = [] /\ ryou4 r = []))
            /\ (nc < 4 \/ bikou r = GOKEI \/ ryou1 r = []))
         (row_records nc pdf_url row).
Proof.
  rewrite row_records_view. cbv zeta.
  set (c1 := _split_tokens (iat row 0)).
  set (c2 := if 2 <=? nc then _split_tokens (iat row 1) else []).
  set (eq := Nat.eqb (length c1) (length c2)).
  set (names := if eq then c1 else tl c1).
  assert (Hnames : Forall is_token names).
  { subst names. pose proof (split_tokens_are_tokens (iat row 0)) as H.
    fold c1 in H. destruct eq; [exact H |].
    destruct c1; [constructor | inversion H; assumption]. }
  apply Forall_forall. intros r Hin. apply in_map_iff in Hin.
  destruct Hin as [i [<- Hi]]. apply in_seq in Hi.
  assert (Hname : is_token (tok_at names i)).
  { apply tok_at_names_token; [exact Hnames | lia]. }
  destruct (4 <=? nc) eqn:E4; cbn [negb].
  - apply Nat.leb_le in E4.
    match goal with |- context [record_4col ?n ?c ?e ?a ?b ?d ?w] =>
      destruct (record_4col_fields n c e a b d w)
        as [F1 [_ [F3 [_ [_ [_ [F7 [F8 [F9 _]]]]]]]]]
    end.
    rewrite F1, F3. split; [exact Hname |]. split; [reflexivity |].
    split; [exact F9 |]. split; [exact F7 |]. split; [left; exact E4 |].
    right. exact F8.
  - apply Nat.leb_gt in E4.
    match goal with |- context [record_2col ?n ?c ?e ?a ?w] =>
      destruct (record_2col_fields n c e a w)
        as [F1 [_ [F3 [_ [F5 [F6 [F7 [F8 F9]]]]]]]]
    end.
    rewrite F1, F3, F5, F6, F7, F8. split; [exact Hname |].
    split; [reflexivity |]. split; [exact F9 |].
    split; [destruct (contains GOKEI _); auto |].
    split; [right; repeat split | left; exact E4].
Qed.

Lemma Forall_flat_map_intro {A B : Type} (P : B -> Prop) (f : A -> list B)
      (l : list A) :
  (forall a, In a l -> Forall P (f a)) -> Forall P (flat_map f l).
Proof.
  intros H. induction l as [| a l IH]; [constructor |].
  cbn [flat_map]. apply Forall_app. split.
  - apply H. left. reflexivity.
  - apply IH. intros x Hx. apply H. right. exact Hx.
Qed.

End RecordInvariants.

(** Every record made from a frame has a non-empty name without white
    space and the URL it was given; its unit is empty, "g" or
    "国際単位"; its note is empty or "合計量として".  Below four
    columns the amounts 2 to 4 are empty; from four columns on the
    amount 1 is filled only together with the note. *)
Theorem df_to_records_fields (df : Main.DataFrame) (pdf_url : str) :
  Forall (fun r =>
            is_token (Main.seibunn r)
            /\ Main.url r = pdf_url
            /\ (Main.tanni r = [] \/ Main.tanni r = G_ASCII \/ Main.tanni r = KOKUSAI)
            /\ (Main.bikou r = [] \/ Main.bikou r = GOKEI)
            /\ (4 <= Main.ncols df
                \/ (Main.ryou2 r = [] /\ Main.ryou3 r = [] /\ Main.ryou4 r = []))
            /\ (Main.ncols df < 4 \/ Main.bikou r = GOKEI \/ Main.ryou1 r = []))
         (Main.df_to_records df pdf_url).
Proof.
  unfold Main.df_to_records. destruct (Main.empty df); [constructor |].
  apply Forall_flat_map_intro. intros row _. apply row_records_fields.
Qed.

(** ** Where a match can end *)

Section EngineSound.

Lemma greedy_sound (p : char -> bool) (s : str) :
  forall pos q r, In (q, r) (greedy p pos s) ->
                  exists k, q = pos + k /\ r = skipn k s /\ k <= length s.
Proof.
  induction s as [| c t IH]; intros pos q r Hin.
  - cbn [greedy] in Hin. destruct Hin as [H | []]. inversion H; subst.
    exists 0. split; [lia | split; [reflexivity | apply le_n]].
  - cbn [greedy] in Hin.
    assert (Hhere : (pos, c :: t) = (q, r) ->
                    exists k, q = pos + k /\ r = skipn k (c :: t)
                              /\ k <= length (c :: t)).
    { intros H. inversion H; subst. exists 0.
      split; [lia | split; [reflexivity | cbn [length]; lia]]. }
    destruct (p c).
    + apply in_app_iff in Hin. destruct Hin as [Hin | [H | []]]; [| exact (Hhere H)].
      destruct (IH (S pos) q r Hin) as [k [Hq [Hr Hk]]].
      exists (S k). split; [lia | split; [exact Hr | cbn [length]; lia]].
    + destruct Hin as [H | []]. exact (Hhere H).
Qed.

(** A match consumes a prefix of the text ahead. *)
Lemma exec_sound (r : regex) :
  forall st e, In e (exec r st) ->
               exists k, m_pos e = m_pos st + k
                         /\ m_rest e = skipn k (m_rest st)
                         /\ k <= length (m_rest st).
Proof.
  assert (Hstay : forall st : mstate,
             exists k, m_pos st = m_pos st + k
                       /\ m_rest st = skipn k (m_rest st)
                       /\ k <= length (m_rest st)).
  { intros st. exists 0. split; [lia | split; [reflexivity | lia]]. }
  induction r as [l | p | r1 IH1 r2 IH2 | r1 IH1 r2 IH2 | r' IH | p | p
                  | | | r' IH | r' IH]; intros st e Hin; cbn [exec] in Hin.
  - destruct (drop_prefix l (m_rest st)) as [rest |] eqn:E; [| destruct Hin].
    destruct Hin as [<- | []]. cbn [m_pos m_rest].
    apply drop_prefix_some in E. exists (length l).
    split; [reflexivity |]. rewrite E. split.
    + rewrite skipn_app, skipn_all, Nat.sub_diag. reflexivity.
    + rewrite length_app. lia.
  - destruct (m_rest st) as [| c t] eqn:E; [destruct Hin |].
    destruct (p c); [| destruct Hin]. destruct Hin as [<- | []].
    cbn [m_pos m_rest]. exists 1.
    split; [lia | split; [reflexivity | cbn [length]; lia]].
  - apply in_flat_map in Hin. destruct Hin as [mid [H1 H2]].
    destruct (IH1 st mid H1) as [k1 [Hp1 [Hr1 Hk1]]].
    destruct (IH2 mid e H2) as [k2 [Hp2 [Hr2 Hk2]]].
    exists (k1 + k2). rewrite Hr1 in Hr2, Hk2. rewrite length_skipn in Hk2.
    split; [lia |]. split; [| lia].
    rewrite Hr2, skipn_skipn. f_equal. lia.
  - apply in_app_iff in Hin. destruct Hin as [H | H]; [exact (IH1 st e H) | exact (IH2 st e H)].
  - apply in_app_iff in Hin. destruct Hin as [H | [<- | []]];
      [exact (IH st e H) | apply Hstay].
  - destruct (m_rest st) as [| c t] eqn:E; [destruct Hin |].
    destruct (p c); [| destruct Hin].
    apply in_map_iff in Hin. destruct Hin as [[q r] [<- Hg]].
    destruct (greedy_sound p t (S (m_pos st)) q r Hg) as [k [Hq [Hr Hk]]].
    cbn [m_pos m_rest fst snd]. exists (S k).
    split; [lia | split; [exact Hr | cbn [length]; lia]].
  - apply in_map_iff in Hin. destruct Hin as [[q r] [<- Hg]].
    destruct (greedy_sound p (m_rest st) (m_pos st) q r Hg) as [k [Hq [Hr Hk]]].
    cbn [m_pos m_rest fst snd]. exists k. auto.
  - destruct (Nat.eqb (m_pos st) 0); [| destruct Hin].
    destruct Hin as [<- | []]. apply Hstay.
  - destruct (m_rest st) as [| c [| c2 t]] eqn:E.
    + destruct Hin as [<- | []]. rewrite <- E. apply Hstay.
    + destruct (char_eqb c 10%N); [| destruct Hin].
      destruct Hin as [<- | []]. rewrite <- E. apply Hstay.
    + destruct Hin.
  - destruct (exec r' st); [destruct Hin |].
    destruct Hin as [<- | []]. apply Hstay.
  - apply in_map_iff in Hin. destruct Hin as [e' [<- He']].
    cbn [m_pos m_rest]. exact (IH st e' He').
Qed.

Lemma match_at_sound (r : regex) (pos : nat) (s : str) (e : mstate) :
  match_at r pos s = Some e ->
  exists k, m_pos e = pos + k /\ m_rest e = skipn k s /\ k <= length s.
Proof.
  unfold match_at. intros H.
  assert (Hin : In e (exec r (MState pos None s))).
  { destruct (exec r (MState pos None s)) as [| x l]; [discriminate |].
    cbn [hd_error] in H. inversion H; subst. left. reflexivity. }
  exact (exec_sound r _ e Hin).
Qed.

Lemma re_sub_nil (r : regex) (t : str) : re_sub r (tmpl t) [] = [] \/ re_sub r (tmpl t) [] = t.
Proof.
  unfold re_sub. cbn [sub_go]. destruct (match_at r 0 []); [right | left]; reflexivity.
Qed.

Lemma re_sub_empty_match (r : regex) (repl : option str -> str -> str)
      (c : char) (t : str) (e : mstate) :
  bol_free r = true ->
  match_at r 0 (c :: t) = Some e -> m_pos e = 0 ->
  re_sub r repl (c :: t) = repl (m_grp e) [] ++ c :: re_sub r repl t.
Proof.
  intros Hb Hm Hp. unfold re_sub. cbn [sub_go]. rewrite Hm, Hp. cbn [Nat.sub].
  rewrite (sub_go_position r repl Hb t 1 0). reflexivity.
Qed.

(** With the empty replacement, a character at which the pattern
    always matches at least one character never reaches the output. *)
Lemma re_sub_delete_drops (r : regex) (x : char) :
  bol_free r = true ->
  (forall t, exists e k, match_at r 0 (x :: t) = Some e /\ m_pos e = S k) ->
  forall s, ~ In x (re_sub r (tmpl []) s).
Proof.
  intros Hb Hx s. remember (length s) as n eqn:Hn. revert s Hn.
  induction n as [n IH] using lt_wf_ind. intros s Hn Hin.
  destruct s as [| c t].
  { destruct (re_sub_nil r []) as [H | H]; rewrite H in Hin; exact Hin. }
  assert (Ht : ~ In x (re_sub r (tmpl []) t)).
  { apply (IH (length t)); [subst n; cbn [length]; lia | reflexivity]. }
  destruct (match_at r 0 (c :: t)) as [e |] eqn:Hm.
  - destruct (match_at_sound r 0 (c :: t) e Hm) as [k [Hp [_ Hk]]].
    cbn [Nat.add] in Hp. destruct k as [| k].
    + rewrite (re_sub_empty_match r (tmpl []) c t e Hb Hm Hp) in Hin.
      cbn [tmpl app] in Hin. destruct Hin as [-> | Hin]; [| exact (Ht Hin)].
      destruct (Hx t) as [e' [k' [Hm' Hp']]]. congruence.
    + rewrite (re_sub_match r (tmpl []) (c :: t) e k Hb Hm Hp Hk) in Hin.
      cbn [tmpl app] in Hin. revert Hin.
      apply (IH (length (skipn (S k) (c :: t)))); [| reflexivity].
      subst n. rewrite length_skipn. cbn [length] in *. lia.
  - rewrite (re_sub_skip r (tmpl []) c t Hb Hm) in Hin.
    destruct Hin as [-> | Hin]; [| exact (Ht Hin)].
    destruct (Hx t) as [e' [k' [Hm' _]]]. congruence.
Qed.

End EngineSound.

Section UnitsRemoved.

Import Main.

Lemma match_units_at_g (t : str) :
  match_at RE_UNITS 0 (65351%N :: t)
  = Some (MState (S (length (take_while is_space t))) None (drop_while is_space t)).
Proof.
  unfold match_at, RE_UNITS. rewrite exec_Alt, !exec_Cat.
  cbn [exec m_pos m_rest m_grp greedy].
  change (is_space 65351%N) with false. cbn iota.
  cbn [map flat_map fst snd app m_pos m_rest m_grp].
  change (drop_prefix G_WIDE (65351%N :: t)) with (Some t).
  cbn iota. cbn [flat_map app m_pos m_rest m_grp].
  change (0 + length G_WIDE) with 1.
  destruct (greedy_head is_space 1 t) as [others Hg]. rewrite Hg.
  cbn [map app hd_error fst snd Nat.add]. reflexivity.
Qed.

Lemma in_strip_inv (c : char) (s : str) : In c (strip s) -> In c s.
Proof.
  intros H. destruct (strip_split s) as [a [b [Hs _]]].
  rewrite Hs. apply in_or_app. right. apply in_or_app. left. exact H.
Qed.

Lemma strip_units_no_wide_g (s : str) : ~ In 65351%N (_strip_units_for_ryou s).
Proof.
  unfold _strip_units_for_ryou. intros H. apply in_strip_inv in H. revert H.
  apply re_sub_delete_drops; [reflexivity |].
  intros t. eexists. eexists. split; [apply match_units_at_g | reflexivity].
Qed.

Lemma row_records_no_wide_g (nc : nat) (pdf_url : str) (row : list str) :
  Forall (fun r => ~ In 65351%N (ryou1 r) /\ ~ In 65351%N (ryou2 r)
                   /\ ~ In 65351%N (ryou3 r) /\ ~ In 65351%N (ryou4 r))
         (row_records nc pdf_url row).
Proof.
  rewrite row_records_view. cbv zeta.
  apply Forall_forall. intros r Hin. apply in_map_iff in Hin.
  destruct Hin as [i [<- _]].
  destruct (negb (4 <=? nc)).
  - match goal with |- context [record_2col ?n ?c ?e ?a ?w] =>
      destruct (record_2col_fields n c e a w)
        as [_ [_ [_ [F4 [F5 [F6 [F7 _]]]]]]]
    end.
    rewrite F4, F5, F6, F7.
    split; [apply strip_units_no_wide_g |]. repeat split; intros [].
  - match goal with |- context [record_4col ?n ?c ?e ?a ?b ?d ?w] =>
      destruct (record_4col_fields n c e a b d w)
        as [_ [_ [_ [F4 [F5 [F6 [_ [_ [_ F10]]]]]]]]]
    end.
    rewrite F4, F5, F6.
    split; [| repeat split; apply strip_units_no_wide_g].
    destruct F10 as [F | [x F]]; rewrite F;
      [intros [] | apply strip_units_no_wide_g].
Qed.

End UnitsRemoved.

(** No amount of a record holds the full-width unit marker "ｇ":
    whatever the cell texts, the marker is taken out of all four
    amounts. *)
Theorem amounts_never_hold_the_weight_marker
        (df : Main.DataFrame) (pdf_url : str) :
  Forall (fun r => ~ In 65351%N (Main.ryou1 r) /\ ~ In 65351%N (Main.ryou2 r)
                   /\ ~ In 65351%N (Main.ryou3 r) /\ ~ In 65351%N (Main.ryou4 r))
         (Main.df_to_records df pdf_url).
Proof.
  unfold Main.df_to_records. destruct (Main.empty df); [constructor |].
  apply Forall_flat_map_intro. intros row _. apply row_records_no_wide_g.
Qed.

(** ** The items of a document *)

Section Items.

Import Main.

Lemma item_leb_total (a b : item) : item_leb a b = false -> item_leb b a = true.
Proof.
  unfold item_leb. intros H. apply orb_false_iff in H. destruct H as [H1 H2].
  apply Nat.ltb_ge in H1. apply orb_true_iff.
  destruct (Nat.eqb (it_page a) (it_page b)) eqn:E.
  - apply Nat.eqb_eq in E. cbn [andb] in H2. apply Nat.leb_gt in H2.
    right. apply andb_true_iff. split; [apply Nat.eqb_eq; lia | apply Nat.leb_le; lia].
  - apply Nat.eqb_neq in E. left. apply Nat.ltb_lt. lia.
Qed.

Lemma item_leb_trans (a b c : item) :
  item_leb a b = true -> item_leb b c = true -> item_leb a c = true.
Proof.
  unfold item_leb. intros H1 H2.
  apply orb_true_iff in H1. apply orb_true_iff in H2. apply orb_true_iff.
  destruct H1 as [H1 | H1]; destruct H2 as [H2 | H2];
    try apply Nat.ltb_lt in H1; try apply Nat.ltb_lt in H2;
    try (apply andb_true_iff in H1; destruct H1 as [H1 H1'];
         apply Nat.eqb_eq in H1; apply Nat.leb_le in H1');
    try (apply andb_true_iff in H2; destruct H2 as [H2 H2'];
         apply Nat.eqb_eq in H2; apply Nat.leb_le in H2').
  - left. apply Nat.ltb_lt. lia.
  - left. apply Nat.ltb_lt. lia.
  - left. apply Nat.ltb_lt. lia.
  - right. apply andb_true_iff.
    split; [apply Nat.eqb_eq; lia | apply Nat.leb_le; lia].
Qed.

Lemma insert_item_In (x y : item) (l : list item) :
  In x (insert_item y l) <-> x = y \/ In x l.
Proof.
  induction l as [| z l IH]; cbn [insert_item].
  - cbn [In]. intuition.
  - destruct (item_leb y z); cbn [In]; [intuition |].
    rewrite IH. intuition.
Qed.

Lemma sort_items_In (x : item) (l : list item) :
  In x (sort_items l) <-> In x l.
Proof.
  unfold sort_items. induction l as [| y l IH]; [reflexivity |].
  cbn [fold_right]. rewrite insert_item_In, IH. cbn [In]. intuition.
Qed.

Lemma insert_item_sorted (x : item) (l : list item) :
  StronglySorted (fun a b => item_leb a b = true) l ->
  StronglySorted (fun a b => item_leb a b = true) (insert_item x l).
Proof.
  induction 1 as [| y l Hs IH Hy]; cbn [insert_item].
  - constructor; constructor.
  - destruct (item_leb x y) eqn:E.
    + constructor; [constructor; assumption |].
      constructor; [exact E |].
      rewrite Forall_forall in *. intros z Hz.
      exact (item_leb_trans x y z E (Hy z Hz)).
    + constructor; [exact IH |].
      apply Forall_forall. intros z Hz. apply insert_item_In in Hz.
      destruct Hz as [-> | Hz]; [apply item_leb_total, E |].
      rewrite Forall_forall in Hy. exact (Hy z Hz).
Qed.

Lemma sort_items_sorted (l : list item) :
  StronglySorted (fun a b => item_leb a b = true) (sort_items l).
Proof.
  unfold sort_items. induction l as [| x l IH]; [constructor |].
  cbn [fold_right]. apply insert_item_sorted, IH.
Qed.

Lemma clean_df_shape (d : DataFrame) :
  nrows (clean_df d) = nrows d /\ ncols (clean_df d) = ncols d.
Proof. unfold nrows, clean_df. cbn [rows ncols]. rewrite length_map. auto. Qed.

Lemma collect_items_sound (ts : list camelot_table) :
  forall order it,
    In it (collect_items order ts) ->
    exists i t,
      it_order it = order + i
      /\ nth_error ts i = Some t
      /\ it_page it = page t
      /\ it_df it = clean_df (df t)
      /\ 2 <= nrows (it_df it) /\ 2 <= ncols (it_df it).
Proof.
  induction ts as [| t ts IH]; intros order it Hin; [destruct Hin |].
  cbn [collect_items existsb EXCLUDE_PAGES] in Hin.
  assert (Hrest : In it (collect_items (S order) ts) ->
                  exists i t0,
                    it_order it = order + i
                    /\ nth_error (t :: ts) i = Some t0
                    /\ it_page it = page t0
                    /\ it_df it = clean_df (df t0)
                    /\ 2 <= nrows (it_df it) /\ 2 <= ncols (it_df it)).
  { intros H. destruct (IH (S order) it H) as [i [t0 [H1 H2]]].
    exists (S i), t0. split; [lia | exact H2]. }
  destruct (empty (clean_df (df t)) || (nrows (clean_df (df t)) <? 2)
            || (ncols (clean_df (df t)) <? 2)) eqn:E; [exact (Hrest Hin) |].
  destruct Hin as [<- | Hin]; [| exact (Hrest Hin)].
  apply orb_false_iff in E. destruct E as [E E3].
  apply orb_false_iff in E. destruct E as [_ E2].
  apply Nat.ltb_ge in E2. apply Nat.ltb_ge in E3.
  exists 0, t. cbn [it_order it_page it_df nth_error].
  repeat split; try assumption. lia.
Qed.

Lemma collect_items_complete (ts : list camelot_table) :
  forall order i t,
    nth_error ts i = Some t ->
    2 <= nrows (df t) -> 2 <= ncols (df t) ->
    In {| it_page := page t; it_order := order + i; it_df := clean_df (df t) |}
       (collect_items order ts).
Proof.
  induction ts as [| t0 ts IH]; intros order i t Hn Hr Hc;
    [destruct i; discriminate |].
  cbn [collect_items existsb EXCLUDE_PAGES].
  destruct i as [| i].
  - cbn [nth_error] in Hn. inversion Hn; subst t0.
    destruct (clean_df_shape (df t)) as [Hnr Hnc].
    assert (E : empty (clean_df (df t)) || (nrows (clean_df (df t)) <? 2)
                || (ncols (clean_df (df t)) <? 2) = false).
    { unfold empty. rewrite Hnr, Hnc.
      destruct (nrows (df t)) as [| [| n]]; [lia | lia |].
      destruct (ncols (df t)) as [| [| m]]; [lia | lia |]. reflexivity. }
    rewrite E. left. f_equal. lia.
  - cbn [nth_error] in Hn.
    assert (Hin : In {| it_page := page t; it_order := order + S i;
                        it_df := clean_df (df t) |}
                     (collect_items (S order) ts)).
    { replace (order + S i) with (S order + i) by lia.
      exact (IH (S order) i t Hn Hr Hc). }
    destruct (empty (clean_df (df t0)) || (nrows (clean_df (df t0)) <? 2)
              || (ncols (clean_df (df t0)) <? 2)); [exact Hin | right; exact Hin].
Qed.

End Items.

(** The items of a document come out ordered by page, and within a
    page by their position in the parser's output; each is the cleaned
    frame of the table at that position, and has at least two rows and
    two columns. *)
Theorem extracted_items_are_ordered_clean_tables (ts : list Main.camelot_table) :
  StronglySorted (fun a b => Main.item_leb a b = true)
                 (Main.extract_tables_lattice_only (Some ts))
  /\ Forall (fun it =>
               exists t,
                 nth_error ts (Main.it_order it) = Some t
                 /\ Main.it_page it = Main.page t
                 /\ Main.it_df it = Main.clean_df (Main.df t)
                 /\ 2 <= Main.nrows (Main.it_df it)
                 /\ 2 <= Main.ncols (Main.it_df it))
            (Main.extract_tables_lattice_only (Some ts)).
Proof.
  cbn [Main.extract_tables_lattice_only]. split; [apply sort_items_sorted |].
  apply Forall_forall. intros it Hin. apply (proj1 (sort_items_In _ _)) in Hin.
  destruct (collect_items_sound ts 0 it Hin) as [i [t [H1 H2]]].
  exists t. cbn [Nat.add] in H1. rewrite H1. exact H2.
Qed.

(** No table with at least two rows and two columns is left out: the
    table at position [i] of the parser's output is among the items,
    with its page, its position and its cleaned frame. *)
Theorem every_proper_table_is_extracted
        (ts : list Main.camelot_table) (i : nat) (t : Main.camelot_table) :
  nth_error ts i = Some t ->
  2 <= Main.nrows (Main.df t) -> 2 <= Main.ncols (Main.df t) ->
  In {| Main.it_page := Main.page t; Main.it_order := i;
        Main.it_df := Main.clean_df (Main.df t) |}
     (Main.extract_tables_lattice_only (Some ts)).
Proof.
  intros Hn Hr Hc. cbn [Main.extract_tables_lattice_only].
  apply (proj2 (sort_items_In _ _)). exact (collect_items_complete ts 0 i t Hn Hr Hc).
Qed.

Lemma every_proper_table_is_extracted_witness :
  In {| Main.it_page := 3; Main.it_order := 1;
        Main.it_df := Main.clean_df
                        {| Main.ncols := 2;
                           Main.rows := [[u "Alpha"; u "5　ｇ"]; [u "Beta"; u "3ｇ"]] |} |}
     (Main.extract_tables_lattice_only
        (Some [ {| Main.page := 7;
                   Main.df := {| Main.ncols := 1; Main.rows := [[u "x"]] |} |};
                {| Main.page := 3;
                   Main.df := {| Main.ncols := 2;
                                 Main.rows := [[u "Alpha"; u "5　ｇ"];
                                               [u "Beta"; u "3ｇ"]] |} |} ])).
Proof.
  apply (every_proper_table_is_extracted
           [ {| Main.page := 7;
                Main.df := {| Main.ncols := 1; Main.rows := [[u "x"]] |} |};
             {| Main.page := 3;
                Main.df := {| Main.ncols := 2;
                              Main.rows := [[u "Alpha"; u "5　ｇ"];
                                            [u "Beta"; u "3ｇ"]] |} |} ]
           1
           {| Main.page := 3;
              Main.df := {| Main.ncols := 2;
                            Main.rows := [[u "Alpha"; u "5　ｇ"];
                                          [u "Beta"; u "3ｇ"]] |} |}).
  - reflexivity.
  - vm_compute. apply le_n.
  - vm_compute. apply le_n.
Defined.

(** ** The rows written to the sheet *)

Section SheetRows.

Import Main.



End SheetRows.



(** ** The HTML variant: normalised text *)

Section NormShape.

Import HtmlToTable.

Lemma single_spaced_squeeze (b : bool) (y : str) :
  single_spaced b (squeeze is_space SPACE b y) = true.
Proof.
  revert b. induction y as [| c t IH]; intros b; [reflexivity |].
  cbn [squeeze]. destruct (is_space c) eqn:Ec.
  - destruct b; [apply IH |].
    change (SPACE ++ squeeze is_space SPACE true t)
      with (32%N :: squeeze is_space SPACE true t).
    cbn [single_spaced]. change (is_space 32%N) with true. cbn iota.
    change (char_eqb 32%N 32%N) with true. cbn [andb negb]. apply IH.
  - cbn [single_spaced]. rewrite Ec. apply IH.
Qed.

Lemma squeeze_space_fixed (b : bool) (z : str) :
  single_spaced b z = true -> squeeze is_space SPACE b z = z.
Proof.
  revert b. induction z as [| c t IH]; intros b H; [reflexivity |].
  cbn [single_spaced] in H. cbn [squeeze]. destruct (is_space c) eqn:Ec.
  - apply andb_true_iff in H. destruct H as [H Ht].
    apply andb_true_iff in H. destruct H as [Hc Hb].
    apply char_eqb_eq in Hc. subst c. apply negb_true_iff in Hb. subst b.
    rewrite (IH true Ht). reflexivity.
  - rewrite (IH false H). reflexivity.
Qed.

Lemma single_spaced_weaken (b : bool) (z : str) :
  single_spaced b z = true -> single_spaced false z = true.
Proof.
  intros H. destruct z as [| c t]; [reflexivity |].
  cbn [single_spaced] in *. destruct (is_space c); [| exact H].
  apply andb_true_iff in H. destruct H as [H Ht].
  apply andb_true_iff in H. destruct H as [Hc _].
  rewrite Hc, Ht. reflexivity.
Qed.

Lemma single_spaced_lstrip (b : bool) (z : str) :
  single_spaced b z = true -> single_spaced false (lstrip z) = true.
Proof.
  revert b. induction z as [| c t IH]; intros b H; [reflexivity |].
  cbn [lstrip]. destruct (is_space c) eqn:Es.
  - cbn [single_spaced] in H. rewrite Es in H.
    apply andb_true_iff in H. destruct H as [_ Ht]. apply (IH true Ht).
  - apply (single_spaced_weaken b _ H).
Qed.

Lemma single_spaced_rstrip_l (z : str) :
  forall b, single_spaced b z = true -> single_spaced b (rstrip_l z) = true.
Proof.
  induction z as [| c t IH]; intros b H; [reflexivity |].
  cbn [rstrip_l]. destruct (rstrip_l t) as [| x r] eqn:Er.
  - destruct (is_space c) eqn:Es; [reflexivity |].
    cbn [single_spaced]. rewrite Es. reflexivity.
  - cbn [single_spaced] in *. destruct (is_space c).
    + apply andb_true_iff in H. destruct H as [H Ht]. rewrite H.
      apply (IH true Ht).
    + apply (IH false H).
Qed.

Lemma single_spaced_strip (z : str) :
  single_spaced false z = true -> single_spaced false (strip z) = true.
Proof.
  intros H. unfold strip. rewrite rstrip_rstrip_l.
  apply single_spaced_rstrip_l. apply (single_spaced_lstrip false z H).
Qed.

Lemma single_spaced_unwiden (z : str) :
  forall b, single_spaced b z = true -> map unwiden z = z.
Proof.
  induction z as [| c t IH]; intros b H; [reflexivity |].
  cbn [single_spaced] in H. cbn [map].
  destruct (is_space c) eqn:Es.
  - apply andb_true_iff in H. destruct H as [H Ht].
    apply andb_true_iff in H. destruct H as [Hc _].
    apply char_eqb_eq in Hc. subst c. rewrite (IH true Ht). reflexivity.
  - rewrite (IH false H), (unwiden_nonspace c Es). reflexivity.
Qed.

Lemma norm_single_spaced (s : str) : single_spaced false (_norm s) = true.
Proof. rewrite norm_direct. apply single_spaced_strip, single_spaced_squeeze. Qed.

Lemma norm_idem (s : str) : _norm (_norm s) = _norm s.
Proof.
  rewrite (norm_direct (_norm s)).
  rewrite (single_spaced_unwiden _ false (norm_single_spaced s)).
  rewrite (squeeze_space_fixed false _ (norm_single_spaced s)).
  rewrite norm_direct. apply strip_idempotent.
Qed.

Lemma single_spaced_chars (z : str) :
  forall b, single_spaced b z = true ->
            Forall (fun c => is_space c = false \/ c = 32%N) z.
Proof.
  induction z as [| c t IH]; intros b H; [constructor |].
  cbn [single_spaced] in H. destruct (is_space c) eqn:Es.
  - apply andb_true_iff in H. destruct H as [H Ht].
    apply andb_true_iff in H. destruct H as [Hc _].
    apply char_eqb_eq in Hc. constructor; [right; exact Hc | exact (IH true Ht)].
  - constructor; [left; exact Es | exact (IH false H)].
Qed.

Lemma single_spaced_no_double (z : str) :
  forall b, single_spaced b z = true -> contains [32; 32]%N z = false.
Proof.
  induction z as [| c t IH]; intros b H; [reflexivity |].
  cbn [single_spaced] in H. cbn [contains].
  assert (Ht : exists b', single_spaced b' t = true
                          /\ (char_eqb 32%N c = true -> b' = true)).
  { destruct (is_space c) eqn:Ec.
    - apply andb_true_iff in H. destruct H as [_ H]. exists true. auto.
    - exists false. split; [exact H |]. intros E. apply char_eqb_eq in E.
      subst c. discriminate. }
  destruct Ht as [b' [Ht Hb]]. rewrite (IH b' Ht), orb_false_r.
  cbn [is_prefix]. destruct (char_eqb 32%N c) eqn:E; [| reflexivity].
  rewrite (Hb eq_refl) in Ht. destruct t as [| c2 t']; [reflexivity |].
  cbn [is_prefix]. destruct (char_eqb 32%N c2) eqn:E2; [| reflexivity].
  apply char_eqb_eq in E2. subst c2. cbn [single_spaced] in Ht.
  change (is_space 32%N) with true in Ht. cbn in Ht. discriminate.
Qed.

Lemma list_str_eqb_length (a b : list str) :
  list_str_eqb a b = true -> length a = length b.
Proof.
  revert b. induction a as [| x a IH]; intros [| y b] H; try discriminate;
    [reflexivity |].
  cbn [list_str_eqb] in H. apply andb_true_iff in H. destruct H as [_ H].
  cbn [length]. f_equal. exact (IH b H).
Qed.

End NormShape.

(** Normalising a text twice gives what normalising it once gives.  In
    a normalised text every white-space character is a single space
    between two other characters. *)
Theorem norm_is_idempotent (s : str) :
  HtmlToTable._norm (HtmlToTable._norm s) = HtmlToTable._norm s
  /\ Forall (fun c => is_space c = false \/ c = 32%N) (HtmlToTable._norm s)
  /\ contains [32; 32]%N (HtmlToTable._norm s) = false
  /\ starts_clean (HtmlToTable._norm s)
  /\ ends_clean (HtmlToTable._norm s).
Proof.
  split; [apply norm_idem |].
  split; [exact (single_spaced_chars _ false (norm_single_spaced s)) |].
  split; [exact (single_spaced_no_double _ false (norm_single_spaced s)) |].
  rewrite norm_direct. split; [apply strip_starts_clean | apply strip_ends_clean].
Qed.

(** Whether a row is the header row does not depend on the white space
    of its cells beyond normalisation, and only a row of three cells
    can be the header row. *)
Theorem header_row_test_ignores_spacing (cells : list str) :
  HtmlToTable.is_header_row (map HtmlToTable._norm cells)
  = HtmlToTable.is_header_row cells
  /\ (HtmlToTable.is_header_row cells = false \/ length cells = 3).
Proof.
  unfold HtmlToTable.is_header_row. split.
  - rewrite map_map. f_equal. apply map_ext. intros c. apply norm_idem.
  - destruct (HtmlToTable.list_str_eqb (map HtmlToTable._norm cells)
                (map HtmlToTable._norm HtmlToTable.EXPECTED_HEADER)) eqn:E;
      [right | left; reflexivity].
    apply list_str_eqb_length in E. rewrite !length_map in E. exact E.
Qed.

(** ** The HTML variant: values *)

Section HtmlValueParts.

Import HtmlToTable.

Lemma match_at_Cls (p : char -> bool) (pos : nat) (s : str) :
  match_at (Cls p) pos s
  = match s with
    | c :: t => if p c then Some (MState (S pos) None t) else None
    | [] => None
    end.
Proof.
  unfold match_at. cbn [exec m_rest m_pos m_grp].
  destruct s as [| c t]; [reflexivity |]. destruct (p c); reflexivity.
Qed.

Lemma sub_go_Cls_delete (p : char -> bool) (s : str) :
  forall pos, sub_go (Cls p) (tmpl []) pos 0 s = filter (fun c => negb (p c)) s.
Proof.
  induction s as [| c t IH]; intros pos.
  - cbn [sub_go]. rewrite match_at_Cls. reflexivity.
  - cbn [sub_go filter]. rewrite match_at_Cls. destruct (p c); cbn [negb m_pos].
    + replace (S pos - pos) with 1 by lia. cbn [tmpl app]. apply IH.
    + f_equal. apply IH.
Qed.

Lemma re_sub_Cls_delete (p : char -> bool) (s : str) :
  re_sub (Cls p) (tmpl []) s = filter (fun c => negb (p c)) s.
Proof. apply sub_go_Cls_delete. Qed.

Lemma filter_none {A : Type} (p : A -> bool) (l : list A) :
  existsb p l = false -> filter (fun c => negb (p c)) l = l.
Proof.
  induction l as [| a l IH]; intros H; [reflexivity |].
  cbn [existsb] in H. apply orb_false_iff in H. destruct H as [Ha Hl].
  cbn [filter]. rewrite Ha, (IH Hl). reflexivity.
Qed.

Lemma strip_norm (s : str) : strip (_norm s) = _norm s.
Proof. unfold _norm. apply strip_idempotent. Qed.

(** The clean value, with the tests of the source resolved: every
    removal is the identity when its test fails. *)
Lemma strip_units_and_note_value (val : str) :
  fst (fst (strip_units_and_note val))
  = _norm (filter (fun c => negb (is_g c))
             (replace KOKUSAI [] (strip (replace GOKEI [] (_norm val))))).
Proof.
  unfold strip_units_and_note.
  destruct (contains GOKEI (_norm val)) eqn:E1; cbv beta iota zeta;
    [| rewrite (replace_absent GOKEI [] _ E1), strip_norm ];
    match goal with
    | |- context [contains KOKUSAI ?S] =>
        destruct (contains KOKUSAI S) eqn:E2; cbv beta iota zeta;
        [| rewrite (replace_absent KOKUSAI [] S E2) ]
    end;
    match goal with
    | |- context [re_search (Cls is_g) ?S] =>
        destruct (re_search (Cls is_g) S) eqn:E3; cbv beta iota zeta;
        cbn [fst snd];
        [ rewrite re_sub_Cls_delete; reflexivity
        | rewrite re_search_Cls in E3; rewrite (filter_none is_g S E3);
          reflexivity ]
    end.
Qed.

Lemma strip_units_and_note_note (val : str) :
  snd (strip_units_and_note val)
  = if contains GOKEI (_norm val) then GOKEI else [].
Proof.
  unfold strip_units_and_note.
  destruct (contains GOKEI (_norm val)); cbv zeta;
    match goal with
    | |- context [contains KOKUSAI ?s] => destruct (contains KOKUSAI s)
    end;
    match goal with
    | |- context [re_search (Cls is_g) ?s] => destruct (re_search (Cls is_g) s)
    end; reflexivity.
Qed.

End HtmlValueParts.

Section ReplaceInsideBlanks.

(** The text to delete: non-empty and without white space. *)
Variable old : str.
Hypothesis old_nonempty : old <> [].
Hypothesis old_spaceless : spaceless old = true.

Lemma is_prefix_space_head (c : char) (t : str) :
  is_space c = true -> is_prefix old (c :: t) = false.
Proof.
  intros Hc. destruct old as [| x o]; [contradiction |].
  cbn [is_prefix]. unfold spaceless in old_spaceless. cbn [forallb] in old_spaceless.
  apply andb_true_iff in old_spaceless. destruct old_spaceless as [Hx _].
  destruct (char_eqb x c) eqn:E; [| reflexivity].
  apply char_eqb_eq in E. subst x. rewrite Hc in Hx. discriminate.
Qed.

Lemma replace_go_no_prefix (new : str) (c : char) (t : str) :
  is_prefix old (c :: t) = false ->
  replace_go old new 0 (c :: t) = c :: replace_go old new 0 t.
Proof. intros H. cbn [replace_go]. rewrite H. reflexivity. Qed.

Lemma replace_after_blanks (new a y : str) :
  forallb is_space a = true ->
  replace old new (a ++ y) = a ++ replace old new y.
Proof.
  unfold replace. induction a as [| c a IH]; intros H; [reflexivity |].
  cbn [forallb] in H. apply andb_true_iff in H. destruct H as [Hc Ha].
  cbn [app]. rewrite replace_go_no_prefix; [| apply is_prefix_space_head, Hc].
  rewrite (IH Ha). reflexivity.
Qed.

Lemma is_prefix_before_blanks (b : str) :
  forallb is_space b = true ->
  forall o y, spaceless o = true -> is_prefix o (y ++ b) = is_prefix o y.
Proof.
  intros Hb o. induction o as [| x o IH]; intros y Ho; [reflexivity |].
  unfold spaceless in Ho. cbn [forallb] in Ho.
  apply andb_true_iff in Ho. destruct Ho as [Hx Ho].
  destruct y as [| c y].
  - cbn [app]. destruct b as [| w b]; [reflexivity |].
    cbn [forallb] in Hb. apply andb_true_iff in Hb. destruct Hb as [Hw _].
    cbn [is_prefix]. destruct (char_eqb x w) eqn:E; [| reflexivity].
    apply char_eqb_eq in E. subst x. rewrite Hw in Hx. discriminate.
  - cbn [app is_prefix]. rewrite (IH y Ho). reflexivity.
Qed.

Lemma is_prefix_length (p s : str) : is_prefix p s = true -> length p <= length s.
Proof.
  intros H. apply is_prefix_split in H.
  apply (f_equal (@length N)) in H. rewrite length_app in H. lia.
Qed.

Lemma replace_before_blanks (new b : str) :
  forallb is_space b = true ->
  forall y, replace old new (y ++ b) = replace old new y ++ b.
Proof.
  intros Hb y. remember (length y) as n eqn:Hn. revert y Hn.
  induction n as [n IH] using lt_wf_ind. intros y Hn.
  destruct y as [| c t].
  - cbn [app]. rewrite <- (app_nil_r b) at 1.
    rewrite (replace_after_blanks new b [] Hb). apply app_nil_r.
  - unfold replace in *. cbn [app].
    destruct (is_prefix old (c :: t)) eqn:E.
    + assert (E' : is_prefix old (c :: t ++ b) = true).
      { change (c :: t ++ b) with ((c :: t) ++ b).
        rewrite (is_prefix_before_blanks b Hb old (c :: t) old_spaceless).
        exact E. }
      rewrite (replace_go_prefix old new c (t ++ b) E').
      rewrite (replace_go_prefix old new c t E).
      apply is_prefix_length in E. cbn [length] in E.
      rewrite skipn_app.
      replace (length old - 1 - length t) with 0 by lia. cbn [skipn].
      rewrite (IH (length (skipn (length old - 1) t))); [| | reflexivity].
      * rewrite app_assoc. reflexivity.
      * subst n. rewrite length_skipn. cbn [length]. lia.
    + rewrite replace_go_no_prefix;
        [| change (c :: t ++ b) with ((c :: t) ++ b);
           rewrite (is_prefix_before_blanks b Hb old (c :: t) old_spaceless);
           exact E].
      rewrite (replace_go_no_prefix new c t E).
      rewrite (IH (length t)); [reflexivity | subst n; cbn [length]; lia | reflexivity].
Qed.

End ReplaceInsideBlanks.

Section StripBlanks.

Lemma lstrip_after_blanks (a y : str) :
  forallb is_space a = true -> lstrip (a ++ y) = lstrip y.
Proof.
  induction a as [| c a IH]; intros H; [reflexivity |].
  cbn [forallb] in H. apply andb_true_iff in H. destruct H as [Hc Ha].
  cbn [app lstrip]. rewrite Hc. exact (IH Ha).
Qed.

Lemma rstrip_l_all_space (b : str) : forallb is_space b = true -> rstrip_l b = [].
Proof.
  induction b as [| c b IH]; intros H; [reflexivity |].
  cbn [forallb] in H. apply andb_true_iff in H. destruct H as [Hc Hb].
  cbn [rstrip_l]. rewrite (IH Hb), Hc. reflexivity.
Qed.

Lemma rstrip_before_blanks (y b : str) :
  forallb is_space b = true -> rstrip (y ++ b) = rstrip y.
Proof.
  intros Hb. rewrite !rstrip_rstrip_l.
  rewrite <- (app_nil_r y) at 2.
  apply rstrip_l_congr. rewrite (rstrip_l_all_space b Hb). reflexivity.
Qed.

Lemma strip_between_blanks (a z b : str) :
  forallb is_space a = true -> forallb is_space b = true ->
  strip (a ++ z ++ b) = strip z.
Proof.
  intros Ha Hb. unfold strip. rewrite (lstrip_after_blanks a _ Ha).
  rewrite strip_commute, (rstrip_before_blanks z b Hb), <- strip_commute.
  reflexivity.
Qed.

Lemma filter_keeps_blanks (p : char -> bool) (a : str) :
  (forall c, p c = true -> is_space c = false) ->
  forallb is_space a = true -> filter (fun c => negb (p c)) a = a.
Proof.
  intros Hp. induction a as [| c a IH]; intros H; [reflexivity |].
  cbn [forallb] in H. apply andb_true_iff in H. destruct H as [Hc Ha].
  cbn [filter]. destruct (p c) eqn:E.
  - rewrite (Hp c E) in Hc. discriminate.
  - cbn [negb]. rewrite (IH Ha). reflexivity.
Qed.

End StripBlanks.

Section HtmlValueOnly.

Import HtmlToTable.

Lemma norm_between_blanks (a z b : str) :
  forallb is_space a = true -> forallb is_space b = true ->
  _norm (a ++ z ++ b) = _norm z.
Proof.
  intros Ha Hb. rewrite <- (norm_strip (a ++ z ++ b)).
  rewrite (strip_between_blanks a z b Ha Hb). apply norm_strip.
Qed.

Lemma value_only_form (val : str) :
  strip_units_and_note_value_only val
  = _norm (filter (fun c => negb (is_g c))
             (replace KOKUSAI [] (strip (replace GOKEI [] (_norm val))))).
Proof.
  unfold strip_units_and_note_value_only. rewrite re_sub_Cls_delete.
  destruct (strip_split (replace GOKEI [] (_norm val))) as [a [b [Hs [Ha Hb]]]].
  rewrite Hs at 1.
  rewrite (replace_after_blanks KOKUSAI ltac:(discriminate) eq_refl [] a _ Ha).
  rewrite (replace_before_blanks KOKUSAI ltac:(discriminate) eq_refl [] b Hb).
  rewrite !filter_app.
  rewrite (filter_keeps_blanks is_g a is_g_not_space Ha).
  rewrite (filter_keeps_blanks is_g b is_g_not_space Hb).
  apply norm_between_blanks; assumption.
Qed.

Lemma in_squeeze_inv (p : char -> bool) (t : str) (c : char) (s : str) :
  forall b, In c (squeeze p t b s) -> In c t \/ In c s.
Proof.
  induction s as [| x s IH]; intros b H; [destruct H |].
  cbn [squeeze] in H. destruct (p x).
  - destruct b.
    + destruct (IH true H); [left | right; right]; assumption.
    + apply in_app_or in H. destruct H as [H | H]; [left; exact H |].
      destruct (IH true H); [left | right; right]; assumption.
  - destruct H as [-> | H]; [right; left; reflexivity |].
    destruct (IH false H); [left | right; right]; assumption.
Qed.

Lemma in_norm_inv (c : char) (s : str) : In c (_norm s) -> c = 32%N \/ In c s.
Proof.
  rewrite norm_direct. intros H. apply in_strip_inv in H.
  apply in_squeeze_inv in H. destruct H as [[<- | []] | H]; [left; reflexivity |].
  apply in_map_iff in H. destruct H as [x [Hx Hin]]. unfold unwiden in Hx.
  destruct (char_eqb 12288%N x); [left; symmetry; exact Hx | right; subst c; exact Hin].
Qed.

Lemma norm_of_filtered_has_no_g (z : str) (c : char) :
  is_g c = true -> ~ In c (_norm (filter (fun x => negb (is_g x)) z)).
Proof.
  intros Hc Hin. apply in_norm_inv in Hin. destruct Hin as [-> | Hin].
  - discriminate Hc.
  - apply filter_In in Hin. destruct Hin as [_ Hn]. rewrite Hc in Hn. discriminate.
Qed.

End HtmlValueOnly.

(** The cleaning of the third and fourth cells gives exactly the clean
    value that the full parse of the same text gives: the two differ
    only in that the full parse also reports the unit and the note. *)
Theorem value_only_is_the_clean_value (val : str) :
  HtmlToTable.strip_units_and_note_value_only val
  = fst (fst (HtmlToTable.strip_units_and_note val)).
Proof. rewrite value_only_form, strip_units_and_note_value. reflexivity. Qed.

Lemma strip_units_and_note_parts (val : str) :
  let clean := fst (fst (HtmlToTable.strip_units_and_note val)) in
  let unit := snd (fst (HtmlToTable.strip_units_and_note val)) in
  let note := snd (HtmlToTable.strip_units_and_note val) in
  (unit = [] \/ unit = G_ASCII \/ unit = KOKUSAI)
  /\ (note = [] \/ note = GOKEI)
  /\ ~ In 103%N clean /\ ~ In 65351%N clean
  /\ HtmlToTable._norm clean = clean.
Proof.
  cbv zeta. split; [| split; [| split; [| split]]].
  - rewrite strip_units_and_note_unit.
    repeat match goal with
           | |- context [if ?b then _ else _] => destruct b
           end; auto.
  - rewrite strip_units_and_note_note.
    destruct (contains GOKEI _); auto.
  - rewrite strip_units_and_note_value. apply norm_of_filtered_has_no_g. reflexivity.
  - rewrite strip_units_and_note_value. apply norm_of_filtered_has_no_g. reflexivity.
  - rewrite strip_units_and_note_value. apply norm_idem.
Qed.

(** Whatever the text of a value: the unit is empty, "g" or
    "国際単位"; the note is empty or "合計量として"; the clean value
    holds neither "g" nor "ｇ" and is a normalised text. *)
Theorem html_value_parts (val : str) :
  let clean := fst (fst (HtmlToTable.strip_units_and_note val)) in
  let unit := snd (fst (HtmlToTable.strip_units_and_note val)) in
  let note := snd (HtmlToTable.strip_units_and_note val) in
  (unit = [] \/ unit = G_ASCII \/ unit = KOKUSAI)
  /\ (note = [] \/ note = GOKEI)
  /\ ~ In 103%N clean /\ ~ In 65351%N clean
  /\ HtmlToTable._norm clean = clean.
Proof. exact (strip_units_and_note_parts val). Qed.

Section HtmlRecords.

Import HtmlToTable.

Lemma norm_nil : _norm [] = [].
Proof. reflexivity. Qed.

Lemma no_g_nil : ~ In 103%N ([] : str) /\ ~ In 65351%N ([] : str).
Proof. split; intros []. Qed.

Lemma no_g_clean (val : str) :
  ~ In 103%N (fst (fst (strip_units_and_note val)))
  /\ ~ In 65351%N (fst (fst (strip_units_and_note val))).
Proof.
  destruct (strip_units_and_note_parts val) as [_ [_ [H1 [H2 _]]]]. auto.
Qed.

Lemma no_g_value_only (val : str) :
  ~ In 103%N (strip_units_and_note_value_only val)
  /\ ~ In 65351%N (strip_units_and_note_value_only val).
Proof.
  rewrite value_only_form. split; apply norm_of_filtered_has_no_g; reflexivity.
Qed.

Lemma row_to_record_fields (row : list str) :
  let r := row_to_record row in
  _norm (成分名 r) = 成分名 r
  /\ (単位 r = [] \/ 単位 r = G_ASCII \/ 単位 r = KOKUSAI)
  /\ (備考 r = [] \/ 備考 r = GOKEI)
  /\ Forall (fun amount => ~ In 103%N amount /\ ~ In 65351%N amount)
            [最大配合量1 r; 最大配合量2 r; 最大配合量3 r; 最大配合量4 r].
Proof.
  assert (Hfall : forall c0 c1 : str,
             let r := (let '(clean, unit, note) := strip_units_and_note c1 in
                       {| 成分名 := _norm c0; 最大配合量1 := clean;
                          最大配合量2 := []; 最大配合量3 := [];
                          最大配合量4 := []; 単位 := unit; 備考 := note |}) in
             _norm (成分名 r) = 成分名 r
             /\ (単位 r = [] \/ 単位 r = G_ASCII \/ 単位 r = KOKUSAI)
             /\ (備考 r = [] \/ 備考 r = GOKEI)
             /\ Forall (fun amount => ~ In 103%N amount /\ ~ In 65351%N amount)
                       [最大配合量1 r; 最大配合量2 r; 最大配合量3 r; 最大配合量4 r]).
  { intros c0 c1. cbv zeta.
    pose proof (strip_units_and_note_parts c1) as Hp.
    pose proof (no_g_clean c1) as Hg.
    destruct (strip_units_and_note c1) as [[clean unit] note].
    cbn [fst snd] in Hp, Hg. cbv zeta in Hp.
    destruct Hp as [Hu [Hn _]].
    cbn [成分名 単位 備考 最大配合量1 最大配合量2 最大配合量3 最大配合量4].
    split; [apply norm_idem |]. split; [exact Hu |]. split; [exact Hn |].
    repeat constructor; try exact (proj1 Hg); try exact (proj2 Hg); intros []. }
  destruct row as [| c0 [| c1 [| c2 [| c3 [| c4 more]]]]].
  - cbv zeta. cbn. split; [reflexivity |].
    split; [left; reflexivity |]. split; [left; reflexivity |].
    repeat constructor; intros [].
  - cbv zeta.
    cbn [row_to_record 成分名 単位 備考 最大配合量1 最大配合量2 最大配合量3 最大配合量4].
    split; [apply norm_idem |].
    split; [left; reflexivity |]. split; [left; reflexivity |].
    repeat constructor; intros [].
  - exact (Hfall c0 c1).
  - exact (Hfall c0 c1).
  - cbv zeta. cbn [row_to_record].
    pose proof (strip_units_and_note_parts c1) as Hp.
    pose proof (no_g_clean c1) as Hg.
    destruct (strip_units_and_note c1) as [[clean unit] note].
    cbn [fst snd] in Hp, Hg. cbv zeta in Hp.
    destruct Hp as [Hu [Hn _]].
    cbn [成分名 単位 備考 最大配合量1 最大配合量2 最大配合量3 最大配合量4].
    split; [apply norm_idem |]. split; [exact Hu |]. split; [exact Hn |].
    constructor; [split; intros [] |].
    constructor; [exact Hg |].
    constructor; [apply no_g_value_only |].
    constructor; [apply no_g_value_only | constructor].
  - exact (Hfall c0 c1).
Qed.

End HtmlRecords.

(** Every record kept for writing has a non-empty, normalised name; its
    unit is empty, "g" or "国際単位"; its note is empty or
    "合計量として"; and none of its four amounts holds "g" or "ｇ". *)
Theorem html_records_fields (tables_rows : list (list (list str))) :
  Forall (fun r =>
            HtmlToTable.成分名 r <> []
            /\ HtmlToTable._norm (HtmlToTable.成分名 r) = HtmlToTable.成分名 r
            /\ (HtmlToTable.単位 r = [] \/ HtmlToTable.単位 r = G_ASCII
                \/ HtmlToTable.単位 r = KOKUSAI)
            /\ (HtmlToTable.備考 r = [] \/ HtmlToTable.備考 r = GOKEI)
            /\ Forall (fun amount => ~ In 103%N amount /\ ~ In 65351%N amount)
                      [HtmlToTable.最大配合量1 r; HtmlToTable.最大配合量2 r;
                       HtmlToTable.最大配合量3 r; HtmlToTable.最大配合量4 r])
         (HtmlToTable.records_of tables_rows).
Proof.
  unfold HtmlToTable.records_of.
  apply Forall_flat_map_intro. intros table _.
  apply Forall_flat_map_intro. intros row _.
  destruct (nonempty (HtmlToTable.成分名 (HtmlToTable.row_to_record row))
            && HtmlToTable.has_meaningful_values (HtmlToTable.row_to_record row))
    eqn:E; [| constructor].
  apply andb_true_iff in E. destruct E as [En _].
  apply nonempty_true_iff in En.
  constructor; [| constructor].
  split; [exact En | exact (row_to_record_fields row)].
Qed.

(** ** The HTML variant: cell texts *)

Section CellTexts.

Import HtmlToTable.

Lemma p_text_trimmed (strings : list str) :
  p_text strings = [] \/ trimmed (p_text strings).
Proof.
  destruct (p_text strings) as [| c t] eqn:E; [left; reflexivity | right].
  rewrite <- E. unfold trimmed.
  split; [rewrite E; discriminate |].
  unfold p_text.
  split; [apply strip_starts_clean |]. split; [apply strip_ends_clean |].
  intros Hin. apply in_strip_inv in Hin. rewrite replace_wide_space in Hin.
  apply in_map_iff in Hin. destruct Hin as [x [Hx _]].
  destruct (char_eqb 12288%N x) eqn:Ex; [discriminate |].
  subst x. rewrite char_eqb_refl in Ex. discriminate.
Qed.

Lemma texts_trimmed (ps : list (list str)) :
  Forall trimmed (filter nonempty (map p_text ps)).
Proof.
  induction ps as [| p ps IH]; [constructor |].
  cbn [map filter]. destruct (nonempty (p_text p)) eqn:E; [| exact IH].
  constructor; [| exact IH].
  destruct (p_text_trimmed p) as [H | H]; [rewrite H in E; discriminate | exact H].
Qed.

Lemma join_trimmed_nonempty (t : str) (ts : list str) :
  trimmed t -> join SPACE (t :: ts) <> [].
Proof.
  intros [Hne _]. destruct t as [| x t]; [congruence |].
  destruct ts; discriminate.
Qed.

Lemma join_trimmed (ts : list str) :
  Forall trimmed ts ->
  starts_clean (join SPACE ts) /\ ends_clean (join SPACE ts)
  /\ ~ In 12288%N (join SPACE ts).
Proof.
  induction 1 as [| t ts Ht Hts IH].
  - split; [intros c s' H; discriminate |].
    split; [intros s' c H; destruct s'; discriminate | intros []].
  - destruct ts as [| t2 ts].
    + cbn [join]. destruct Ht as [_ H]. exact H.
    + change (join SPACE (t :: t2 :: ts))
        with (t ++ [32%N] ++ join SPACE (t2 :: ts)).
      destruct IH as [_ [IHe IHn]]. destruct Ht as [Hne [Hs [_ Hn]]].
      split; [| split].
      * intros c s' Hj. destruct t as [| x t]; [congruence |].
        cbn [app] in Hj. injection Hj as <- _. exact (Hs x t eq_refl).
      * intros s' c Hj. rewrite app_assoc in Hj.
        assert (Hne2 : join SPACE (t2 :: ts) <> []).
        { inversion Hts; subst. apply join_trimmed_nonempty. assumption. }
        destruct (exists_last Hne2) as [body [z Hz]].
        rewrite Hz, app_assoc in Hj. apply app_inj_tail in Hj.
        destruct Hj as [_ <-]. exact (IHe body z Hz).
      * intros Hin. apply in_app_or in Hin. destruct Hin as [Hin | Hin];
          [exact (Hn Hin) |].
        apply in_app_or in Hin. destruct Hin as [[Hin | []] | Hin];
          [discriminate | exact (IHn Hin)].
Qed.

Lemma td_text_clean (ps : list (list str)) :
  starts_clean (td_text ps) /\ ends_clean (td_text ps) /\ ~ In 12288%N (td_text ps).
Proof. unfold td_text. apply join_trimmed, texts_trimmed. Qed.

End CellTexts.

(** A table row gives one cell text per [td], also for a [td] without
    text; no cell text holds a full-width space, and none starts or
    ends with white space. *)
Theorem td_p_texts_gives_trimmed_cells (tr : list (list (list str))) :
  length (HtmlToTable.td_p_texts tr) = length tr
  /\ Forall (fun cell => starts_clean cell /\ ends_clean cell /\ ~ In 12288%N cell)
            (HtmlToTable.td_p_texts tr).
Proof.
  unfold HtmlToTable.td_p_texts. split; [apply length_map |].
  apply Forall_forall. intros cell Hin. apply in_map_iff in Hin.
  destruct Hin as [ps [<- _]]. apply td_text_clean.
Qed.

(** ** Which tokens are amount tokens *)

Section AmountTokens.

Import Main.

Lemma greedy_in_inv (p : char -> bool) (s : str) :
  forall pos q r, In (q, r) (greedy p pos s) ->
                  exists x, s = x ++ r /\ forallb p x = true.
Proof.
  induction s as [| c t IH]; intros pos q r Hin; cbn [greedy] in Hin.
  - destruct Hin as [H | []]. inversion H; subst. exists []. auto.
  - assert (Hhere : (pos, c :: t) = (q, r) ->
                    exists x, c :: t = x ++ r /\ forallb p x = true).
    { intros H. inversion H; subst. exists []. auto. }
    destruct (p c) eqn:Ec.
    + apply in_app_iff in Hin. destruct Hin as [Hin | [H | []]]; [| exact (Hhere H)].
      destruct (IH (S pos) q r Hin) as [x [Hx Hp]].
      exists (c :: x). split; [cbn [app]; rewrite Hx; reflexivity |].
      cbn [forallb]. rewrite Ec. exact Hp.
    + destruct Hin as [H | []]. exact (Hhere H).
Qed.

Lemma exec_Rep1_inv (p : char -> bool) (st e : mstate) :
  In e (exec (Rep1 p) st) ->
  exists x, x <> [] /\ forallb p x = true /\ m_rest st = x ++ m_rest e.
Proof.
  cbn [exec]. destruct (m_rest st) as [| c t]; [intros [] |].
  destruct (p c) eqn:Ec; [| intros []].
  intros Hin. apply in_map_iff in Hin. destruct Hin as [[q r] [<- Hg]].
  destruct (greedy_in_inv p t (S (m_pos st)) q r Hg) as [x [Hx Hp]].
  exists (c :: x). cbn [m_rest snd]. split; [discriminate |].
  split; [cbn [forallb]; rewrite Ec; exact Hp | cbn [app]; rewrite Hx; reflexivity].
Qed.

Lemma exec_Lit_inv (l : str) (st e : mstate) :
  In e (exec (Lit l) st) -> m_rest st = l ++ m_rest e.
Proof.
  cbn [exec]. destruct (drop_prefix l (m_rest st)) as [rest |] eqn:E; [| intros []].
  intros [<- | []]. cbn [m_rest]. apply drop_prefix_some, E.
Qed.

Lemma re_match_in (r : regex) (s : str) :
  re_match r s = true -> exists e, In e (exec r (MState 0 None s)).
Proof.
  unfold re_match, match_at.
  destruct (exec r (MState 0 None s)) as [| e l]; [discriminate |].
  intros _. exists e. left. reflexivity.
Qed.

(** A match of the amount pattern: digits, an optional fraction, a
    unit marker, and then the end of the text or a final newline. *)
Lemma token_is_amount_inv (tok : str) :
  re_match _TOKEN_IS_AMOUNT tok = true ->
  exists d frac m tail,
    tok = d ++ frac ++ m ++ tail
    /\ Spec.digits d
    /\ (frac = [] \/ exists f, frac = 46%N :: f /\ Spec.digits f)
    /\ (m = G_WIDE \/ m = KOKUSAI)
    /\ (tail = [] \/ tail = [10%N]).
Proof.
  intros H. apply re_match_in in H. destruct H as [e He].
  unfold _TOKEN_IS_AMOUNT in He. rewrite exec_Cat in He.
  change (exec Bol (MState 0 None tok)) with [MState 0 None tok] in He.
  cbn [flat_map] in He. rewrite app_nil_r, exec_Cat in He.
  apply in_flat_map in He. destruct He as [e1 [H1 He]].
  apply exec_Rep1_inv in H1. cbn [m_rest] in H1.
  destruct H1 as [d [Hd1 [Hd2 Htok]]].
  rewrite exec_Cat in He. apply in_flat_map in He. destruct He as [e2 [H2 He]].
  rewrite exec_Cat in He. apply in_flat_map in He. destruct He as [e3 [H3 He]].
  assert (Hfrac : exists frac,
             m_rest e1 = frac ++ m_rest e2
             /\ (frac = [] \/ exists f, frac = 46%N :: f /\ Spec.digits f)).
  { rewrite exec_Opt in H2. apply in_app_iff in H2.
    destruct H2 as [H2 | [<- | []]]; [| exists []; auto].
    rewrite exec_Cat in H2. apply in_flat_map in H2.
    destruct H2 as [ed [Hdot Hf]].
    apply exec_Lit_inv in Hdot. apply exec_Rep1_inv in Hf.
    destruct Hf as [f [Hf1 [Hf2 Hf3]]].
    exists (46%N :: f). split.
    - rewrite Hdot, Hf3. reflexivity.
    - right. exists f. split; [reflexivity | split; assumption]. }
  destruct Hfrac as [frac [Hfr Hfrac]].
  assert (Hm : exists m, m_rest e2 = m ++ m_rest e3 /\ (m = G_WIDE \/ m = KOKUSAI)).
  { rewrite exec_Alt in H3. apply in_app_iff in H3.
    destruct H3 as [H3 | H3]; apply exec_Lit_inv in H3;
      [exists G_WIDE | exists KOKUSAI]; auto. }
  destruct Hm as [m [Hmr Hm]].
  assert (Htail : m_rest e3 = [] \/ m_rest e3 = [10%N]).
  { cbn [exec] in He. destruct (m_rest e3) as [| c [| c2 t]];
      [left; reflexivity | | destruct He].
    destruct (char_eqb c 10%N) eqn:Ec; [| destruct He].
    apply char_eqb_eq in Ec. subst c. right. reflexivity. }
  exists d, frac, m, (m_rest e3).
  split; [rewrite Htok, Hfr, Hmr; reflexivity |].
  split; [split; assumption |]. split; [exact Hfrac |]. split; assumption.
Qed.

Lemma spaceless_no_newline (x : str) :
  spaceless (x ++ [10%N]) = false.
Proof.
  unfold spaceless. rewrite forallb_app. cbn. apply andb_false_r.
Qed.

End AmountTokens.

(** Only a token of the amount shape is taken for an amount token: a
    token without white space that the amount pattern accepts is made
    of digits, an optional fraction, and "ｇ" or "国際単位". *)
Theorem amount_tokens_have_the_amount_shape (tok : str) :
  spaceless tok = true ->
  re_match Main._TOKEN_IS_AMOUNT tok = true ->
  Spec.amount_shape G_WIDE tok.
Proof.
  intros Hs Hm.
  destruct (token_is_amount_inv tok Hm)
    as [d [frac [m [tail [Htok [Hd [Hfrac [Hmm Htail]]]]]]]].
  destruct Htail as [-> | ->].
  - exists d, frac, m. rewrite app_nil_r in Htok. auto.
  - exfalso. rewrite Htok in Hs. rewrite !app_assoc in Hs.
    rewrite spaceless_no_newline in Hs. discriminate.
Qed.

Lemma amount_tokens_have_the_amount_shape_witness :
  spaceless (u "12.5国際単位") = true
  /\ re_match Main._TOKEN_IS_AMOUNT (u "12.5国際単位") = true
  /\ Spec.amount_shape G_WIDE (u "12.5国際単位").
Proof.
  split; [vm_compute; reflexivity |]. split; [vm_compute; reflexivity |].
  apply (amount_tokens_have_the_amount_shape (u "12.5国際単位"));
    vm_compute; reflexivity.
Defined.

(** ** Records of a table of four columns or more *)

Section FourColumns.

Import Main.

Lemma gokei_value_nonempty (v : str) : contains GOKEI v = true -> nonempty v = true.
Proof. apply contains_nonempty. discriminate. Qed.

Lemma record_4col_values (name cond : str) (eq : bool) (v2 v3 v4 pdf_url : str) :
  let r := record_4col name cond eq v2 v3 v4 pdf_url in
  ryou1 r
  = (if contains GOKEI v2
     then _strip_units_for_ryou (strip (replace GOKEI [] v2))
     else if contains GOKEI v3
          then _strip_units_for_ryou (strip (replace GOKEI [] v3))
          else if contains GOKEI v4
               then _strip_units_for_ryou (strip (replace GOKEI [] v4))
               else [])
  /\ bikou r
     = (if contains GOKEI v2 || contains GOKEI v3 || contains GOKEI v4
        then GOKEI else [])
  /\ tanni r
     = (if _contains_haigou_fuka (ryou1 r) then []
        else if contains KOKUSAI v2 || contains KOKUSAI v3 || contains KOKUSAI v4
             then KOKUSAI else G_ASCII).
Proof.
  unfold record_4col, first_gokei, _strip_gokei_and_flag, _has_kokusai_tanni.
  cbn [existsb].
  destruct (contains GOKEI v2) eqn:E2; [| destruct (contains GOKEI v3) eqn:E3;
                                          [| destruct (contains GOKEI v4) eqn:E4]];
    cbn [fst snd orb];
    rewrite ?E2, ?E3, ?E4;
    rewrite ?(gokei_value_nonempty v2 E2), ?(gokei_value_nonempty v3 E3),
            ?(gokei_value_nonempty v4 E4);
    cbn [fst snd nonempty ryou1 bikou tanni];
    (split; [reflexivity |]); (split; [reflexivity |]);
    change (contains KOKUSAI []) with false;
    destruct (_contains_haigou_fuka _); try reflexivity;
    destruct (contains KOKUSAI v2), (contains KOKUSAI v3), (contains KOKUSAI v4);
    reflexivity.
Qed.

End FourColumns.

(** In a table of four columns or more, the amounts 2 to 4 of a record
    are the values of the columns 1 to 3 at its index without the unit
    markers; the amount 1 and the note come from the first of these
    values that holds "合計量として"; the unit is "国際単位" when one
    of the values holds it and "g" otherwise, and it is empty only when
    the amount 1 holds "配合負荷" or "配合不可". *)
Theorem record_of_four_columns
        (nc : nat) (pdf_url : str) (row : list str) (i : nat) (r : Main.record) :
  4 <= nc ->
  nth_error (Main.row_records nc pdf_url row) i = Some r ->
  let v2 := Main.tok_at (Main._split_tokens (Main.iat row 1)) i in
  let v3 := Main.tok_at (Main._split_tokens (Main.iat row 2)) i in
  let v4 := Main.tok_at (Main._split_tokens (Main.iat row 3)) i in
  Main.ryou2 r = Main._strip_units_for_ryou v2
  /\ Main.ryou3 r = Main._strip_units_for_ryou v3
  /\ Main.ryou4 r = Main._strip_units_for_ryou v4
  /\ Main.ryou1 r
     = (if contains GOKEI v2
        then Main._strip_units_for_ryou (strip (replace GOKEI [] v2))
        else if contains GOKEI v3
             then Main._strip_units_for_ryou (strip (replace GOKEI [] v3))
             else if contains GOKEI v4
                  then Main._strip_units_for_ryou (strip (replace GOKEI [] v4))
                  else [])
  /\ Main.bikou r
     = (if contains GOKEI v2 || contains GOKEI v3 || contains GOKEI v4
        then GOKEI else [])
  /\ Main.tanni r
     = (if Main._contains_haigou_fuka (Main.ryou1 r) then []
        else if contains KOKUSAI v2 || contains KOKUSAI v3 || contains KOKUSAI v4
             then KOKUSAI else G_ASCII).
Proof.
  intros Hnc Hr v2 v3 v4.
  rewrite row_records_view in Hr. cbv zeta in Hr.
  assert (H4 : (4 <=? nc) = true) by (apply Nat.leb_le; exact Hnc).
  assert (H3 : (3 <=? nc) = true) by (apply Nat.leb_le; lia).
  assert (H2 : (2 <=? nc) = true) by (apply Nat.leb_le; lia).
  rewrite H4, H3, H2 in Hr. cbn [negb] in Hr.
  apply nth_error_map_seq in Hr. fold v2 v3 v4 in Hr. subst r.
  match goal with
  | |- context [Main.record_4col ?n ?c ?e v2 v3 v4 pdf_url] =>
      destruct (record_4col_fields n c e v2 v3 v4 pdf_url)
        as [_ [_ [_ [F2 [F3 [F4 _]]]]]];
      destruct (record_4col_values n c e v2 v3 v4 pdf_url) as [G1 [G2 G3]]
  end.
  repeat split; assumption.
Qed.

Lemma record_of_four_columns_witness :
  4 <= 4
  /\ nth_error
       (Main.row_records 4 (u "https://example.test/a.pdf")
          [u "Alpha"; u "配合不可"; u "合計量として3ｇ"; u "5国際単位"]) 0
     = Some {| Main.seibunn := u "Alpha"; Main.条件 := [];
               Main.ryou1 := u "3"; Main.ryou2 := u "配合不可";
               Main.ryou3 := u "合計量として3"; Main.ryou4 := u "5";
               Main.tanni := u "国際単位"; Main.bikou := u "合計量として";
               Main.url := u "https://example.test/a.pdf" |}
  /\ Main.tanni {| Main.seibunn := u "Alpha"; Main.条件 := [];
                   Main.ryou1 := u "3"; Main.ryou2 := u "配合不可";
                   Main.ryou3 := u "合計量として3"; Main.ryou4 := u "5";
                   Main.tanni := u "国際単位"; Main.bikou := u "合計量として";
                   Main.url := u "https://example.test/a.pdf" |}
     = KOKUSAI.
Proof.
  assert (Hr : nth_error
                 (Main.row_records 4 (u "https://example.test/a.pdf")
                    [u "Alpha"; u "配合不可"; u "合計量として3ｇ"; u "5国際単位"]) 0
               = Some {| Main.seibunn := u "Alpha"; Main.条件 := [];
                         Main.ryou1 := u "3"; Main.ryou2 := u "配合不可";
                         Main.ryou3 := u "合計量として3"; Main.ryou4 := u "5";
                         Main.tanni := u "国際単位"; Main.bikou := u "合計量として";
                         Main.url := u "https://example.test/a.pdf" |})
    by (vm_compute; reflexivity).
  split; [apply le_n |]. split; [exact Hr |].
  destruct (record_of_four_columns 4 (u "https://example.test/a.pdf")
              [u "Alpha"; u "配合不可"; u "合計量として3ｇ"; u "5国際単位"] 0 _
              (le_n 4) Hr) as [_ [_ [_ [_ [_ Ht]]]]].
  rewrite Ht. vm_compute. reflexivity.
Defined.
